(* ===== verification/_CoqProject ===== *)
-Q . S2P
Prelude.v
PyStr.v
Regex.v
RegexLines.v
Width.v
Reflow.v
Cue.v
Merger.v
Normalizer.v
Overlap.v
ReplaceNth.v
PostSort.v
Pipeline.v
Xml.v
Files.v
Ass.v
Diff.v
Report.v
Walk.v
