(* ===== verification/Prelude.v ===== *)
(** * Subtitle-Tool: a verification development of the cue pipeline

    The repository is one Python script, [src/subtitle_tool.py].  Its core
    is [translate_subtitle] (lines 144-469), which loads a track of cues
    with pysubs2 and runs, in this order:
    - the normalizer loop (lines 173-374): a deletion policy and an ordered
      list of string and regular-expression rewrites on each cue's text,
      then two calls of the external term dictionary, recording a typo
      record when the dictionary changed the text;
    - the batch deletion of the dropped cues (lines 376-377);
    - the merger loop (lines 379-412): cues with the same (start, end) as
      their predecessor are folded into it, then deleted in a second batch;
    - [subs.sort()] (line 414, pysubs2);
    - the post-sort loop (lines 419-447): annotation relocation, the
      illegal-character scan, the reflow [fix_overlength] (lines 471-506,
      which measures lines with [get_line_width], lines 35-53), the
      overlap detector, and the matching of typo records to cue indices;
    - the report writers (lines 449-469 and [print_typo_compare]).

    ** Files and what they model (in dependency order)
    - [Prelude] (this file): notation scope [sub_scope], the error monad
      [result] for Python exceptions, the UTF-8 decoder [u] that turns a
      Rocq string literal into the list of code points a Python [str] is,
      the tactics and the hint databases [subtool] and [subtool_rw],
      generic lemmas on lists and options.
    - [PyStr]: the Python [str] operations the script calls ([str.replace],
      [str.split], [str.join], [str.strip], [str.find], slicing with
      negative indices, indexing with [IndexError]); Python semantics, not
      repository code, so they are not in the map.  Lemmas: round trips
      ([join_split]), idempotence of [strip], slicing at natural indices.
    - [Regex]: the subset of Python's [re] that the script uses: a
      pattern syntax tree, a backtracking matcher that lists all matches
      in Python's priority order (greedy and lazy stars, alternation,
      groups, [^], [$], classes), [re.search], [re.sub] with group
      templates and [re.findall] counting.
    - [RegexLines]: patterns without anchors whose atoms never consume a
      line feed ([line_local]): they match the same way at any position
      and whatever follows the line, so [re.sub] with such a pattern
      rewrites a text line by line ([sub_lines]); step lemmas follow
      Python's first match through a sequence ([first_lazy_dots_to],
      [first_zeros_to]) and let [re.sub] pass over text where no match
      can start.
    - [Width]: [get_line_width] (lines 35-53) over an interface
      [UnicodeDB] (NFC, east-asian width, combining class) that
      [unicodedata] provides; the width is a sum of per-character widths.
    - [Reflow]: [fix_overlength] (lines 471-506).  [break_points] and
      [rebuild] are the two loops of the code; the theorems show they
      refine the greedy word wrap [greedy] ([rebuild_refines]) and bound
      the word width of each output line; for every over-long line, the
      leading words that fit in 40 columns open its first output line,
      which with its spaces is wider than the spec's 41 columns as soon as
      those words are, and a first word wider than 40 columns leaves an
      empty line after the line before it.
    - [Cue]: the cue record (pysubs2 [SSAEvent]), the typo record, and
      [SSAFile.sort] (a stable sort on (start, end), spec-modelled, shown
      sorted and a permutation); [del subs[i]] and the reversed batch
      deletion, with the two shapes of delete list the script builds
      ([ascending] for the normalizer, [merge_marks] for the merger) and
      what each deletion keeps.
    - [Merger]: the merger loop (lines 379-412) with its batch deletion,
      as a state-passing loop over the shared list of cues; the theorems
      give its result on chains and duplicates, its [IndexError], the
      absence of adjacent duplicates afterwards, and that no time range
      of the track disappears.
    - [Normalizer]: the normalizer loop (lines 173-374) as an ordered list
      of rules over an external [Dictionary] interface; the theorems give
      the deletion policy (cues at [0 --> 0] and credit lines are
      dropped) and the dead line-start test of line 293.
    - [Overlap]: the overlap test of lines 416-443 over a sorted track:
      the reported indices are exactly the overlapping neighbours.
    - [ReplaceNth]: [replace_nth] (lines 55-75) and its [str.find] loop:
      the complete behaviour for a non-empty [sub] (the n-th occurrence is
      replaced; [n = count + 1], and [n = 0] without occurrence, splice
      [repl] at index [-1]; every other [n] leaves [s]) and the exit of
      its loop.
    - [PostSort]: the loop after [subs.sort()] (lines 416-447) as a step
      function over a record of its variables: the annotation relocation
      (lines 420-425), the illegal-character scan (printed only), the
      reflow, the overlap test and the stamping of the shared typo
      records.  The loop never raises and computes a reference result
      ([post_sort_loop]); the relocation puts the annotation after the
      line and can drop text.
    - [Pipeline]: [translate_core], lines 169-447 in order (normalizer and
      its deletion, merger and its deletion, sort, post-sort loop); the
      sort post-condition, every typo record indexed (no [KeyError] in
      the diff report), on the whole pipeline.

    - [Xml]: [convert_xml_content] (lines 673-694) on the [<dia>]
      entries BeautifulSoup returns: [int()] with its [ValueError], the
      bracket rules, the [{\an8}] prefix for a small vertical margin, and
      which exceptions an entry can raise.
    - [Files]: the file names and file operations around the pipeline:
      [rename_subtitle] (lines 592-602) and the output name of
      [translate_subtitle] (lines 154-164, its [re.sub] calls run by
      [Regex]); [convert_subtitle] (lines 572-589) with the names and the
      file operations of [ass_to_srt], [vtt_to_srt], [xml_to_srt] over a
      file system of names; [merge_subtitle] (lines 113-133): the events
      it saves and the merged-file name.  The theorems: the dispatch
      raises [UnboundLocalError] exactly for the other suffixes, the
      [.xml] conversion deletes the file and writes nothing, the merge
      puts the first file's last event after the second file, and
      [rename_subtitle] replaces [.ass] inside a name, not only as its
      extension.
    - [Ass]: [convert_ass_content] (lines 605-630) as the code's chain of
      [re.sub] calls, each pattern a [Regex] tree and the eight style
      rules a list run in order ([sub_chain]), and the text [ass_to_srt]
      writes (lines 709-724).  Checked against Python's [re] on sixteen
      conversions.  The theorems: the conversion works line by line
      (the file equals its lines converted one by one), a [Caption] line
      with zero margins becomes the canonical [Caption] line with its
      text in full-width parentheses whatever its times, name, effect
      and text.
    - [Diff]: [difflib.ndiff] on two strings, from CPython 3.11's
      [SequenceMatcher] and [Differ] (a library, spec-modelled in the
      map): [find_longest_match] is shown to return a match in its range,
      the work queue of [get_matching_blocks] an invariant of pairwise
      ordered rectangles and a decreasing measure ([mb_loop_fuel]), the
      sorted and merged blocks a chain through both texts, and the
      opcodes and [_fancy_replace] lines to cover both texts
      ([ndiff_sides]).
    - [Report]: [print_typo_compare] (lines 525-569): the marks 【c】, the
      split and [zip], the padding f-string, [KeyError], [IndexError] and
      [sys.exit()].  The theorems: the report of a pipeline run is
      written whole; the marked texts give the two texts back; the
      padding column depends on the length of the line; a block has one
      row per line of the shorter text, so [zip] drops the last lines of
      the longer one.
    - [Walk]: [main], [walk_dir], [handle_subtitle], [archive_subtitle]
      (lines 756-871) as runs that list the operations they start and say
      how they end (normally, [sys.exit()], an exception), over section
      variables for the file system and the outside programs; the codec
      choice of [convert_utf8] (lines 83-89) as [codec_plan], over the
      detected encoding ([None] raises [AttributeError]).  The
      theorem: the walk stops for good at the first file whose default
      translation finds no typo ([sys.exit()] in [print_typo_compare]):
      the files listed before it are handled, the ones after it never.

    Interfaces: the term dictionary is the class [Dictionary]
    (Normalizer), the Unicode database the class [UnicodeDB] (Width);
    the components are proved for every instance, and the sample
    instances [id_dictionary], [typo_sample] and [ucd_sample] only run
    the examples.  The file system, pysubs2's loader and
    [ms_to_timestamp], [unar] and [float()] are variables of the
    sections of [Walk] and [Report].

    ** What is not modelled, and why
    file contents I/O, encoding detection and the decoding itself
    ([get_encoding_type] and the rest of [convert_utf8]: chardet and
    codecs), pysubs2
    parsing, saving and [shift], OpenCC, BeautifulSoup, argparse and
    [os.system]: libraries and I/O the script only calls.  The content
    rewriting of [convert_vtt_content] (lines 633-670) is a chain of
    eighteen [re.sub] over WebVTT syntax whose patterns use Unicode
    classes ([\w], [\d] match every Unicode letter and decimal digit)
    outside the regex model, and nested stars ([(.+)*\n]) whose full
    list of matches, which the model computes, is exponential in the
    line length; its last call passes [re.MULTILINE] as the [count]
    argument (a finding, stated without a theorem).  The term
    dictionary ([dictionary.translate]) and [unicodedata] are libraries
    the script only calls: they are interfaces (type classes), and every
    theorem holds for every instance.  [pathlib] and [os.path] are
    modelled for paths without repeated or trailing slashes; [\d] of
    the file-name patterns as ASCII digits.

    ** Bounds and fuel
    Loops of the code that are not structural carry a counter: the
    [str.replace] and [str.split] models a counter of [len(s) + 1], the
    matcher's star iterations the length of the text, the loop of
    [replace_nth] a counter of [len(s) + 2], the work queue of
    [get_matching_blocks] [2 * len(a) + 1] iterations, [_fancy_replace]
    the length of its range of [a], [str(n)] [n + 1] divisions.  Each is
    shown enough or bounded by a measure: every step consumes a
    character, moves the search index forward inside the text, or
    replaces a range by strictly smaller ones ([replace_fuel_enough],
    [star_all_enough], [replace_nth_loop_exits], [mb_loop_fuel]).
    Integers are Python integers (unbounded), modelled as [Z] or [nat];
    no machine width is involved.  The time offset of [merge_subtitle]
    goes through a float division and [make_time]'s rounding, exact for
    the millisecond times of subtitle files; the episode number of the
    merged name through [int((n + 1) / 2)], the floor of the half. *)

From Stdlib Require Import String Ascii.
From Stdlib Require Import List ZArith Lia Bool.
Import ListNotations.

(** ** Notation scope of the development *)
Declare Scope sub_scope.
Delimit Scope sub_scope with sub.

(** ** Python exceptions as values

    A computation of the script that can raise returns [Ok v] or
    [Err e]; the bind notation threads the error, as [Result] monads of
    the reference developments do. *)
Inductive py_error : Type :=
  IndexError | ValueError | KeyError | TypeError | AttributeError | UnboundLocalError | StopIteration
| FileNotFoundError.

Inductive result (A : Type) : Type :=
| Ok (a : A)
| Err (e : py_error).
Arguments Ok {A} a.
Arguments Err {A} e.

Definition bind {A B} (r : result A) (k : A -> result B) : result B :=
  match r with Ok a => k a | Err e => Err e end.

Definition of_option {A} (o : option A) (e : py_error) : result A :=
  match o with Some a => Ok a | None => Err e end.

Notation "x <- c ;; k" := (bind c (fun x => k))
  (at level 60, c at next level, right associativity) : sub_scope.

(** ** UTF-8 decoding of Rocq string literals

    Rocq string literals are byte sequences; the source file is UTF-8.
    [u "..."] is the list of Unicode code points of the literal, i.e. the
    Python [str] the same literal denotes in [subtitle_tool.py].  Inside a
    Rocq string a backslash is an ordinary character, so [u "\n"] is the
    two-character Python string ['\\n'], as in the source. *)

Definition byte_val (a : ascii) : Z := Z.of_N (N_of_ascii a).

Fixpoint utf8_decode (fuel : nat) (s : string) : list Z :=
  match fuel with
  | O => []
  | S f =>
    match s with
    | EmptyString => []
    | String a r =>
      let x := byte_val a in
      if (x <? 128)%Z then x :: utf8_decode f r
      else if (x <? 224)%Z then
        match r with
        | String a1 r1 =>
            (Z.land x 31 * 64 + Z.land (byte_val a1) 63)%Z :: utf8_decode f r1
        | _ => []
        end
      else if (x <? 240)%Z then
        match r with
        | String a1 (String a2 r2) =>
            (Z.land x 15 * 4096 + Z.land (byte_val a1) 63 * 64
             + Z.land (byte_val a2) 63)%Z :: utf8_decode f r2
        | _ => []
        end
      else
        match r with
        | String a1 (String a2 (String a3 r3)) =>
            (Z.land x 7 * 262144 + Z.land (byte_val a1) 63 * 4096
             + Z.land (byte_val a2) 63 * 64 + Z.land (byte_val a3) 63)%Z
            :: utf8_decode f r3
        | _ => []
        end
    end
  end.

Definition u (s : string) : list Z := utf8_decode (String.length s) s.

(** ** Automation shared by the components *)
Create HintDb subtool discriminated.
Create Rewrite HintDb subtool_rw.

(** Case analysis on every boolean test and [match] in the goal. *)
Ltac case_ifs :=
  repeat match goal with
  | |- context [if ?b then _ else _] =>
      let E := fresh "E" in destruct b eqn:E
  end.

(** Turn boolean comparisons on [Z] and [nat] in hypotheses and goal into
    propositions. *)
Ltac bool_to_prop :=
  repeat match goal with
  | H : (_ =? _)%Z = true |- _ => apply Z.eqb_eq in H
  | H : (_ =? _)%Z = false |- _ => apply Z.eqb_neq in H
  | H : (_ <? _)%Z = true |- _ => apply Z.ltb_lt in H
  | H : (_ <? _)%Z = false |- _ => apply Z.ltb_ge in H
  | H : (_ <=? _)%Z = true |- _ => apply Z.leb_le in H
  | H : (_ <=? _)%Z = false |- _ => apply Z.leb_gt in H
  | H : (_ =? _)%nat = true |- _ => apply Nat.eqb_eq in H
  | H : (_ =? _)%nat = false |- _ => apply Nat.eqb_neq in H
  | H : (_ <? _)%nat = true |- _ => apply Nat.ltb_lt in H
  | H : (_ <? _)%nat = false |- _ => apply Nat.ltb_ge in H
  | H : (_ <=? _)%nat = true |- _ => apply Nat.leb_le in H
  | H : (_ <=? _)%nat = false |- _ => apply Nat.leb_gt in H
  | H : (_ && _) = true |- _ => apply andb_true_iff in H as [? ?]
  | H : (_ || _) = false |- _ => apply orb_false_iff in H as [? ?]
  end.

(** ** Generic lemmas on lists and options *)

(** A loop over [l] whose every step leaves the state as it is. *)
Lemma fold_bind_const {A B} (f : A -> B -> result A) (l : list B) (s : A) :
  (forall i, In i l -> f s i = Ok s) ->
  fold_left (fun acc i => bind acc (fun st => f st i)) l (Ok s) = Ok s.
Proof.
  induction l as [|i l IH]; intros H; simpl; [reflexivity|].
  rewrite H by (left; reflexivity). apply IH. intros j Hj. apply H. right. exact Hj.
Qed.

(** Once a loop has raised, it stays raised. *)
Lemma fold_bind_err {A B} (f : A -> B -> result A) (l : list B) (e : py_error) :
  fold_left (fun acc i => bind acc (fun st => f st i)) l (Err e) = Err e.
Proof. induction l as [|i l IH]; simpl; [reflexivity | exact IH]. Qed.


Lemma app_cons_assoc {A} (l1 : list A) (x : A) (l2 : list A) :
  l1 ++ x :: l2 = (l1 ++ [x]) ++ l2.
Proof. rewrite <- app_assoc. reflexivity. Qed.

Lemma length_app_lt {A} (p l : list A) : p <> [] -> length l < length (p ++ l).
Proof. destruct p; [congruence | simpl; rewrite length_app; lia]. Qed.

Lemma firstn_app_exact {A} (p l : list A) : firstn (length p) (p ++ l) = p.
Proof. rewrite firstn_app, Nat.sub_diag, firstn_all; simpl; apply app_nil_r. Qed.

Lemma skipn_app_exact {A} (p l : list A) : skipn (length p) (p ++ l) = l.
Proof. rewrite skipn_app, Nat.sub_diag, skipn_all; reflexivity. Qed.

Lemma option_bind_some {A B} (o : option A) (f : A -> option B) (b : B) :
  match o with Some a => f a | None => None end = Some b ->
  exists a, o = Some a /\ f a = Some b.
Proof. destruct o; [eauto | discriminate]. Qed.

Lemma flat_map_nil_forall {A B} (f : A -> list B) (l : list A) :
  (forall x, In x l -> f x = []) -> flat_map f l = [].
Proof.
  induction l as [|x l IH]; intros H; simpl; [reflexivity|].
  rewrite H, IH; [reflexivity | intros y Hy; apply H; right; exact Hy | left; reflexivity].
Qed.

Lemma flat_map_ext_in {A B} (f g : A -> list B) (l : list A) :
  (forall x, In x l -> f x = g x) -> flat_map f l = flat_map g l.
Proof.
  induction l as [|x l IH]; intros H; simpl; [reflexivity|].
  rewrite H, IH; [reflexivity | intros y Hy; apply H; right; exact Hy | left; reflexivity].
Qed.

Lemma flat_map_nonempty {A B} (f : A -> list B) (l : list A) (x : A) :
  In x l -> f x <> [] -> flat_map f l <> [].
Proof.
  intros Hin Hf E. destruct (f x) as [|y ys] eqn:F; [congruence|].
  assert (In y (flat_map f l)) by (apply in_flat_map; exists x; rewrite F; simpl; auto).
  rewrite E in H. destruct H.
Qed.

Lemma rev_nonempty {A} (l : list A) : l <> [] -> rev l <> [].
Proof. intros H E. apply H. rewrite <- (rev_involutive l), E. reflexivity. Qed.

Lemma map_nonempty {A B} (f : A -> B) (l : list A) : l <> [] -> map f l <> [].
Proof. destruct l; [congruence | discriminate]. Qed.

#[export] Hint Resolve length_app_lt rev_nonempty map_nonempty : subtool.
#[export] Hint Rewrite @firstn_app_exact @skipn_app_exact : subtool_rw.

Lemma firstn_S_nth_error {A} (k : nat) (l : list A) (x : A) :
  nth_error l k = Some x -> firstn (S k) l = firstn k l ++ [x].
Proof.
  revert l; induction k as [|k IH]; intros [|y l] H; try discriminate; simpl in *.
  - injection H as ->. reflexivity.
  - rewrite (IH l H). reflexivity.
Qed.
