(* ===== verification/PyStr.v ===== *)
(** * Python [str] operations used by [subtitle_tool.py]

    A Python [str] is a sequence of code points: [str] below is [list Z].
    This file gives the semantics of the built-in methods the script calls
    ([==], [in], [replace], [split], [join], [strip], [find], slicing with
    negative indices, indexing).  They are the semantics of the language,
    not code of the repository.  Each is executable; the lemmas are the
    facts the components use (split/join round trip, replace of an absent
    substring, strip idempotence). *)

From S2P Require Import Prelude.
From Stdlib Require Import List ZArith Lia Bool.
Import ListNotations.

Definition char := Z.
Definition str := list char.

(** ['\n'] (a real line feed) and [' ']. *)
Definition newline : str := [10%Z].
Definition space : str := [32%Z].

(** [a == b] on strings. *)
Definition str_eqb (a b : str) : bool :=
  if list_eq_dec Z.eq_dec a b then true else false.

Notation "a ==? b" := (str_eqb a b) (at level 70) : sub_scope.
Open Scope sub_scope.

(** The characters for which Python's [str.isspace] is true. *)
Definition is_space (c : char) : bool :=
  (((9 <=? c) && (c <=? 13)) || ((28 <=? c) && (c <=? 32)) || (c =? 133)
  || (c =? 160) || (c =? 5760) || ((8192 <=? c) && (c <=? 8202))
  || (c =? 8232) || (c =? 8233) || (c =? 8239) || (c =? 8287) || (c =? 12288))%Z.

(** [str.lstrip()], [str.rstrip()], [str.strip()] with no argument. *)
Fixpoint lstrip (s : str) : str :=
  match s with
  | c :: s' => if is_space c then lstrip s' else s
  | [] => []
  end.

Definition rstrip (s : str) : str := rev (lstrip (rev s)).
Definition strip (s : str) : str := rstrip (lstrip s).

(** Prefix test, and the first occurrence of [sep] in [s]. *)
Fixpoint is_prefix (p s : str) : bool :=
  match p, s with
  | [], _ => true
  | c :: p', d :: s' => (c =? d)%Z && is_prefix p' s'
  | _ :: _, [] => false
  end.

Fixpoint break_on (sep s : str) : option (str * str) :=
  if is_prefix sep s then Some ([], skipn (length sep) s)
  else match s with
       | [] => None
       | c :: s' =>
           match break_on sep s' with
           | Some (a, b) => Some (c :: a, b)
           | None => None
           end
       end.

(** [sub in s]. *)
Definition contains (sub s : str) : bool :=
  match break_on sub s with Some _ => true | None => false end.

(** [s.replace(old, new)]: left to right, non-overlapping.  The counter
    starts at the length of [s] plus one and each step consumes at least
    one character, so it never runs out (see [replace_fuel_enough]). *)
Fixpoint replace_fuel (n : nat) (old new s : str) : str :=
  match n with
  | O => s
  | S n' =>
      match break_on old s with
      | Some (a, b) => a ++ new ++ replace_fuel n' old new b
      | None => s
      end
  end.

Definition replace (old new s : str) : str :=
  match old with
  | [] => new ++ flat_map (fun c => c :: new) s
  | _ => replace_fuel (S (length s)) old new s
  end.

(** [s.split(sep)] for a non-empty separator (Python raises [ValueError]
    for an empty one; the script never passes one). *)
Fixpoint split_fuel (n : nat) (sep s : str) : list str :=
  match n with
  | O => [s]
  | S n' =>
      match break_on sep s with
      | Some (a, b) => a :: split_fuel n' sep b
      | None => [s]
      end
  end.

Definition split (sep s : str) : list str := split_fuel (S (length s)) sep s.

(** [sep.join(l)]. *)
Fixpoint join (sep : str) (l : list str) : str :=
  match l with
  | [] => []
  | [x] => x
  | x :: l' => x ++ sep ++ join sep l'
  end.

(** [str(n)] for a natural number: its decimal digits; [n] divisions by
    10 are more than enough. *)
Fixpoint digits_fuel (fuel n : nat) : str :=
  match fuel with
  | O => []
  | S f => (if n <? 10 then [] else digits_fuel f (n / 10)) ++ [Z.of_nat (48 + n mod 10)]
  end.

Definition py_str_nat (n : nat) : str := digits_fuel (S n) n.

(** [s.split()] with no argument: runs of whitespace separate the words,
    and no word is empty. *)
Fixpoint split_ws_aux (cur : str) (s : str) : list str :=
  match s with
  | [] => match cur with [] => [] | _ => [rev cur] end
  | c :: s' =>
      if is_space c then
        match cur with
        | [] => split_ws_aux [] s'
        | _ => rev cur :: split_ws_aux [] s'
        end
      else split_ws_aux (c :: cur) s'
  end.

Definition split_ws (s : str) : list str := split_ws_aux [] s.

(** [filter(None, l)] on a list of strings: drops the empty ones. *)
Definition filter_nonempty (l : list str) : list str :=
  filter (fun x => match x with [] => false | _ => true end) l.

(** Python's normalisation of a slice bound [i] for a sequence of length
    [n]: a negative bound counts from the end, and bounds are clamped. *)
Definition py_bound (i : Z) (n : nat) : nat :=
  let n' := Z.of_nat n in
  Z.to_nat (if (i <? 0)%Z then Z.max 0 (i + n') else Z.min i n').

(** [s[:i]] and [s[i:]]. *)
Definition slice_to (i : Z) (s : str) : str := firstn (py_bound i (length s)) s.
Definition slice_from (i : Z) (s : str) : str := skipn (py_bound i (length s)) s.

(** [s[i]] for [i >= 0]; [None] is Python's [IndexError]. *)
Definition py_index (s : str) (i : nat) : option char := nth_error s i.

(** [l[-1]] on a list; [None] is Python's [IndexError]. *)
Definition last_error {A} (l : list A) : option A :=
  match rev l with x :: _ => Some x | [] => None end.

(** [s.find(sub, start)]: the index of the first occurrence at or after
    [start], or [-1]. *)
Definition find_from (sub s : str) (start : Z) : Z :=
  let n := Z.of_nat (length s) in
  let st := if (start <? 0)%Z then Z.max 0 (start + n) else start in
  if (n <? st)%Z then (-1)%Z
  else match break_on sub (skipn (Z.to_nat st) s) with
       | Some (a, _) => (st + Z.of_nat (length a))%Z
       | None => (-1)%Z
       end.

Definition find (sub s : str) : Z := find_from sub s 0.

(** ** Lemmas *)

Lemma str_eqb_spec (a b : str) : reflect (a = b) (a ==? b).
Proof. unfold str_eqb. destruct (list_eq_dec Z.eq_dec a b); constructor; auto. Qed.

Lemma str_eqb_refl (a : str) : (a ==? a) = true.
Proof. destruct (str_eqb_spec a a); congruence. Qed.


Lemma is_prefix_spec (p s : str) : is_prefix p s = true <-> exists r, s = p ++ r.
Proof.
  revert s; induction p as [|c p IH]; intros [|d s]; simpl.
  - split; eauto.
  - split; eauto.
  - split; [discriminate | intros [r Hr]; discriminate].
  - rewrite andb_true_iff, Z.eqb_eq, IH. split.
    + intros [-> [r ->]]; eauto.
    + intros [r Hr]; injection Hr as -> ->; eauto.
Qed.

Lemma is_prefix_app (p r : str) : is_prefix p (p ++ r) = true.
Proof. apply is_prefix_spec; eauto. Qed.

Lemma break_on_some (sep s a b : str) :
  break_on sep s = Some (a, b) -> s = a ++ sep ++ b.
Proof.
  revert a b; induction s as [|c s IH]; intros a b H; simpl in H;
    destruct (is_prefix sep _) eqn:P.
  - injection H as <- <-. apply is_prefix_spec in P as [r Hr].
    destruct sep, r; simpl in *; congruence.
  - discriminate.
  - injection H as <- <-. apply is_prefix_spec in P as [r ->].
    rewrite skipn_app_exact. reflexivity.
  - destruct (break_on sep s) as [[a' b']|] eqn:B; [|discriminate].
    injection H as <- <-. rewrite (IH a' b' eq_refl). reflexivity.
Qed.

Lemma break_on_none (sep s : str) :
  break_on sep s = None -> forall a b, s <> a ++ sep ++ b.
Proof.
  induction s as [|c s IH]; intros H a b E; simpl in H;
    destruct (is_prefix sep _) eqn:P; try discriminate.
  - destruct a, sep; simpl in *; try discriminate; simpl in P; discriminate.
  - destruct a as [|c' a]; simpl in E.
    + rewrite E, is_prefix_app in P. discriminate.
    + injection E as -> E. destruct (break_on sep s); [destruct p; discriminate|].
      exact (IH eq_refl a b E).
Qed.

(** The remainder after the first occurrence of a non-empty separator is
    shorter: the counters of [replace] and [split] are enough. *)
Lemma break_on_shorter (sep s a b : str) :
  sep <> [] -> break_on sep s = Some (a, b) -> length b < length s.
Proof.
  intros Hs H. apply break_on_some in H. subst s.
  rewrite !length_app. destruct sep; [congruence|simpl; lia].
Qed.

Lemma contains_spec (sub s : str) :
  contains sub s = true <-> exists a b, s = a ++ sub ++ b.
Proof.
  unfold contains. destruct (break_on sub s) as [[a b]|] eqn:B; split; auto.
  - intros _. apply break_on_some in B. eauto.
  - discriminate.
  - intros [a [b E]]. exfalso. exact (break_on_none _ _ B a b E).
Qed.

Lemma replace_fuel_enough (n : nat) (old new s : str) :
  old <> [] -> length s < n ->
  replace_fuel n old new s = replace_fuel (S (length s)) old new s.
Proof.
  revert n; induction s as [s IH] using (induction_ltof1 _ (@length _));
    intros [|n] Hold Hn; [lia|]. unfold ltof in IH. simpl.
  destruct (break_on old s) as [[a b]|] eqn:B; [|reflexivity].
  pose proof (break_on_shorter _ _ _ _ Hold B).
  rewrite (IH b H n Hold), (IH b H (length s) Hold) by lia. reflexivity.
Qed.

(** [s.replace(old, new)] leaves [s] unchanged when [old] does not occur. *)
Lemma replace_absent (old new s : str) :
  old <> [] -> contains old s = false -> replace old new s = s.
Proof.
  intros Hold Hc. unfold contains in Hc. destruct old as [|o old]; [congruence|].
  unfold replace. simpl. destruct (break_on (o :: old) s) eqn:B.
  - destruct p; discriminate.
  - reflexivity.
Qed.

(** Replacing the first occurrence and continuing on the remainder. *)
Lemma replace_step (old new s a b : str) :
  old <> [] -> break_on old s = Some (a, b) ->
  replace old new s = a ++ new ++ replace old new b.
Proof.
  intros Hold B. destruct old as [|o old']; [congruence|]. unfold replace.
  simpl. rewrite B. f_equal. f_equal. apply replace_fuel_enough; [congruence|].
  pose proof (break_on_shorter _ _ _ _ Hold B). lia.
Qed.

(** Round trip: joining the pieces of a split gives the text back. *)
Lemma join_split_fuel (n : nat) (sep s : str) :
  sep <> [] -> length s < n -> join sep (split_fuel n sep s) = s.
Proof.
  revert s; induction n as [|n IH]; intros s Hsep Hn; [lia|]. simpl.
  destruct (break_on sep s) as [[a b]|] eqn:B; [|reflexivity].
  pose proof (break_on_shorter _ _ _ _ Hsep B).
  rewrite (break_on_some _ _ _ _ B).
  destruct n as [|n]; [lia|]. simpl.
  destruct (break_on sep b) as [[a' b']|] eqn:B'.
  - rewrite <- (IH b Hsep) by lia. simpl. rewrite B'. reflexivity.
  - reflexivity.
Qed.

Lemma join_split (sep s : str) : sep <> [] -> join sep (split sep s) = s.
Proof. intros H. apply join_split_fuel; auto. Qed.

Lemma split_fuel_nonempty (n : nat) (sep s : str) : split_fuel n sep s <> [].
Proof.
  destruct n; simpl; [discriminate|].
  destruct (break_on sep s) as [[a b]|]; discriminate.
Qed.

Lemma lstrip_idem (s : str) : lstrip (lstrip s) = lstrip s.
Proof.
  induction s as [|c s IH]; simpl; [reflexivity|].
  destruct (is_space c) eqn:E; [exact IH|]. simpl. rewrite E. reflexivity.
Qed.

Lemma lstrip_head (s : str) :
  match lstrip s with [] => True | c :: _ => is_space c = false end.
Proof.
  induction s as [|c s IH]; simpl; [exact I|].
  destruct (is_space c) eqn:E; [exact IH | exact E].
Qed.

Lemma lstrip_suffix (s : str) : exists p, s = p ++ lstrip s.
Proof.
  induction s as [|c s [p Hp]]; simpl; [exists []; reflexivity|].
  destruct (is_space c); [exists (c :: p); simpl; congruence | exists []; reflexivity].
Qed.

Lemma rstrip_prefix (s : str) : exists q, s = rstrip s ++ q.
Proof.
  destruct (lstrip_suffix (rev s)) as [p Hp]. exists (rev p). unfold rstrip.
  rewrite <- rev_app_distr, <- Hp, rev_involutive. reflexivity.
Qed.

Lemma lstrip_rstrip_fixed (s : str) :
  lstrip s = s -> lstrip (rstrip s) = rstrip s.
Proof.
  intros H. destruct (rstrip_prefix s) as [q Hq].
  destruct (rstrip s) as [|c r] eqn:R; [reflexivity|]. simpl.
  pose proof (lstrip_head s) as Hh. rewrite H, Hq in Hh. simpl in Hh.
  rewrite Hh. reflexivity.
Qed.

(** [str.strip()] is idempotent. *)
Lemma strip_idem (s : str) : strip (strip s) = strip s.
Proof.
  unfold strip. rewrite lstrip_rstrip_fixed by apply lstrip_idem.
  unfold rstrip. rewrite rev_involutive, lstrip_idem. reflexivity.
Qed.

Lemma join_cons (sep a : str) (l : list str) :
  l <> [] -> join sep (a :: l) = a ++ sep ++ join sep l.
Proof. destruct l; [congruence | reflexivity]. Qed.

Lemma join_snoc (sep y : str) (l : list str) :
  l <> [] -> join sep (l ++ [y]) = join sep l ++ sep ++ y.
Proof.
  induction l as [|a l IH]; intros Hl; [congruence|].
  destruct l as [|b l]; [reflexivity|].
  change ((a :: b :: l) ++ [y]) with (a :: ((b :: l) ++ [y])).
  rewrite (join_cons sep a ((b :: l) ++ [y])) by discriminate.
  rewrite IH by discriminate. rewrite (join_cons sep a (b :: l)) by discriminate.
  rewrite !app_assoc. reflexivity.
Qed.

Lemma map_join (f : char -> char) (sep : str) (l : list str) :
  map f (join sep l) = join (map f sep) (map (map f) l).
Proof.
  induction l as [|a l IH]; [reflexivity|]. destruct l as [|b l]; [reflexivity|].
  rewrite join_cons by discriminate. rewrite !map_app, IH. reflexivity.
Qed.

Lemma join_app (sep : str) (l1 l2 : list str) :
  l1 <> [] -> l2 <> [] -> join sep (l1 ++ l2) = join sep l1 ++ sep ++ join sep l2.
Proof.
  induction l1 as [|a l1 IH]; intros H1 H2; [congruence|].
  destruct l1 as [|b l1].
  - change ([a] ++ l2) with (a :: l2). apply join_cons, H2.
  - change ((a :: b :: l1) ++ l2) with (a :: ((b :: l1) ++ l2)).
    rewrite join_cons by discriminate. rewrite IH by (discriminate || exact H2).
    rewrite (join_cons sep a (b :: l1)) by discriminate. rewrite !app_assoc. reflexivity.
Qed.

(** Joining groups with the separator used inside the groups is joining
    their concatenation, when no group is empty. *)
Lemma join_concat (sep : str) (G : list (list str)) :
  (forall g, In g G -> g <> []) -> join sep (map (join sep) G) = join sep (concat G).
Proof.
  induction G as [|g G IH]; intros Hne; [reflexivity|].
  destruct G as [|g' G].
  - simpl. rewrite app_nil_r. reflexivity.
  - change (map (join sep) (g :: g' :: G)) with (join sep g :: map (join sep) (g' :: G)).
    rewrite join_cons by discriminate. rewrite IH by (intros x Hx; apply Hne; right; exact Hx).
    change (concat (g :: g' :: G)) with (g ++ (g' ++ concat G)).
    rewrite join_app; [reflexivity | apply Hne; left; reflexivity |].
    assert (g' <> []) by (apply Hne; right; left; reflexivity).
    destruct g'; [congruence | discriminate].
Qed.

(** The pieces of a split are pieces of the text. *)
Lemma split_fuel_chars (n : nat) (sep s p : str) (c : char) :
  In p (split_fuel n sep s) -> In c p -> In c s.
Proof.
  revert s; induction n as [|n IH]; intros s Hp Hc; simpl in Hp.
  - destruct Hp as [<-|[]]; exact Hc.
  - destruct (break_on sep s) as [[a b]|] eqn:B.
    + rewrite (break_on_some _ _ _ _ B). destruct Hp as [<-|Hp].
      * apply in_or_app; left; exact Hc.
      * apply in_or_app; right; apply in_or_app; right; exact (IH _ Hp Hc).
    + destruct Hp as [<-|[]]; exact Hc.
Qed.

Lemma split_chars (sep s p : str) (c : char) : In p (split sep s) -> In c p -> In c s.
Proof. apply split_fuel_chars. Qed.

(** [sep.join(s.split(old))] is [s.replace(old, sep)]. *)
Lemma join_split_replace (old new s : str) :
  old <> [] -> join new (split old s) = replace old new s.
Proof.
  intros Hold. unfold split. remember (S (length s)) as n eqn:En.
  assert (Hn : length s < n) by lia. clear En. revert s Hn.
  induction n as [|n IH]; intros s Hn; [lia|]. simpl.
  destruct (break_on old s) as [[a b]|] eqn:B.
  - pose proof (break_on_shorter _ _ _ _ Hold B).
    rewrite (replace_step old new s a b Hold B).
    destruct n as [|n]; [lia|]. simpl split_fuel.
    destruct (break_on old b) as [[a' b']|] eqn:B'.
    + rewrite join_cons by discriminate. f_equal. f_equal.
      rewrite <- (IH b) by lia. simpl. rewrite B'. reflexivity.
    + simpl. rewrite replace_absent; [reflexivity | exact Hold |].
      unfold contains. rewrite B'. reflexivity.
  - rewrite replace_absent; [reflexivity | exact Hold | unfold contains; rewrite B; reflexivity].
Qed.

Lemma lstrip_snoc_space (x : str) (c : char) :
  is_space c = true ->
  lstrip (x ++ [c]) = lstrip x ++ [c] \/ (lstrip (x ++ [c]) = [] /\ lstrip x = []).
Proof.
  intros Hc. induction x as [|a x IH]; simpl.
  - rewrite Hc. right; split; reflexivity.
  - destruct (is_space a); [exact IH | left; reflexivity].
Qed.

Lemma rstrip_snoc_space (l : str) (c : char) : is_space c = true -> rstrip (l ++ [c]) = rstrip l.
Proof. intros Hc. unfold rstrip. rewrite rev_app_distr. simpl. rewrite Hc. reflexivity. Qed.

(** A trailing whitespace character does not change [strip]. *)
Lemma strip_snoc_space (x : str) (c : char) : is_space c = true -> strip (x ++ [c]) = strip x.
Proof.
  intros Hc. unfold strip. destruct (lstrip_snoc_space x c Hc) as [E|[E1 E2]].
  - rewrite E. apply rstrip_snoc_space. exact Hc.
  - rewrite E1, E2. reflexivity.
Qed.

(** Stripping stops at the first character that is not whitespace. *)
Lemma lstrip_app_keep (y z : str) :
  (exists c, In c y /\ is_space c = false) -> lstrip (y ++ z) = lstrip y ++ z.
Proof.
  intros [c [Hc Hs]]. induction y as [|a y IH]; [destruct Hc|]. simpl.
  destruct (is_space a) eqn:Ea; [|reflexivity].
  destruct Hc as [->|Hc]; [congruence | exact (IH Hc)].
Qed.

Lemma rstrip_app_keep (x y : str) :
  (exists c, In c y /\ is_space c = false) -> rstrip (x ++ y) = x ++ rstrip y.
Proof.
  intros [c [Hc Hs]]. unfold rstrip. rewrite rev_app_distr, lstrip_app_keep.
  - rewrite rev_app_distr, rev_involutive. reflexivity.
  - exists c. split; [apply -> in_rev; exact Hc | exact Hs].
Qed.

Lemma not_in_of_existsb (x : char) (l : str) : existsb (Z.eqb x) l = false -> ~ In x l.
Proof.
  intros H Hin. assert (existsb (Z.eqb x) l = true) as E
    by (apply existsb_exists; exists x; split; [exact Hin | apply Z.eqb_refl]).
  congruence.
Qed.

#[export] Hint Resolve is_prefix_app split_fuel_nonempty : subtool.

(** Slicing at a non-negative index is [firstn] / [skipn], also past the end. *)
Lemma slice_to_of_nat (q : nat) (s : str) : slice_to (Z.of_nat q) s = firstn q s.
Proof.
  unfold slice_to, py_bound. replace (Z.of_nat q <? 0)%Z with false by (symmetry; apply Z.ltb_ge; lia).
  destruct (le_lt_dec q (length s)).
  - rewrite Z.min_l, Nat2Z.id by lia. reflexivity.
  - rewrite Z.min_r, Nat2Z.id by lia. rewrite firstn_all, firstn_all2 by lia. reflexivity.
Qed.

Lemma slice_from_of_nat (q : nat) (s : str) : slice_from (Z.of_nat q) s = skipn q s.
Proof.
  unfold slice_from, py_bound. replace (Z.of_nat q <? 0)%Z with false by (symmetry; apply Z.ltb_ge; lia).
  destruct (le_lt_dec q (length s)).
  - rewrite Z.min_l, Nat2Z.id by lia. reflexivity.
  - rewrite Z.min_r, Nat2Z.id by lia. rewrite skipn_all, skipn_all2 by lia. reflexivity.
Qed.
#[export] Hint Rewrite slice_to_of_nat slice_from_of_nat : subtool_rw.

(** [str.split] and [in] over a prefix that cannot hold the separator. *)
Lemma break_on_app_absent (sep x y : str) (c : char) :
  hd_error sep = Some c -> ~ In c x ->
  break_on sep (x ++ y) = match break_on sep y with Some (a, b) => Some (x ++ a, b) | None => None end.
Proof.
  intros Hc; induction x as [|d x IH]; intros Hx.
  - simpl. destruct (break_on sep y) as [[a b]|]; reflexivity.
  - destruct sep as [|c' sep]; [discriminate|]. injection Hc as ->.
    cbn [app break_on is_prefix]. rewrite (proj2 (Z.eqb_neq c d)) by (intros ->; apply Hx; left; reflexivity).
    cbn [andb]. rewrite IH by (intros H; apply Hx; right; exact H).
    destruct (break_on (c :: sep) y) as [[a b]|]; reflexivity.
Qed.

Lemma split_fuel_enough (sep : str) : sep <> [] ->
  forall n m s, length s < n -> length s < m -> split_fuel n sep s = split_fuel m sep s.
Proof.
  intros Hs; induction n as [|n IH]; intros [|m] s Hn Hm; try lia; simpl.
  destruct (break_on sep s) as [[a b]|] eqn:B; [|reflexivity].
  pose proof (break_on_shorter _ _ _ _ Hs B). f_equal. apply IH; lia.
Qed.

Lemma break_on_head (sep y : str) : break_on sep (sep ++ y) = Some ([], y).
Proof.
  destruct sep as [|c sep]; [destruct y; reflexivity|]. simpl.
  rewrite Z.eqb_refl, is_prefix_app. simpl. rewrite skipn_app_exact. reflexivity.
Qed.

Lemma split_app_sep (sep x y : str) (c : char) :
  hd_error sep = Some c -> ~ In c x -> split sep (x ++ sep ++ y) = x :: split sep y.
Proof.
  intros Hc Hx. assert (Hs : sep <> []) by (intros ->; discriminate).
  unfold split at 1. cbn [split_fuel]. rewrite (break_on_app_absent _ _ _ _ Hc Hx).
  rewrite break_on_head, app_nil_r. f_equal.
  unfold split. apply split_fuel_enough; [exact Hs| |lia].
  rewrite !length_app. destruct sep; [congruence|]. simpl. lia.
Qed.

Lemma split_absent (sep y : str) (c : char) :
  hd_error sep = Some c -> ~ In c y -> split sep y = [y].
Proof.
  intros Hc Hy. unfold split. cbn [split_fuel].
  pose proof (break_on_app_absent sep y [] c Hc Hy) as B. rewrite app_nil_r in B. rewrite B.
  destruct sep as [|c' sep]; [discriminate|]. reflexivity.
Qed.

(** [w + c in x + s] is false when the last character [c] of the pattern
    does not occur after the first character of the text. *)
Lemma contains_last_absent (w s : str) (c x : char) :
  w <> [] -> ~ In c s -> contains (w ++ [c]) (x :: s) = false.
Proof.
  intros Hw Hs. destruct (contains (w ++ [c]) (x :: s)) eqn:E; [|reflexivity].
  exfalso. apply contains_spec in E as [p [q Hq]]. apply Hs.
  destruct p as [|y p]; simpl in Hq.
  - destruct w as [|w0 w]; [congruence|]. injection Hq as _ ->.
    apply in_or_app; left; apply in_or_app; right; left; reflexivity.
  - injection Hq as _ ->. apply in_or_app; right; apply in_or_app; left.
    apply in_or_app; right; left; reflexivity.
Qed.

Lemma break_on_cons (sep : str) (c : char) (s : str) :
  break_on sep (c :: s) =
  if is_prefix sep (c :: s) then Some ([], skipn (length sep) (c :: s))
  else match break_on sep s with Some (a, b) => Some (c :: a, b) | None => None end.
Proof. reflexivity. Qed.

Lemma break_on_absent (sep s : str) (c : char) :
  hd_error sep = Some c -> ~ In c s -> break_on sep s = None.
Proof.
  intros Hc Hs. pose proof (break_on_app_absent sep s [] c Hc Hs) as B. rewrite app_nil_r in B.
  rewrite B. destruct sep as [|c' sep]; [discriminate | reflexivity].
Qed.

Lemma replace_absent_char (old new s : str) (c : char) :
  hd_error old = Some c -> ~ In c s -> replace old new s = s.
Proof.
  intros Hc Hs. apply replace_absent; [intros ->; discriminate|].
  unfold contains. rewrite (break_on_absent _ _ _ Hc Hs). reflexivity.
Qed.

(** One occurrence of [old], after a prefix and before a suffix that
    cannot hold its first character, is replaced. *)
Lemma replace_once (old new x y : str) (c : char) :
  hd_error old = Some c -> ~ In c x -> ~ In c y -> replace old new (x ++ old ++ y) = x ++ new ++ y.
Proof.
  intros Hc Hx Hy. rewrite (replace_step old new _ x y).
  - rewrite (replace_absent_char _ _ _ _ Hc Hy). reflexivity.
  - intros ->; discriminate.
  - rewrite (break_on_app_absent _ _ _ _ Hc Hx), break_on_head, app_nil_r. reflexivity.
Qed.

(** [old] does not occur in [x + z] when its first character occurs only
    at the head of [z], where [old] does not start. *)
Lemma contains_skip (old x z : str) (c : char) :
  hd_error old = Some c -> ~ In c x -> ~ In c (tl z) -> is_prefix old z = false ->
  contains old (x ++ z) = false.
Proof.
  intros Hc Hx Hz Hp. unfold contains. rewrite (break_on_app_absent _ _ _ _ Hc Hx).
  destruct z as [|d y].
  - destruct old as [|c' o]; [discriminate | reflexivity].
  - rewrite break_on_cons, Hp, (break_on_absent _ y _ Hc Hz). reflexivity.
Qed.

Lemma break_on_single_absent (c : char) (s a b : str) :
  break_on [c] s = Some (a, b) -> ~ In c a.
Proof.
  revert a b; induction s as [|d s IH]; intros a b H; [discriminate|].
  rewrite break_on_cons in H. cbn [is_prefix] in H.
  destruct (Z.eqb_spec c d) as [->|Hcd]; cbn [andb] in H.
  - injection H as <- _. intros [].
  - destruct (break_on [c] s) as [[a' b']|] eqn:B; [|discriminate].
    injection H as <- <-. intros [->|Hin]; [exact (Hcd eq_refl) | exact (IH _ _ eq_refl Hin)].
Qed.

Lemma split_fuel_count (n : nat) (c : char) (s : str) :
  length s < n -> length (split_fuel n [c] s) = S (count_occ Z.eq_dec s c).
Proof.
  revert s; induction n as [|n IH]; intros s Hs; [lia|]. cbn [split_fuel].
  destruct (break_on [c] s) as [[a b]|] eqn:B.
  - pose proof (break_on_single_absent _ _ _ _ B) as Ha.
    pose proof (break_on_shorter [c] s a b ltac:(discriminate) B) as Hb.
    assert (Hn : length b < n) by lia.
    apply break_on_some in B. subst s. cbn [length]. rewrite (IH b Hn).
    rewrite count_occ_app, (proj1 (count_occ_not_In _ _ _) Ha). cbn [app].
    rewrite count_occ_cons_eq by reflexivity. reflexivity.
  - cbn [length]. f_equal. symmetry. apply count_occ_not_In. intros Hin.
    apply in_split in Hin as [x [y E]]. exact (break_on_none _ _ B x y E).
Qed.

(** [s.split(c)] on a one-character separator has one part more than
    [s] has occurrences of [c]. *)
Lemma split_single_count (c : char) (s : str) :
  length (split [c] s) = S (count_occ Z.eq_dec s c).
Proof. apply split_fuel_count. lia. Qed.

(** A split over a separator that occurs has two parts at least. *)
Lemma split_two (sep a b : str) :
  sep <> [] -> exists t0 t1 r, split sep (a ++ sep ++ b) = t0 :: t1 :: r.
Proof.
  intros Hs. unfold split. cbn [split_fuel].
  destruct (break_on sep (a ++ sep ++ b)) as [[x y]|] eqn:B.
  - destruct (split_fuel (length (a ++ sep ++ b)) sep y) as [|t1 r] eqn:E.
    + exfalso. exact (split_fuel_nonempty _ _ _ E).
    + exists x, t1, r. reflexivity.
  - exfalso. exact (break_on_none _ _ B a b eq_refl).
Qed.

Lemma join_chars (sep : str) (l : list str) (c : char) :
  In c (join sep l) -> In c sep \/ exists p, In p l /\ In c p.
Proof.
  induction l as [|x l IH]; [intros []|]. destruct l as [|y l].
  - intros H. right. exists x. split; [left; reflexivity | exact H].
  - change (join sep (x :: y :: l)) with (x ++ sep ++ join sep (y :: l)).
    intros H. apply in_app_iff in H as [H|H]; [right; exists x; split; [left|]; auto|].
    apply in_app_iff in H as [H|H]; [left; exact H|].
    destruct (IH H) as [Hs|[p [Hp Hc]]]; [left; exact Hs | right; exists p; split; [right|]; auto].
Qed.

(** [s.replace(old, new)] holds only characters of [s] and of [new]. *)
Lemma replace_chars (old new s : str) (c : char) :
  old <> [] -> In c (replace old new s) -> In c s \/ In c new.
Proof.
  intros Hold H. rewrite <- join_split_replace in H by exact Hold.
  destruct (join_chars _ _ _ H) as [Hn|[p [Hp Hc]]]; [right; exact Hn | left; eapply split_chars; eauto].
Qed.
