(* ===== verification/Regex.v ===== *)
(** * The subset of Python's [re] used by [subtitle_tool.py]

    Patterns are syntax trees ([regex]); [matches r p s cs] lists every way
    [r] matches a prefix of the suffix [s] (which starts at absolute
    position [p]) in the priority order of Python's backtracking engine:
    alternatives left first, greedy stars longest first, lazy stars
    shortest first, a sequence trying the second part for each match of the
    first in order.  The first element of the list is the match Python
    returns.  A star iteration must consume a character (Python's engine
    also stops an iteration that matches empty; no pattern of the script
    has a nullable star body).  On top of it, [scan] walks the text the
    way [re.sub], [re.finditer] and [re.findall] do: left to right, a match
    at the current position is taken and the walk resumes at its end.
    Everything is structural: the star iterator is bounded by the length of
    the text, which each iteration shortens ([star_all_enough]). *)

From Stdlib Require Import List ZArith Lia Bool.
Import ListNotations.
From S2P Require Import Prelude PyStr.

Inductive regex : Type :=
| Eps                                      (** the empty pattern *)
| Chr (c : char)                           (** a literal character *)
| Cls (neg : bool) (items : list (char * char))
                                           (** [[...]] / [[^...]], ranges *)
| Dot (dotall : bool)                      (** [.], with or without [re.S] *)
| Bol                                      (** [^] without [re.M] *)
| Eol                                      (** [$] without [re.M] *)
| Seq (r1 r2 : regex)
| Alt (r1 r2 : regex)                      (** [r1|r2] *)
| Star (greedy : bool) (r : regex)         (** [r*] (greedy) / [r*?] (lazy) *)
| Group (n : nat) (r : regex).             (** the capturing group [n] *)

(** Captured groups, the latest capture of a group first. *)
Definition caps := list (nat * str).

(** A match: the end position, the rest of the text, the captures. *)
Definition mres := (nat * str * caps)%type.

Definition in_items (c : char) (items : list (char * char)) : bool :=
  existsb (fun '(lo, hi) => (lo <=? c) && (c <=? hi))%Z items.

Fixpoint star_all (f : nat -> str -> caps -> list mres) (greedy : bool)
    (n : nat) (p : nat) (s : str) (cs : caps) : list mres :=
  match n with
  | O => [(p, s, cs)]
  | S n' =>
      let more :=
        flat_map (fun '(p', s', cs') =>
                    if length s' <? length s then star_all f greedy n' p' s' cs'
                    else []) (f p s cs) in
      if greedy then more ++ [(p, s, cs)] else (p, s, cs) :: more
  end.

Fixpoint matches (r : regex) (p : nat) (s : str) (cs : caps) : list mres :=
  match r with
  | Eps => [(p, s, cs)]
  | Chr x =>
      match s with
      | y :: s' => if (x =? y)%Z then [(S p, s', cs)] else []
      | [] => []
      end
  | Cls neg items =>
      match s with
      | y :: s' => if xorb neg (in_items y items) then [(S p, s', cs)] else []
      | [] => []
      end
  | Dot dotall =>
      match s with
      | y :: s' => if dotall || negb (y =? 10)%Z then [(S p, s', cs)] else []
      | [] => []
      end
  | Bol => if (p =? 0)%nat then [(p, s, cs)] else []
  | Eol =>
      match s with
      | [] => [(p, s, cs)]
      | [y] => if (y =? 10)%Z then [(p, s, cs)] else []
      | _ => []
      end
  | Seq r1 r2 =>
      flat_map (fun '(p', s', cs') => matches r2 p' s' cs') (matches r1 p s cs)
  | Alt r1 r2 => matches r1 p s cs ++ matches r2 p s cs
  | Star g r1 => star_all (matches r1) g (length s) p s cs
  | Group n r1 =>
      map (fun '(p', s', cs') => (p', s', (n, firstn (p' - p) s) :: cs'))
          (matches r1 p s cs)
  end.

(** Whether a pattern can match the empty string (as [has_eps] of a
    Brzozowski development). *)
Fixpoint nullable (r : regex) : bool :=
  match r with
  | Eps | Bol | Eol | Star _ _ => true
  | Chr _ | Cls _ _ | Dot _ => false
  | Seq r1 r2 => nullable r1 && nullable r2
  | Alt r1 r2 => nullable r1 || nullable r2
  | Group _ r1 => nullable r1
  end.

(** ** Pattern combinators, to write the script's patterns as they read *)
Definition lit (w : str) : regex := fold_right (fun c r => Seq (Chr c) r) Eps w.
Definition seqs (l : list regex) : regex := fold_right Seq Eps l.
Definition plus (greedy : bool) (r : regex) : regex := Seq r (Star greedy r).
Definition chars (w : str) : regex := Cls false (map (fun c => (c, c)) w).
(** [[一-鿿]], the CJK unified ideographs of the script's patterns. *)
Definition cjk : regex := Cls false [(19968, 40959)%Z].
Definition is_cjk (c : char) : bool := ((19968 <=? c) && (c <=? 40959))%Z.
(** [[0-9]]. *)
Definition digit : regex := Cls false [(48, 57)%Z].

(** ** Templates of [re.sub]: literal text and group references [\n] *)
Inductive tpart : Type := TLit (w : str) | TGrp (n : nat).
Definition template := list tpart.

Definition group_text (cs : caps) (n : nat) : str :=
  match List.find (fun '(m, _) => Nat.eqb m n) cs with
  | Some (_, t) => t
  | None => []     (* an unmatched group expands to '' *)
  end.

Definition expand (t : template) (cs : caps) : str :=
  flat_map (fun x => match x with TLit w => w | TGrp n => group_text cs n end) t.

(** ** The left-to-right scan of [re.sub] / [re.finditer]

    [PChar c] is a character copied through, [PMatch b e cs] a match from
    [b] to [e] with its captures.  [skip] counts the characters of the
    current match still to pass. *)
Inductive piece : Type :=
| PChar (c : char)
| PMatch (b e : nat) (cs : caps).

Fixpoint scan (r : regex) (skip : nat) (p : nat) (s : str) : list piece :=
  match s with
  | [] =>
      match skip with
      | O => match matches r p [] [] with
             | (e, _, cs) :: _ => [PMatch p e cs]
             | [] => []
             end
      | S _ => []
      end
  | c :: s' =>
      match skip with
      | S k => scan r k (S p) s'
      | O =>
          match matches r p s [] with
          | (e, _, cs) :: _ =>
              PMatch p e cs ::
                match e - p with
                | O => PChar c :: scan r 0 (S p) s'
                | S k => scan r k (S p) s'
                end
          | [] => PChar c :: scan r 0 (S p) s'
          end
      end
  end.

(** [re.sub(r, t, s)]. *)
Definition sub (r : regex) (t : template) (s : str) : str :=
  flat_map (fun x => match x with PChar c => [c] | PMatch _ _ cs => expand t cs end)
           (scan r 0 0 s).

(** The spans of the matches among the pieces of a scan. *)
Definition spans (l : list piece) : list (nat * nat) :=
  flat_map (fun x => match x with PChar _ => [] | PMatch b e _ => [(b, e)] end) l.

(** [re.finditer(r, s)] as the spans of its matches. *)
Definition finditer (r : regex) (s : str) : list (nat * nat) := spans (scan r 0 0 s).

(** [re.findall(r, s)] for a pattern without groups: the matched texts. *)
Definition findall (r : regex) (s : str) : list str :=
  map (fun '(b, e) => firstn (e - b) (skipn b s)) (finditer r s).

(** [len(re.findall(r, s))]. *)
Definition findall_count (r : regex) (s : str) : nat := length (finditer r s).

(** [re.search(r, s)]: the first match of the scan, with its captures. *)
Fixpoint first_match (l : list piece) : option (nat * nat * caps) :=
  match l with
  | [] => None
  | PChar _ :: l' => first_match l'
  | PMatch b e cs :: _ => Some (b, e, cs)
  end.

Definition search (r : regex) (s : str) : option (nat * nat * caps) :=
  first_match (scan r 0 0 s).

Definition found (r : regex) (s : str) : bool :=
  match search r s with Some _ => true | None => false end.

(** A literal pattern written as a Rocq string literal. *)
Definition L (s : String.string) : regex := lit (u s).
(** A character class written as the string of its members. *)
Definition C (s : String.string) : regex := chars (u s).

(** ** Lemmas on the matcher *)

Lemma matches_seq r1 r2 p s cs :
  matches (Seq r1 r2) p s cs =
  flat_map (fun '(p', s', cs') => matches r2 p' s' cs') (matches r1 p s cs).
Proof. reflexivity. Qed.

(** The star iterator's bound: any bound at least the length of the text
    gives the same list, so the length chosen in [matches] is enough. *)
Lemma star_all_enough f g n m p s cs :
  length s <= n -> length s <= m -> star_all f g n p s cs = star_all f g m p s cs.
Proof.
  revert m p s cs; induction n as [|n IH]; intros [|m] p s cs Hn Hm; auto; simpl.
  - rewrite flat_map_nil_forall; [destruct g; reflexivity|].
    intros [[p' s'] cs'] _. destruct s; simpl in *; [reflexivity | lia].
  - rewrite flat_map_nil_forall; [destruct g; reflexivity|].
    intros [[p' s'] cs'] _. destruct s; simpl in *; [reflexivity | lia].
  - erewrite flat_map_ext_in; [reflexivity|].
    intros [[p' s'] cs'] _. destruct (Nat.ltb_spec (length s') (length s)); [|reflexivity].
    apply IH; lia.
Qed.

(** A match of [p, s] ends at [p'] on the suffix [s'] of [s]. *)
Definition consumed (p : nat) (s : str) (m : mres) : Prop :=
  let '(p', s', _) := m in exists pre, s = pre ++ s' /\ p' = p + length pre.

Lemma consumed_refl p s cs : consumed p s (p, s, cs).
Proof. exists []. simpl. split; [reflexivity | lia]. Qed.

Lemma consumed_trans p s p' s' cs' m :
  consumed p s (p', s', cs') -> consumed p' s' m -> consumed p s m.
Proof.
  destruct m as [[p'' s''] cs'']. intros [a [-> ->]] [b [-> ->]].
  exists (a ++ b). rewrite app_assoc, length_app. split; [reflexivity | lia].
Qed.

Lemma star_all_consumed f g :
  (forall p s cs m, In m (f p s cs) -> consumed p s m) ->
  forall n p s cs m, In m (star_all f g n p s cs) -> consumed p s m.
Proof.
  intros Hf n. induction n as [|n IH]; intros p s cs m Hm; simpl in Hm.
  - destruct Hm as [<-|[]]. apply consumed_refl.
  - assert (Hmore : In m (flat_map (fun '(p', s', cs') =>
              if length s' <? length s then star_all f g n p' s' cs' else [])
              (f p s cs)) -> consumed p s m).
    { intros Hin. apply in_flat_map in Hin as [[[p' s'] cs'] [H1 H2]].
      destruct (length s' <? length s); [|destruct H2].
      eapply consumed_trans; [apply (Hf _ _ _ _ H1) | exact (IH _ _ _ _ H2)]. }
    destruct g; [apply in_app_or in Hm as [Hm|[<-|[]]] | destruct Hm as [<-|Hm]];
      auto using consumed_refl.
Qed.

(** Every match consumes a prefix of the text. *)
Lemma matches_consumed r : forall p s cs m, In m (matches r p s cs) -> consumed p s m.
Proof.
  induction r as [| x | neg items | da | | | r1 IH1 r2 IH2 | r1 IH1 r2 IH2 | g r1 IH | n r1 IH];
    intros p s cs m Hm; simpl in Hm.
  - destruct Hm as [<-|[]]. apply consumed_refl.
  - destruct s as [|y s]; [destruct Hm|]. destruct (x =? y)%Z; [|destruct Hm].
    destruct Hm as [<-|[]]. exists [y]. simpl. split; [reflexivity | lia].
  - destruct s as [|y s]; [destruct Hm|]. destruct (xorb _ _); [|destruct Hm].
    destruct Hm as [<-|[]]. exists [y]. simpl. split; [reflexivity | lia].
  - destruct s as [|y s]; [destruct Hm|]. destruct (_ || _); [|destruct Hm].
    destruct Hm as [<-|[]]. exists [y]. simpl. split; [reflexivity | lia].
  - destruct (p =? 0)%nat; [|destruct Hm]. destruct Hm as [<-|[]]. apply consumed_refl.
  - destruct s as [|y [|z s]]; [| destruct (y =? 10)%Z |]; try destruct Hm as [<-|[]];
      try destruct Hm; apply consumed_refl.
  - apply in_flat_map in Hm as [[[p' s'] cs'] [H1 H2]].
    eapply consumed_trans; [apply (IH1 _ _ _ _ H1) | exact (IH2 _ _ _ _ H2)].
  - apply in_app_or in Hm as [Hm|Hm]; eauto.
  - exact (star_all_consumed _ g IH _ _ _ _ _ Hm).
  - apply in_map_iff in Hm as [[[p' s'] cs'] [<- H]]. exact (IH _ _ _ _ H).
Qed.

Lemma consumed_length p s p' s' cs : consumed p s (p', s', cs) -> length s' <= length s.
Proof. intros [pre [-> _]]. rewrite length_app. lia. Qed.

(** A pattern that cannot match the empty string consumes a character in
    every match: the empty-match branch of [scan] is never taken for it. *)
Lemma nonnullable_consumes r p s cs p' s' cs' :
  nullable r = false -> In (p', s', cs') (matches r p s cs) -> length s' < length s.
Proof.
  revert p s cs p' s' cs'.
  induction r as [| x | neg items | da | | | r1 IH1 r2 IH2 | r1 IH1 r2 IH2 | g r1 IH | n r1 IH];
    intros p s cs p' s' cs' Hn Hm; simpl in Hn, Hm; try discriminate.
  - destruct s as [|y s]; [destruct Hm|]. destruct (x =? y)%Z; [|destruct Hm].
    destruct Hm as [E|[]]. injection E as <- <- <-. simpl; lia.
  - destruct s as [|y s]; [destruct Hm|]. destruct (xorb _ _); [|destruct Hm].
    destruct Hm as [E|[]]. injection E as <- <- <-. simpl; lia.
  - destruct s as [|y s]; [destruct Hm|]. destruct (_ || _); [|destruct Hm].
    destruct Hm as [E|[]]. injection E as <- <- <-. simpl; lia.
  - apply in_flat_map in Hm as [[[p1 s1] cs1] [H1 H2]].
    pose proof (consumed_length _ _ _ _ _ (matches_consumed _ _ _ _ _ H1)).
    pose proof (consumed_length _ _ _ _ _ (matches_consumed _ _ _ _ _ H2)).
    apply andb_false_iff in Hn as [Hn|Hn];
      [specialize (IH1 _ _ _ _ _ _ Hn H1) | specialize (IH2 _ _ _ _ _ _ Hn H2)]; lia.
  - apply orb_false_iff in Hn as [Hn1 Hn2].
    apply in_app_or in Hm as [Hm|Hm]; eauto.
  - apply in_map_iff in Hm as [[[p1 s1] cs1] [E H]]. injection E as <- <- <-. eauto.
Qed.

(** A literal matches exactly when it is a prefix of the text. *)
Lemma matches_lit w p s cs :
  matches (lit w) p s cs =
  if is_prefix w s then [(p + length w, skipn (length w) s, cs)] else [].
Proof.
  revert p s; induction w as [|c w IH]; intros p s; simpl.
  - rewrite Nat.add_0_r. reflexivity.
  - destruct s as [|y s]; [reflexivity|]. destruct (c =? y)%Z; simpl; [|reflexivity].
    rewrite IH, app_nil_r. destruct (is_prefix w s); [|reflexivity].
    rewrite Nat.add_succ_r. reflexivity.
Qed.

(** A star can always match the empty string; a lazy star tries it first. *)
Lemma star_self g r p s cs : In (p, s, cs) (matches (Star g r) p s cs).
Proof.
  simpl. destruct (length s); simpl; [auto|].
  destruct g; [apply in_or_app; right|]; simpl; auto.
Qed.

Lemma lazy_star_first r p s cs :
  exists rest, matches (Star false r) p s cs = (p, s, cs) :: rest.
Proof. simpl. destruct (length s); simpl; eauto. Qed.

(** ** Lemmas on the scan *)

(** Every match the scan reports is Python's match at its position. *)
Lemma scan_pmatch r : forall s k p b e cs,
  In (PMatch b e cs) (scan r k p s) ->
  exists a suf s' rest, s = a ++ suf /\ b = p + length a /\
    matches r b suf [] = (e, s', cs) :: rest.
Proof.
  induction s as [|c s IH]; intros k p b e cs H; simpl in H.
  - destruct k; [|destruct H]. destruct (matches r p [] []) as [|[[e' s'] cs'] rest] eqn:M;
      [destruct H|]. destruct H as [E|[]]. injection E as <- <- <-.
    exists [], [], s', rest. rewrite Nat.add_0_r. auto.
  - assert (Hrec : forall k', In (PMatch b e cs) (scan r k' (S p) s) ->
              exists a suf s' rest, c :: s = a ++ suf /\ b = p + length a /\
                matches r b suf [] = (e, s', cs) :: rest).
    { intros k' Hk. destruct (IH _ _ _ _ _ Hk) as [a [suf [s' [rest [-> [-> M]]]]]].
      exists (c :: a), suf, s', rest. simpl. repeat split; [lia | exact M]. }
    destruct k as [|k]; [|exact (Hrec _ H)].
    destruct (matches r p (c :: s) []) as [|[[e' s'] cs'] rest] eqn:M.
    + destruct H as [E|H]; [discriminate | exact (Hrec _ H)].
    + destruct H as [E|H].
      * injection E as <- <- <-. exists [], (c :: s), s', rest. rewrite Nat.add_0_r. auto.
      * destruct (e' - p); [destruct H as [E|H]; [discriminate|] |]; exact (Hrec _ H).
Qed.

(** If Python's matcher succeeds at some position, the scan reports a
    match (at that position or before it). *)
Lemma scan_finds r : forall a suf p,
  matches r (p + length a) suf [] <> [] ->
  exists b e cs, In (PMatch b e cs) (scan r 0 p (a ++ suf)).
Proof.
  induction a as [|c a IH]; intros suf p H; simpl in *.
  - rewrite Nat.add_0_r in H. destruct suf as [|c suf]; simpl;
      destruct (matches r p _ []) as [|[[e s'] cs] rest]; try congruence; eauto using in_eq.
  - destruct (matches r p (c :: a ++ suf) []) as [|[[e s'] cs] rest] eqn:M.
    + destruct (IH suf (S p)) as [b [e [cs Hin]]]; [rewrite Nat.add_succ_r in H; exact H|].
      exists b, e, cs. right. exact Hin.
    + exists p, e, cs. left. reflexivity.
Qed.

Lemma first_match_none l : first_match l = None -> forall b e cs, ~ In (PMatch b e cs) l.
Proof.
  induction l as [|[c|b' e' cs'] l IH]; simpl; intros H b e cs Hin; auto;
    [destruct Hin as [E|Hin]; [discriminate | exact (IH H _ _ _ Hin)] | discriminate].
Qed.

Lemma first_match_in l b e cs : first_match l = Some (b, e, cs) -> In (PMatch b e cs) l.
Proof.
  induction l as [|[c|b' e' cs'] l IH]; simpl; intros H; [discriminate | auto |].
  injection H as -> -> ->. auto.
Qed.

(** [re.search] succeeds exactly when the matcher succeeds at some
    position of the text. *)
Lemma found_spec r s :
  found r s = true <-> exists a suf, s = a ++ suf /\ matches r (length a) suf [] <> [].
Proof.
  unfold found, search. split.
  - destruct (first_match (scan r 0 0 s)) as [[[b e] cs]|] eqn:F; [|discriminate].
    intros _. apply first_match_in in F.
    destruct (scan_pmatch r _ _ _ _ _ _ F) as [a [suf [s' [rest [-> [-> M]]]]]].
    exists a, suf. split; [reflexivity|]. simpl in M. rewrite M. discriminate.
  - intros [a [suf [-> H]]]. destruct (scan_finds r a suf 0 H) as [b [e [cs Hin]]].
    destruct (first_match (scan r 0 0 (a ++ suf))) eqn:F; [reflexivity|].
    exfalso. exact (first_match_none _ F _ _ _ Hin).
Qed.

(** [re.sub] with a pattern that matches nowhere in the text returns the
    text unchanged. *)
Lemma scan_nomatch r : forall s p,
  (forall a suf, s = a ++ suf -> matches r (p + length a) suf [] = []) ->
  scan r 0 p s = map PChar s.
Proof.
  induction s as [|c s IH]; intros p H; simpl.
  - specialize (H [] [] eq_refl). rewrite Nat.add_0_r in H. rewrite H. reflexivity.
  - pose proof (H [] (c :: s) eq_refl) as H0. rewrite Nat.add_0_r in H0. rewrite H0.
    rewrite IH; [reflexivity|]. intros a suf ->.
    specialize (H (c :: a) suf eq_refl). simpl in H. rewrite Nat.add_succ_r in H. exact H.
Qed.

Lemma sub_nomatch r t s :
  (forall a suf, s = a ++ suf -> matches r (length a) suf [] = []) -> sub r t s = s.
Proof.
  intros H. unfold sub. rewrite (scan_nomatch r s 0 H). clear H.
  induction s as [|c s IH]; simpl; congruence.
Qed.

(** ** Search lemmas for the script's guards *)

(** [re.search(r'.*?W.*?', s)] (as on line 184) succeeds exactly when the
    literal [W] occurs in [s]. *)
Lemma found_lazy_infix w s :
  found (seqs [Star false (Dot false); lit w; Star false (Dot false)]) s = contains w s.
Proof.
  apply eq_iff_eq_true. rewrite found_spec, contains_spec. split.
  - intros [a [suf [-> H]]].
    destruct (matches _ (length a) suf []) as [|m ms] eqn:M; [congruence|].
    assert (Hin : In m (matches (seqs [Star false (Dot false); lit w;
                 Star false (Dot false)]) (length a) suf []))
      by (rewrite M; left; reflexivity).
    cbn [seqs fold_right] in Hin. rewrite matches_seq in Hin. apply in_flat_map in Hin as [[[p1 s1] c1] [H1 H2]].
    rewrite matches_seq in H2. apply in_flat_map in H2 as [[[p2 s2] c2] [H3 _]].
    destruct (matches_consumed _ _ _ _ _ H1) as [pre [-> _]].
    rewrite matches_lit in H3. destruct (is_prefix w s1) eqn:P; [|destruct H3].
    apply is_prefix_spec in P as [r ->]. exists (a ++ pre), r. rewrite !app_assoc. reflexivity.
  - intros [a [b ->]]. exists a, (w ++ b). split; [reflexivity|].
    cbn [seqs fold_right]. rewrite matches_seq.
    eapply flat_map_nonempty; [apply (star_self false (Dot false) _ _ [])|].
    cbv beta iota. rewrite matches_seq, matches_lit, is_prefix_app.
    cbn [flat_map]. rewrite app_nil_r, matches_seq.
    eapply flat_map_nonempty; [apply star_self|]. cbn. discriminate.
Qed.

(** [re.search(r'[一-鿿]+', s)] (line 208) succeeds exactly when [s] has a
    CJK ideograph. *)
Lemma found_cjk s : found (plus true cjk) s = existsb is_cjk s.
Proof.
  apply eq_iff_eq_true. rewrite found_spec, existsb_exists. split.
  - intros [a [[|c suf] [-> H]]]; simpl in H; [congruence|].
    exists c. split; [apply in_or_app; right; left; reflexivity|].
    unfold is_cjk. destruct ((19968 <=? c) && (c <=? 40959))%Z; [reflexivity|]. simpl in H. congruence.
  - intros [c [Hc Hcjk]]. apply in_split in Hc as [a [b ->]].
    exists a, (c :: b). split; [reflexivity|]. simpl. unfold is_cjk in Hcjk.
    rewrite orb_false_r, Hcjk. simpl. rewrite app_nil_r.
    destruct (length b); simpl; [discriminate|]. destruct (flat_map _ _); discriminate.
Qed.

(** Without [re.M], [^] matches only at position 0: a pattern starting
    with [^] is found at most once by [re.findall]. *)
Lemma scan_bol_later r : forall s k p, 0 < p -> spans (scan (Seq Bol r) k p s) = [].
Proof.
  induction s as [|c s IH]; intros k p Hp; simpl.
  - destruct k; [|reflexivity]. destruct p as [|p]; [lia|]. reflexivity.
  - destruct k as [|k]; [|apply IH; lia].
    destruct p as [|p]; [lia|]. simpl. apply IH. lia.
Qed.

Lemma spans_cons x l :
  spans (x :: l) = match x with PChar _ => [] | PMatch b e _ => [(b, e)] end ++ spans l.
Proof. reflexivity. Qed.

Theorem findall_count_bol r s : findall_count (Seq Bol r) s <= 1.
Proof.
  unfold findall_count, finditer. destruct s as [|c s]; cbn [scan].
  - destruct (matches (Seq Bol r) 0 [] []) as [|[[e s'] cs] rest]; simpl; lia.
  - destruct (matches (Seq Bol r) 0 (c :: s) []) as [|[[e s'] cs] rest].
    + rewrite spans_cons, scan_bol_later by lia. simpl. lia.
    + rewrite spans_cons. destruct (e - 0) as [|k];
        [rewrite spans_cons|]; rewrite scan_bol_later by lia; simpl; lia.
Qed.

(** [.*] and [.*?] with [re.S] can stop after any prefix [w] of the text. *)
Lemma star_dot_all g w : forall s p cs,
  In (p + length w, s, cs) (matches (Star g (Dot true)) p (w ++ s) cs).
Proof.
  induction w as [|c w IH]; intros s p cs.
  - rewrite Nat.add_0_r. apply star_self.
  - cbn [matches app length star_all]. cbn [flat_map matches orb].
    rewrite (proj2 (Nat.ltb_lt _ _)) by lia. rewrite app_nil_r.
    assert (Hin : In (p + length (c :: w), s, cs)
                     (star_all (matches (Dot true)) g (length (w ++ s)) (S p) (w ++ s) cs)).
    { replace (p + length (c :: w)) with (S p + length w) by (simpl; lia). apply IH. }
    destruct g; [apply in_or_app; left; exact Hin | right; exact Hin].
Qed.

(** [re.search(W + r'.+?' + V, s, flags=re.S)] succeeds on [W], a
    non-empty text and [V] in a row. *)
Lemma found_mark_dots_mark (w v n rest : str) :
  n <> [] -> found (seqs [lit w; plus false (Dot true); lit v]) (w ++ n ++ v ++ rest) = true.
Proof.
  intros Hn. apply found_spec. exists [], (w ++ n ++ v ++ rest). split; [reflexivity|].
  destruct n as [|c n]; [congruence|]. cbn [seqs fold_right plus length].
  rewrite matches_seq, matches_lit, is_prefix_app, skipn_app_exact. cbn [flat_map].
  rewrite app_nil_r. unfold plus. rewrite matches_seq, matches_seq. cbn [app matches orb flat_map].
  rewrite app_nil_r.
  apply (flat_map_nonempty _ _ (S (0 + length w) + length n, v ++ rest, [])).
  - apply star_dot_all.
  - rewrite matches_lit, is_prefix_app. discriminate.
Qed.

(** A sequence of patterns ending with the literal [V] matches only where
    [V] occurs. *)
Lemma matches_seqs_lit (rs : list regex) (v : str) : forall p s cs m,
  In m (matches (seqs (rs ++ [lit v])) p s cs) -> exists a b, s = a ++ v ++ b.
Proof.
  induction rs as [|r rs IH]; intros p s cs m Hm; cbn [app seqs fold_right] in Hm;
    rewrite matches_seq in Hm.
  - rewrite matches_lit in Hm. destruct (is_prefix v s) eqn:P; [|destruct Hm].
    apply is_prefix_spec in P as [r' ->]. exists [], r'. reflexivity.
  - apply in_flat_map in Hm as [[[p1 s1] cs1] [H1 H2]].
    apply matches_consumed in H1 as [pre [-> _]].
    destruct (IH _ _ _ _ H2) as [a [b ->]]. exists (pre ++ a), b. rewrite <- app_assoc. reflexivity.
Qed.

Lemma found_seqs_lit_contains (rs : list regex) (v s : str) :
  found (seqs (rs ++ [lit v])) s = true -> exists a b, s = a ++ v ++ b.
Proof.
  intros H. apply found_spec in H as [a [suf [-> H]]].
  destruct (matches (seqs (rs ++ [lit v])) (length a) suf []) as [|m ms] eqn:M; [congruence|].
  destruct (matches_seqs_lit rs v (length a) suf [] m) as [x [y ->]]; [rewrite M; left; reflexivity|].
  exists (a ++ x), y. rewrite <- app_assoc. reflexivity.
Qed.
