(* ===== verification/RegexLines.v ===== *)
(** * Patterns that stay inside one line

    The patterns of [convert_ass_content] have no anchor and no atom that
    can consume a newline ([.] without [re.S] stops at ['\n'], the
    classes do not list it).  Such a pattern ([line_local]) matches the
    same way whatever follows the current line, and at any absolute
    position; when it cannot match the empty string either, [re.sub]
    works line by line ([sub_lines]).  The file also holds the step
    lemmas of a star over a one-character atom, and the lemma that lets
    [re.sub] pass over a prefix where no match can start. *)

From Stdlib Require Import List ZArith Lia Bool.
Import ListNotations.
From S2P Require Import Prelude PyStr Regex.

Fixpoint line_local (r : regex) : bool :=
  match r with
  | Eps => true
  | Chr c => negb (c =? 10)%Z
  | Cls neg items => negb neg && negb (in_items 10%Z items)
  | Dot dotall => negb dotall
  | Bol | Eol => false
  | Seq r1 r2 | Alt r1 r2 => line_local r1 && line_local r2
  | Star _ r1 | Group _ r1 => line_local r1
  end.

(** A match moved by [d] positions. *)
Definition shift (d : nat) (m : mres) : mres :=
  let '(p', s', cs') := m in (p' + d, s', cs').

(** A match on a line, continued by the rest [x] of the text. *)
Definition extend (x : str) (m : mres) : mres :=
  let '(p', s', cs') := m in (p', s' ++ x, cs').

Definition shift_piece (d : nat) (x : piece) : piece :=
  match x with PChar c => PChar c | PMatch b e cs => PMatch (b + d) (e + d) cs end.

(** What [re.sub] writes for the pieces of a scan. *)
Definition render (t : template) (l : list piece) : str :=
  flat_map (fun x => match x with PChar c => [c] | PMatch _ _ cs => expand t cs end) l.

(** ** Position independence *)

Lemma map_flat_map {A B C} (f : B -> C) (g : A -> list B) (l : list A) :
  map f (flat_map g l) = flat_map (fun x => map f (g x)) l.
Proof. induction l as [|x l IH]; simpl; [reflexivity|]. rewrite map_app, IH. reflexivity. Qed.

Lemma flat_map_flat_map {A B C} (f : A -> list B) (g : B -> list C) (l : list A) :
  flat_map g (flat_map f l) = flat_map (fun x => flat_map g (f x)) l.
Proof. induction l as [|x l IH]; simpl; [reflexivity|]. rewrite flat_map_app, IH. reflexivity. Qed.

Lemma flat_map_map {A B C} (f : A -> B) (g : B -> list C) (l : list A) :
  flat_map g (map f l) = flat_map (fun x => g (f x)) l.
Proof. induction l as [|x l IH]; simpl; congruence. Qed.

Lemma sub_add_both (a b d : nat) : a + d - (b + d) = a - b.
Proof. lia. Qed.

Lemma star_all_shift f g d :
  (forall p s cs, f (p + d) s cs = map (shift d) (f p s cs)) ->
  forall n p s cs, star_all f g n (p + d) s cs = map (shift d) (star_all f g n p s cs).
Proof.
  intros Hf n; induction n as [|n IH]; intros p s cs; simpl; [reflexivity|].
  assert (M : forall k, (forall p' s' cs', k (p' + d, s', cs') = map (shift d) (k (p', s', cs'))) ->
            flat_map k (f (p + d) s cs) = map (shift d) (flat_map k (f p s cs))).
  { intros k Hk. rewrite Hf, flat_map_map, map_flat_map.
    apply flat_map_ext_in. intros [[p' s'] cs'] _. apply Hk. }
  rewrite M by (intros p' s' cs'; destruct (length s' <? length s); [apply IH | reflexivity]).
  destruct g; [rewrite map_app|]; reflexivity.
Qed.

Lemma matches_shift r d :
  line_local r = true -> forall p s cs, matches r (p + d) s cs = map (shift d) (matches r p s cs).
Proof.
  induction r as [| x | neg items | da | | | r1 IH1 r2 IH2 | r1 IH1 r2 IH2 | g r1 IH | n r1 IH];
    simpl; intros Hl p s cs; try discriminate.
  - reflexivity.
  - destruct s as [|y s]; [reflexivity|]. destruct (x =? y)%Z; reflexivity.
  - destruct s as [|y s]; [reflexivity|]. destruct (xorb _ _); reflexivity.
  - destruct s as [|y s]; [reflexivity|]. destruct (_ || _); reflexivity.
  - apply andb_true_iff in Hl as [H1 H2].
    rewrite IH1 by exact H1. rewrite flat_map_map, map_flat_map.
    apply flat_map_ext_in. intros [[p' s'] cs'] _. apply (IH2 H2).
  - apply andb_true_iff in Hl as [H1 H2]. rewrite IH1, IH2, map_app by assumption. reflexivity.
  - apply star_all_shift. intros; apply IH; exact Hl.
  - rewrite IH by exact Hl. rewrite !map_map. apply map_ext. intros [[p' s'] cs']. simpl.
    rewrite sub_add_both. reflexivity.
Qed.

Lemma scan_shift r d :
  line_local r = true -> forall s k p, scan r k (p + d) s = map (shift_piece d) (scan r k p s).
Proof.
  intros Hl s; induction s as [|c s IH]; intros k p; simpl.
  - destruct k; [|reflexivity]. rewrite (matches_shift r d Hl).
    destruct (matches r p [] []) as [|[[e s'] cs] rest]; reflexivity.
  - change (S (p + d)) with (S p + d).
    destruct k as [|k]; [|apply IH].
    rewrite (matches_shift r d Hl), !IH.
    destruct (matches r p (c :: s) []) as [|[[e s'] cs] rest]; simpl; [reflexivity|].
    rewrite sub_add_both. destruct (e - p); simpl; [reflexivity|].
    change (S (p + d)) with (S p + d). rewrite IH. reflexivity.
Qed.

Lemma render_shift t d l : render t (map (shift_piece d) l) = render t l.
Proof. induction l as [|[c|b e cs] l IH]; simpl; congruence. Qed.

(** ** Independence of what follows the line *)

Section Line.
(** The text after the line: its newline and the lines that follow. *)
Variable rest : str.
Let x : str := 10%Z :: rest.

Lemma star_all_extend f g :
  (forall p l cs, f p (l ++ x) cs = map (extend x) (f p l cs)) ->
  forall n p l cs, star_all f g n p (l ++ x) cs = map (extend x) (star_all f g n p l cs).
Proof.
  intros Hf n; induction n as [|n IH]; intros p l cs; simpl; [reflexivity|].
  set (k := fun '(p', s', cs') =>
              if length s' <? length (l ++ x) then star_all f g n p' s' cs' else []).
  set (k' := fun '(p', s', cs') =>
              if length s' <? length l then star_all f g n p' s' cs' else []).
  assert (M : flat_map k (f p (l ++ x) cs) = map (extend x) (flat_map k' (f p l cs))).
  { rewrite Hf, flat_map_map, map_flat_map.
    apply flat_map_ext_in. intros [[p' s'] cs'] _. unfold k, k'. simpl. rewrite !length_app.
    destruct (Nat.ltb_spec (length s' + length x) (length l + length x));
      destruct (Nat.ltb_spec (length s') (length l)); try lia; [apply IH | reflexivity]. }
  fold k k'. rewrite M. destruct g; [rewrite map_app|]; reflexivity.
Qed.

Lemma matches_extend r :
  line_local r = true -> forall p l cs, matches r p (l ++ x) cs = map (extend x) (matches r p l cs).
Proof.
  induction r as [| y | neg items | da | | | r1 IH1 r2 IH2 | r1 IH1 r2 IH2 | g r1 IH | n r1 IH];
    cbn [matches line_local]; intros Hl p l cs; try discriminate.
  - reflexivity.
  - destruct l as [|z l]; simpl; [|destruct (y =? z)%Z; reflexivity].
    apply negb_true_iff in Hl. rewrite Hl. reflexivity.
  - destruct l as [|z l]; simpl; [|destruct (xorb _ _); reflexivity].
    apply andb_true_iff in Hl as [H1 H2]. apply negb_true_iff in H1, H2. subst neg.
    rewrite H2. reflexivity.
  - destruct l as [|z l]; simpl; [|destruct (_ || _); reflexivity].
    apply negb_true_iff in Hl. subst da. reflexivity.
  - apply andb_true_iff in Hl as [H1 H2].
    rewrite IH1 by exact H1. rewrite flat_map_map, map_flat_map.
    apply flat_map_ext_in. intros [[p' s'] cs'] _. apply (IH2 H2).
  - apply andb_true_iff in Hl as [H1 H2]. rewrite IH1, IH2, map_app by assumption. reflexivity.
  - rewrite (star_all_enough _ g (length l) (length (l ++ x))) by (rewrite ?length_app; lia).
    apply star_all_extend. intros; apply IH; exact Hl.
  - rewrite IH by exact Hl. rewrite !map_map. apply map_ext_in. intros [[p' s'] cs'] Hin. simpl.
    destruct (matches_consumed _ _ _ _ _ Hin) as [pre [-> ->]].
    rewrite Nat.add_comm, Nat.add_sub, <- app_assoc, !firstn_app_exact. reflexivity.
Qed.
End Line.

Section Scan.
Variable r : regex.
Hypothesis r_local : line_local r = true.
Hypothesis r_nonempty : nullable r = false.

Lemma matches_empty_text p cs : matches r p [] cs = [].
Proof.
  destruct (matches r p [] cs) as [|[[p' s'] cs'] ms] eqn:M; [reflexivity|].
  pose proof (nonnullable_consumes r p [] cs p' s' cs' r_nonempty) as H.
  rewrite M in H. specialize (H (or_introl eq_refl)). simpl in H. lia.
Qed.

(** No match starts at a newline. *)
Lemma matches_at_newline p rest cs : matches r p (10%Z :: rest) cs = [].
Proof.
  change (10%Z :: rest) with ([] ++ 10%Z :: rest).
  rewrite (matches_extend rest r r_local), matches_empty_text. reflexivity.
Qed.

Lemma scan_extend rest : forall l k p, k <= length l ->
  scan r k p (l ++ 10%Z :: rest) = scan r k p l ++ PChar 10%Z :: scan r 0 (S (p + length l)) rest.
Proof.
  induction l as [|c l IH]; intros k p Hk; simpl in Hk |- *.
  - destruct k; [|lia]. rewrite matches_at_newline, matches_empty_text, Nat.add_0_r. reflexivity.
  - replace (S (p + S (length l))) with (S (S p + length l)) by lia.
    destruct k as [|k]; [|apply IH; lia].
    change (c :: l ++ 10%Z :: rest) with ((c :: l) ++ 10%Z :: rest).
    rewrite (matches_extend rest r r_local).
    destruct (matches r p (c :: l) []) as [|[[e s'] cs] ms] eqn:M; simpl; [rewrite IH by lia; reflexivity|].
    assert (Hin : In (e, s', cs) (matches r p (c :: l) [])) by (rewrite M; left; reflexivity).
    destruct (matches_consumed _ _ _ _ _ Hin) as [pre [Hpre ->]].
    pose proof (f_equal (@length Z) Hpre) as HL. rewrite length_app in HL. simpl in HL.
    replace (p + length pre - p) with (length pre) by lia.
    destruct (length pre) eqn:E; simpl.
    + rewrite (IH 0 (S p)) by lia. reflexivity.
    + rewrite (IH n (S p)) by lia. reflexivity.
Qed.
End Scan.

(** [re.sub] with a line-local pattern that cannot match the empty string
    rewrites each line on its own. *)
Lemma sub_lines r t l rest :
  line_local r = true -> nullable r = false ->
  sub r t (l ++ 10%Z :: rest) = sub r t l ++ 10%Z :: sub r t rest.
Proof.
  intros Hl Hn. unfold sub.
  rewrite (scan_extend r Hl Hn rest l 0 0) by lia. rewrite flat_map_app. simpl.
  change (S (length l)) with (0 + S (length l)). rewrite (scan_shift r _ Hl).
  fold (render t (map (shift_piece (S (length l))) (scan r 0 0 rest))). rewrite render_shift.
  reflexivity.
Qed.

(** ** Python's match, step by step

    [first r p s cs] is the match [re] returns at [p], if any.  The lemmas
    below follow it through a sequence: a literal character, a class, a
    star over a one-character atom (lazy: the shortest continuation that
    succeeds; greedy: the longest). *)
Definition first (r : regex) (p : nat) (s : str) (cs : caps) : option mres :=
  hd_error (matches r p s cs).

Lemma hd_error_app_some {A} (l1 l2 : list A) (x : A) :
  hd_error l1 = Some x -> hd_error (l1 ++ l2) = Some x.
Proof. destruct l1; simpl; congruence. Qed.

Lemma first_seq_assoc a b k p s cs : first (Seq (Seq a b) k) p s cs = first (Seq a (Seq b k)) p s cs.
Proof.
  unfold first. simpl. rewrite flat_map_flat_map. f_equal.
  apply flat_map_ext_in. intros [[p' s'] cs'] _. reflexivity.
Qed.

Lemma first_seq_eps k p s cs : first (Seq Eps k) p s cs = first k p s cs.
Proof. unfold first. simpl. rewrite app_nil_r. reflexivity. Qed.

Lemma first_chr c k p s cs : first (Seq (Chr c) k) p (c :: s) cs = first k (S p) s cs.
Proof. unfold first. simpl. rewrite Z.eqb_refl. simpl. rewrite app_nil_r. reflexivity. Qed.

Lemma first_cls items y k p s cs :
  in_items y items = true -> first (Seq (Cls false items) k) p (y :: s) cs = first k (S p) s cs.
Proof. intros H. unfold first. simpl. rewrite H. simpl. rewrite app_nil_r. reflexivity. Qed.

(** One iteration of a star over a one-character atom [a]. *)
Lemma star_step g a p y s cs :
  matches a p (y :: s) cs = [(S p, s, cs)] ->
  matches (Star g a) p (y :: s) cs =
  if g then matches (Star g a) (S p) s cs ++ [(p, y :: s, cs)]
  else (p, y :: s, cs) :: matches (Star g a) (S p) s cs.
Proof.
  intros H. cbn [matches length star_all]. rewrite H. cbn [flat_map].
  replace (length s <? S (length s)) with true by (symmetry; apply Nat.ltb_lt; lia).
  rewrite app_nil_r. reflexivity.
Qed.

Lemma star_stop g a p s cs : matches a p s cs = [] -> matches (Star g a) p s cs = [(p, s, cs)].
Proof. intros H. cbn [matches]. destruct (length s); simpl; [reflexivity|]. rewrite H. destruct g; reflexivity. Qed.

Lemma seq_lazy_step a k p y s cs :
  matches a p (y :: s) cs = [(S p, s, cs)] ->
  matches (Seq (Star false a) k) p (y :: s) cs =
  matches k p (y :: s) cs ++ matches (Seq (Star false a) k) (S p) s cs.
Proof. intros H. rewrite !matches_seq, (star_step false a p y s cs H). reflexivity. Qed.

Lemma seq_greedy_step a k p y s cs :
  matches a p (y :: s) cs = [(S p, s, cs)] ->
  matches (Seq (Star true a) k) p (y :: s) cs =
  matches (Seq (Star true a) k) (S p) s cs ++ matches k p (y :: s) cs.
Proof.
  intros H. rewrite !matches_seq, (star_step true a p y s cs H), flat_map_app. simpl.
  rewrite app_nil_r. reflexivity.
Qed.

Lemma seq_star_stop g a k p s cs :
  matches a p s cs = [] -> matches (Seq (Star g a) k) p s cs = matches k p s cs.
Proof. intros H. rewrite matches_seq, (star_stop g a p s cs H). simpl. apply app_nil_r. Qed.

Lemma matches_dot p y s cs : y <> 10%Z -> matches (Dot false) p (y :: s) cs = [(S p, s, cs)].
Proof. intros H. simpl. apply Z.eqb_neq in H. rewrite H. reflexivity. Qed.

(** [.*?] followed by a character [c] that the text [f] before it does
    not contain: the star stops right before the first [c]. *)
Lemma first_lazy_dots_to c k f : forall p s cs m,
  ~ In c f -> ~ In 10%Z f ->
  first k (S (p + length f)) s cs = Some m ->
  first (Seq (Star false (Dot false)) (Seq (Chr c) k)) p (f ++ c :: s) cs = Some m.
Proof.
  induction f as [|y f IH]; intros p s cs m Hc Hn H; simpl.
  - unfold first. rewrite Nat.add_0_r in H.
    destruct (lazy_star_first (Dot false) p (c :: s) cs) as [ms E]. rewrite matches_seq, E.
    cbn [flat_map]. apply hd_error_app_some. fold (first (Seq (Chr c) k) p (c :: s) cs).
    rewrite first_chr. exact H.
  - unfold first. rewrite seq_lazy_step by (apply matches_dot; intros ->; apply Hn; left; reflexivity).
    simpl. replace ((c =? y)%Z) with false by (symmetry; apply Z.eqb_neq; intros ->; apply Hc; left; reflexivity).
    apply IH; [intros F; apply Hc; right; exact F | intros F; apply Hn; right; exact F |].
    simpl in H. rewrite <- Nat.add_succ_r. exact H.
Qed.

(** [[0]+] followed by [,] on a run of zeros: the star takes them all. *)
Lemma first_zeros_to k n : forall p s cs m,
  first k (S (p + S n)) s cs = Some m ->
  first (Seq (Chr 48%Z) (Seq (Star true (Chr 48%Z)) (Seq (Chr 44%Z) k))) p (repeat 48%Z (S n) ++ 44%Z :: s) cs = Some m.
Proof.
  intros p s cs m H. cbn [repeat app]. rewrite first_chr. revert p H.
  induction n as [|n IH]; intros p H; cbn [repeat app].
  - unfold first. rewrite seq_star_stop by reflexivity. fold (first (Seq (Chr 44%Z) k) (S p) (44%Z :: s) cs).
    rewrite first_chr. rewrite Nat.add_1_r in H. exact H.
  - unfold first. rewrite seq_greedy_step by reflexivity. apply hd_error_app_some.
    apply IH. rewrite <- H. f_equal. lia.
Qed.

(** [.+] greedy on the rest of a line: it takes all of it. *)
Lemma first_greedy_dots_all : forall s p cs,
  ~ In 10%Z s -> first (Star true (Dot false)) p s cs = Some (p + length s, [], cs).
Proof.
  induction s as [|y s IH]; intros p cs Hn; unfold first.
  - rewrite star_stop by reflexivity. simpl. rewrite Nat.add_0_r. reflexivity.
  - rewrite star_step by (apply matches_dot; intros ->; apply Hn; left; reflexivity).
    apply hd_error_app_some. replace (p + length (y :: s)) with (S p + length s) by (simpl; lia). apply IH.
    intros F; apply Hn; right; exact F.
Qed.

(** ** [re.sub] over a text where the pattern is known to fail or to
    match the whole of it *)

Lemma matches_nil_nonnullable r p cs : nullable r = false -> matches r p [] cs = [].
Proof.
  intros Hn. destruct (matches r p [] cs) as [|[[p' s'] cs'] ms] eqn:M; [reflexivity|].
  pose proof (nonnullable_consumes r p [] cs p' s' cs' Hn) as H.
  rewrite M in H. specialize (H (or_introl eq_refl)). simpl in H. lia.
Qed.

Lemma sub_nil r t : nullable r = false -> sub r t [] = [].
Proof. intros Hn. unfold sub. simpl. rewrite matches_nil_nonnullable by exact Hn. reflexivity. Qed.

Lemma sub_cons_quiet r t x s :
  line_local r = true -> matches r 0 (x :: s) [] = [] -> sub r t (x :: s) = x :: sub r t s.
Proof.
  intros Hl H. unfold sub. simpl. rewrite H. simpl. f_equal.
  change 1 with (0 + 1). rewrite (scan_shift r 1 Hl).
  fold (render t (map (shift_piece 1) (scan r 0 0 s))). rewrite render_shift. reflexivity.
Qed.

(** A pattern starting with the character [c] passes over a text without
    [c]. *)
Lemma sub_skip_absent c k t f s :
  line_local (Seq (Chr c) k) = true -> ~ In c f ->
  sub (Seq (Chr c) k) t (f ++ s) = f ++ sub (Seq (Chr c) k) t s.
Proof.
  intros Hl. induction f as [|y f IH]; intros Hc; [reflexivity|].
  simpl. rewrite sub_cons_quiet by
    (exact Hl || (simpl; replace ((c =? y)%Z) with false
                   by (symmetry; apply Z.eqb_neq; intros ->; apply Hc; left; reflexivity); reflexivity)).
  rewrite IH by (intros F; apply Hc; right; exact F). reflexivity.
Qed.

Lemma sub_absent c k t f :
  line_local (Seq (Chr c) k) = true -> ~ In c f -> sub (Seq (Chr c) k) t f = f.
Proof.
  intros Hl Hc. rewrite <- (app_nil_r f), (sub_skip_absent c k t f [] Hl Hc), sub_nil by reflexivity.
  reflexivity.
Qed.

Lemma scan_skip r : forall w k p s, k = length w -> scan r k p (w ++ s) = scan r 0 (p + k) s.
Proof.
  induction w as [|y w IH]; intros k p s ->; simpl; [rewrite Nat.add_0_r; reflexivity|].
  rewrite (IH (length w) (S p) s eq_refl). f_equal. lia.
Qed.

(** When Python's match at the start takes the whole text, [re.sub]
    writes the template once. *)
Lemma sub_whole r t s e cs :
  nullable r = false -> first r 0 s [] = Some (e, [], cs) -> sub r t s = expand t cs.
Proof.
  intros Hn H. unfold first in H.
  destruct (matches r 0 s []) as [|m ms] eqn:M; [discriminate|]. injection H as ->.
  assert (Hin : In (e, [], cs) (matches r 0 s [])) by (rewrite M; left; reflexivity).
  destruct (matches_consumed _ _ _ _ _ Hin) as [pre [Hs ->]]. rewrite app_nil_r in Hs. subst s.
  destruct pre as [|y w].
  - pose proof (nonnullable_consumes r 0 [] [] 0 [] cs Hn Hin). simpl in *. lia.
  - unfold sub. simpl. rewrite M. simpl.
    rewrite <- (app_nil_r w) at 2. rewrite (scan_skip r w (length w) 1 [] eq_refl).
    simpl. rewrite matches_nil_nonnullable by exact Hn. simpl. apply app_nil_r.
Qed.

Lemma first_lit w k p s cs : first (Seq (lit w) k) p (w ++ s) cs = first k (p + length w) s cs.
Proof.
  unfold first. rewrite matches_seq, matches_lit, is_prefix_app, skipn_app_exact.
  simpl. rewrite app_nil_r. reflexivity.
Qed.

Lemma first_seq_eps_r a k p s cs : first (Seq a (Seq Eps k)) p s cs = first (Seq a k) p s cs.
Proof.
  unfold first. rewrite !matches_seq. f_equal. apply flat_map_ext_in.
  intros [[p' s'] cs'] _. simpl. apply app_nil_r.
Qed.

Lemma seq_nil_l a k p s cs : matches a p s cs = [] -> matches (Seq a k) p s cs = [].
Proof. intros H. rewrite matches_seq, H. reflexivity. Qed.

Lemma cls_nil items z s p cs : in_items z items = false -> matches (Cls false items) p (z :: s) cs = [].
Proof. intros H. simpl. rewrite H. reflexivity. Qed.

Lemma chr_nil c z s p cs : c <> z -> matches (Chr c) p (z :: s) cs = [].
Proof. intros H. simpl. apply Z.eqb_neq in H. rewrite H. reflexivity. Qed.

Lemma in_items_chars z w : in_items z (map (fun c => (c, c)) w) = existsb (Z.eqb z) w.
Proof.
  induction w as [|c w IH]; simpl; [reflexivity|]. rewrite IH. f_equal.
  destruct (Z.leb_spec c z), (Z.leb_spec z c), (Z.eqb_spec z c); simpl; try lia; reflexivity.
Qed.

Lemma group_nil n r p s cs : matches r p s cs = [] -> matches (Group n r) p s cs = [].
Proof. intros H. simpl. rewrite H. reflexivity. Qed.

Lemma first_seq_eps_end r p s cs : first (Seq r Eps) p s cs = first r p s cs.
Proof.
  unfold first. rewrite matches_seq. simpl.
  induction (matches r p s cs) as [|[[p' s'] cs'] ms IH]; reflexivity.
Qed.

(** A group around a pattern that takes the whole text captures it. *)
Lemma first_group_whole n r p s cs cs' :
  first r p s cs = Some (p + length s, [], cs') ->
  first (Group n r) p s cs = Some (p + length s, [], (n, s) :: cs').
Proof.
  unfold first. simpl. destruct (matches r p s cs) as [|m ms]; simpl; [discriminate|].
  intros E. injection E as ->. rewrite Nat.add_comm, Nat.add_sub, firstn_all. reflexivity.
Qed.

(** [.+] greedy on a non-empty rest of a line takes all of it. *)
Lemma first_plus_dots_all y s p cs :
  ~ In 10%Z (y :: s) -> first (plus true (Dot false)) p (y :: s) cs = Some (p + length (y :: s), [], cs).
Proof.
  intros Hn. unfold plus, first. rewrite matches_seq, matches_dot by (intros ->; apply Hn; left; reflexivity).
  cbn [flat_map]. rewrite app_nil_r. fold (first (Star true (Dot false)) (S p) s cs).
  rewrite first_greedy_dots_all by (intros F; apply Hn; right; exact F). cbn [length]. do 3 f_equal. lia.
Qed.
