(* ===== verification/Width.v ===== *)
(** * Display width: [get_line_width] (lines 35-53)

    The script measures a line by walking its NFC normal form: a wide or
    full-width character ([east_asian_width] W or F) counts 2, a
    non-spacing combining character ([combining] non-zero) counts 0, any
    other character counts 1.  The Unicode database is a library the
    script only calls, so it is an interface [UnicodeDB] here; the
    theorems hold for every instance.  [ucd_sample] is an instance with the
    ranges the examples of the development use. *)

From Stdlib Require Import List ZArith Lia Bool.
Import ListNotations.
From S2P Require Import Prelude PyStr Regex.

(** The values of [unicodedata.east_asian_width]. *)
Inductive eaw : Type := EA_W | EA_F | EA_Na | EA_H | EA_A | EA_N.

Class UnicodeDB : Type := {
  nfc : str -> str;                  (** [unicodedata.normalize('NFC', _)] *)
  east_asian_width : char -> eaw;    (** [unicodedata.east_asian_width] *)
  combining : char -> Z              (** [unicodedata.combining] *)
}.

(** A sample instance: NFC is the identity on the texts of the examples,
    CJK ideographs, CJK punctuation and full-width forms are wide, the
    combining diacritics U+0300..U+036F have class 230. *)
Definition in_range (lo hi c : Z) : bool := ((lo <=? c) && (c <=? hi))%Z.

#[export] Instance ucd_sample : UnicodeDB := {
  nfc := fun s => s;
  east_asian_width := fun c =>
    if is_cjk c || in_range 12288 12543 c then EA_W
    else if in_range 65281 65376 c then EA_F
    else if in_range 32 126 c then EA_Na
    else EA_N;
  combining := fun c => if in_range 768 879 c then 230%Z else 0%Z
}.

Section Width.
Context `{UnicodeDB}.

(** The contribution of one character, the body of the loop. *)
Definition char_width (c : char) : nat :=
  match east_asian_width c with
  | EA_W | EA_F => 2
  | _ => if (combining c =? 0)%Z then 1 else 0
  end.

Definition get_line_width (line : str) : nat :=
  fold_left (fun width c => width + char_width c) (nfc line) 0.

Lemma char_width_le_2 c : char_width c <= 2.
Proof. unfold char_width. destruct (east_asian_width c); try lia; destruct (_ =? _)%Z; lia. Qed.

Lemma fold_width_shift l n :
  fold_left (fun width c => width + char_width c) l n =
  n + fold_left (fun width c => width + char_width c) l 0.
Proof.
  revert n; induction l as [|c l IH]; intros n; simpl; [lia|].
  rewrite (IH (n + _)), (IH (char_width c)). lia.
Qed.

(** The width is the sum of the characters' contributions. *)
Lemma get_line_width_sum line :
  get_line_width line = list_sum (map char_width (nfc line)).
Proof.
  unfold get_line_width. induction (nfc line) as [|c l IH]; [reflexivity|].
  simpl. rewrite fold_width_shift, IH. lia.
Qed.

End Width.

(** With the sample table (NFC the identity) the width is additive. *)
Lemma width_app (x y : str) : @get_line_width ucd_sample (x ++ y) = get_line_width x + get_line_width y.
Proof. unfold get_line_width. cbn [nfc ucd_sample]. rewrite fold_left_app, fold_width_shift. reflexivity. Qed.

Lemma width_spaces (k : nat) : @get_line_width ucd_sample (repeat 32%Z k) = k.
Proof.
  induction k as [|k IH]; [reflexivity|]. change (repeat 32%Z (S k)) with ([32%Z] ++ repeat 32%Z k).
  rewrite width_app, IH. reflexivity.
Qed.

(** [' '.join(words)] is as wide as its words and one column per space. *)
Lemma width_join_space (l : list str) :
  @get_line_width ucd_sample (join space l) = list_sum (map get_line_width l) + (length l - 1).
Proof.
  induction l as [|a l IH]; [reflexivity|]. destruct l as [|b l].
  - simpl. lia.
  - rewrite join_cons by discriminate. rewrite !width_app, IH.
    change (get_line_width space) with 1.
    change (list_sum (map get_line_width (a :: b :: l))) with (get_line_width a + list_sum (map get_line_width (b :: l))).
    change (length (a :: b :: l)) with (S (length (b :: l))). cbn [length]. lia.
Qed.
