(* ===== verification/Reflow.v ===== *)
(** * The reflow engine: [fix_overlength] (lines 471-506)

    [fix_overlength] splits a cue's text on the ['\\N'] markers; a line
    wider than 41 columns (the ['{\\an8}'] tag not counted) is split on
    spaces into chunks, and a greedy pass over the chunk widths collects
    the indices [new_line] before which a line feed goes: the running count
    [count] absorbs a chunk while [count + tmp <= 40] and restarts at the
    chunk's width otherwise.  The line is then rebuilt with a line feed
    before each chunk of [new_line] and a space before the others.  The
    lines are joined with line feeds and the result is stripped.

    The abstract specification is [greedy]: a word wrap that groups the
    words of a line.  [rebuild_refines] shows that the index-list
    implementation produces the line feeds and spaces of that grouping;
    the grouping loses no word, keeps every group within 40 columns of
    word width unless it is a single word, and starts a group only when
    the next word would overflow.  The width bound counts word widths only:
    the separating spaces are not counted, which the spec's bound of 41
    columns per wrapped segment overlooks ([wrap_spec_width_exceeded]). *)

From Stdlib Require Import String.
From Stdlib Require Import List ZArith Lia Bool.
Import ListNotations.
From S2P Require Import Prelude PyStr Regex Width.

Section Reflow.
Context `{UnicodeDB}.

Definition an8 : str := u "{\an8}".
(** ['\\N'], the line-break marker of the pysubs2 text. *)
Definition break_N : str := u "\N".

(** [get_line_width(piece.replace('{\\an8}', ''))] (lines 476 and 481). *)
Definition piece_width (piece : str) : nat := get_line_width (replace an8 [] piece).

(** Lines 483-490: the indices before which a line feed is inserted. *)
Fixpoint break_points (count i : nat) (size : list nat) : list nat :=
  match size with
  | [] => []
  | tmp :: rest =>
      if count + tmp <=? 40 then break_points (count + tmp) (S i) rest
      else i :: break_points tmp (S i) rest
  end.

(** Lines 492-500: the line rebuilt from its chunks. *)
Fixpoint rebuild (new_line : list nat) (x : nat) (chunks : list str) (acc : str) : str :=
  match chunks with
  | [] => acc
  | piece :: rest =>
      rebuild new_line (S x) rest
        (if existsb (Nat.eqb x) new_line then acc ++ newline ++ piece
         else if (x =? 0)%nat then acc ++ piece
         else acc ++ space ++ piece)
  end.

(** Lines 476-504: one line of the cue. *)
Definition wrap_line (single_line : str) : str :=
  if 41 <? piece_width single_line then
    let chunks := split space single_line in
    let size := map piece_width chunks in
    rebuild (break_points 0 0 size) 0 chunks []
  else single_line.

(** Lines 471-506. *)
Definition fix_overlength (text : str) : str :=
  strip (fold_left (fun acc single_line => acc ++ wrap_line single_line ++ newline)
                   (split break_N text) []).

End Reflow.

(** ['\n'] back to [' ']: undoes the line feeds the wrap inserted. *)
Definition nl_to_space (s : str) : str := map (fun c => if (c =? 10)%Z then 32%Z else c) s.

Definition ni : str := u "你".


(** ** The specification: greedy grouping of words *)
Section Greedy.
Variable w : str -> nat.

Fixpoint greedy (count : nat) (cur : list str) (words : list str) : list (list str) :=
  match words with
  | [] => [rev cur]
  | x :: rest =>
      if count + w x <=? 40 then greedy (count + w x) (x :: cur) rest
      else rev cur :: greedy (w x) [x] rest
  end.

Definition group_width (g : list str) : nat := list_sum (map w g).

End Greedy.

Section GreedyProps.
Variable w : str -> nat.

Lemma greedy_nonempty count cur words : greedy w count cur words <> [].
Proof.
  revert count cur; induction words as [|x rest IH]; intros count cur; simpl;
    [discriminate|]. destruct (_ <=? _); [apply IH | discriminate].
Qed.

Lemma greedy_concat count cur words :
  concat (greedy w count cur words) = rev cur ++ words.
Proof.
  revert count cur; induction words as [|x rest IH]; intros count cur; simpl;
    [rewrite app_nil_r; reflexivity|].
  destruct (_ <=? _); simpl; rewrite IH; simpl; [rewrite <- app_assoc|]; reflexivity.
Qed.


Lemma greedy_first count cur words :
  exists g rest, greedy w count cur words = (rev cur ++ g) :: rest.
Proof.
  revert count cur; induction words as [|x rest IH]; intros count cur; simpl.
  - exists [], []. rewrite app_nil_r. reflexivity.
  - destruct (_ <=? _).
    + destruct (IH (count + w x) (x :: cur)) as [g [r E]]. rewrite E.
      exists (x :: g), r. simpl. rewrite <- app_assoc. reflexivity.
    + exists [], (greedy w (w x) [x] rest). rewrite app_nil_r. reflexivity.
Qed.

(** Words that fit, with the running count, in 40 columns all join the
    current group. *)
Lemma greedy_prefix count cur ws rest :
  count + list_sum (map w ws) <= 40 ->
  exists g G, greedy w count cur (ws ++ rest) = (rev cur ++ ws ++ g) :: G.
Proof.
  revert count cur; induction ws as [|x ws IH]; intros count cur Hw.
  - destruct (greedy_first count cur rest) as [g [G E]]. exists g, G. exact E.
  - change (list_sum (map w (x :: ws))) with (w x + list_sum (map w ws)) in Hw.
    cbn [app greedy]. rewrite (proj2 (Nat.leb_le _ _)) by lia.
    destruct (IH (count + w x) (x :: cur)) as [g [G E]]; [lia|]. rewrite E.
    exists g, G. simpl. rewrite <- app_assoc. reflexivity.
Qed.

(** Every group fits in 40 columns of word width, unless it is a single
    word (a word wider than 40 columns is put alone on its line). *)
Lemma greedy_bound count cur words :
  group_width w (rev cur) = count -> count <= 40 \/ length cur = 1 ->
  forall g, In g (greedy w count cur words) -> group_width w g <= 40 \/ length g = 1.
Proof.
  revert count cur; induction words as [|x rest IH]; intros count cur Hc Hb g Hg; simpl in Hg.
  - destruct Hg as [<-|[]]. rewrite length_rev. lia.
  - destruct (Nat.leb_spec (count + w x) 40).
    + apply (IH (count + w x) (x :: cur)); auto.
      unfold group_width in *. simpl. rewrite map_app, list_sum_app. simpl. lia.
    + destruct Hg as [<-|Hg].
      * rewrite length_rev. lia.
      * apply (IH (w x) [x]); [unfold group_width; simpl; lia | right; reflexivity | exact Hg].
Qed.

(** A group ends only when the next word would overflow it. *)
Lemma greedy_maximal count cur words :
  group_width w (rev cur) = count ->
  forall pre g1 g2 post, greedy w count cur words = pre ++ g1 :: g2 :: post ->
  exists y g2', g2 = y :: g2' /\ 40 < group_width w g1 + w y.
Proof.
  revert count cur; induction words as [|x rest IH]; intros count cur Hc pre g1 g2 post E;
    simpl in E.
  - destruct pre as [|p [|p' pre]]; simpl in E; discriminate.
  - destruct (Nat.leb_spec (count + w x) 40).
    + apply (IH (count + w x) (x :: cur)) with pre post; auto.
      unfold group_width in *. simpl. rewrite map_app, list_sum_app. simpl. lia.
    + destruct pre as [|p pre]; simpl in E; injection E as E1 E2.
      * destruct (greedy_first (w x) [x] rest) as [g [r Eg]].
        rewrite Eg in E2. injection E2 as <- _. exists x, g. split; [reflexivity|].
        subst g1. lia.
      * apply (IH (w x) [x]) with pre post; auto; unfold group_width; simpl; lia.
Qed.

(** The words of the line, in order, none lost and none split. *)
Lemma greedy_words words : concat (greedy w 0 [] words) = words.
Proof. apply greedy_concat. Qed.

Lemma existsb_eqb_In x l : existsb (Nat.eqb x) l = true <-> In x l.
Proof.
  rewrite existsb_exists. split.
  - intros [y [Hy E]]. apply Nat.eqb_eq in E. subst. exact Hy.
  - intros Hx. exists x. split; [exact Hx | apply Nat.eqb_refl].
Qed.

Lemma break_points_ge count i l j : In j (break_points count i l) -> i <= j.
Proof.
  revert count i; induction l as [|t l IH]; intros count i Hj; simpl in Hj; [destruct Hj|].
  destruct (count + t <=? 40); [apply IH in Hj; lia|].
  destruct Hj as [<-|Hj]; [lia | apply IH in Hj; lia].
Qed.

Lemma break_points_cons count i t l j :
  i <> j ->
  (In j (break_points count i (t :: l)) <->
   In j (break_points (if count + t <=? 40 then count + t else t) (S i) l)).
Proof.
  intros Hij. simpl. destruct (count + t <=? 40); [reflexivity|].
  simpl. split; [intros [E|H]; [congruence | exact H] | auto].
Qed.

Lemma rebuild_greedy nl x count cur chunks P :
  cur <> [] -> 0 < x ->
  (forall j, x <= j -> (In j nl <-> In j (break_points count x (map w chunks)))) ->
  rebuild nl x chunks (P ++ join space (rev cur)) =
  P ++ join newline (map (join space) (greedy w count cur chunks)).
Proof.
  revert x count cur P; induction chunks as [|y rest IH]; intros x count cur P Hcur Hx Hnl;
    [reflexivity|].
  assert (Hmem : existsb (Nat.eqb x) nl = negb (count + w y <=? 40)).
  { apply eq_iff_eq_true. rewrite existsb_eqb_In, (Hnl x (le_n x)). simpl.
    destruct (count + w y <=? 40); simpl.
    - split; [intros Hin; apply break_points_ge in Hin; lia | discriminate].
    - split; [reflexivity | left; reflexivity]. }
  assert (Hrest : forall j, S x <= j ->
    (In j nl <-> In j (break_points (if count + w y <=? 40 then count + w y else w y)
                                    (S x) (map w rest)))).
  { intros j Hj. rewrite Hnl by lia. apply (break_points_cons count x (w y)). lia. }
  cbn [rebuild greedy map]. rewrite Hmem.
  replace (x =? 0)%nat with false by (symmetry; apply Nat.eqb_neq; lia).
  destruct (Nat.leb_spec (count + w y) 40); cbn [negb map].
  - rewrite <- app_assoc, <- join_snoc by (apply rev_nonempty; exact Hcur).
    exact (IH (S x) (count + w y) (y :: cur) P ltac:(discriminate) ltac:(lia) Hrest).
  - rewrite join_cons by (apply map_nonempty, greedy_nonempty).
    specialize (IH (S x) (w y) [y] (P ++ join space (rev cur) ++ newline)
                ltac:(discriminate) ltac:(lia) Hrest).
    rewrite <- !app_assoc in IH. rewrite <- !app_assoc. exact IH.
Qed.

Lemma rebuild_top chunks :
  rebuild (break_points 0 0 (map w chunks)) 0 chunks [] =
  join newline (map (join space) (greedy w 0 [] chunks)).
Proof.
  destruct chunks as [|c rest]; [reflexivity|].
  set (nl := break_points 0 0 (map w (c :: rest))).
  assert (Hrest : forall j, 1 <= j ->
    (In j nl <-> In j (break_points (if 0 + w c <=? 40 then 0 + w c else w c) 1 (map w rest)))).
  { intros j Hj. apply (break_points_cons 0 0 (w c)). lia. }
  replace (if 0 + w c <=? 40 then 0 + w c else w c) with (w c) in Hrest
    by (destruct (_ <=? _); reflexivity).
  assert (Hmem : existsb (Nat.eqb 0) nl = negb (w c <=? 40)).
  { apply eq_iff_eq_true. rewrite existsb_eqb_In. unfold nl. simpl.
    destruct (w c <=? 40); simpl.
    - split; [intros Hin; apply break_points_ge in Hin; lia | discriminate].
    - split; [reflexivity | left; reflexivity]. }
  cbn [rebuild greedy]. rewrite Hmem. cbn [negb Nat.eqb Nat.add app].
  destruct (w c <=? 40); cbn [negb map].
  - exact (rebuild_greedy nl 1 (w c) [c] rest [] ltac:(discriminate) ltac:(lia) Hrest).
  - rewrite join_cons by (apply map_nonempty, greedy_nonempty).
    exact (rebuild_greedy nl 1 (w c) [c] rest newline ltac:(discriminate) ltac:(lia) Hrest).
Qed.

(** C2. Refinement: the index list of lines 483-490 and the rebuilding loop of
    lines 492-500 put a line feed exactly between the groups of the greedy
    wrap, and a space between the words of a group. *)
Theorem rebuild_refines chunks :
  rebuild (break_points 0 0 (map w chunks)) 0 chunks [] =
  join newline (map (join space) (greedy w 0 [] chunks)).
Proof. apply rebuild_top. Qed.

End GreedyProps.

Lemma greedy_groups_nonempty (w : str -> nat) count cur words :
  cur <> [] -> forall g, In g (greedy w count cur words) -> g <> [].
Proof.
  revert count cur; induction words as [|x rest IH]; intros count cur Hc g Hg; simpl in Hg.
  - destruct Hg as [<-|[]]. apply rev_nonempty, Hc.
  - destruct (count + w x <=? 40).
    + apply (IH _ (x :: cur)) in Hg; [exact Hg | discriminate].
    + destruct Hg as [<-|Hg]; [apply rev_nonempty, Hc|].
      apply (IH _ [x]) in Hg; [exact Hg | discriminate].
Qed.

Lemma fold_snoc_concat (f : str -> str) (sep : str) (L : list str) (acc : str) :
  fold_left (fun acc l => acc ++ f l ++ sep) L acc = acc ++ concat (map (fun l => f l ++ sep) L).
Proof.
  revert acc; induction L as [|l L IH]; intros acc; simpl; [rewrite app_nil_r; reflexivity|].
  rewrite IH, !app_assoc. reflexivity.
Qed.

Lemma concat_snoc_join (sep : str) (L : list str) :
  L <> [] -> concat (map (fun l => l ++ sep) L) = join sep L ++ sep.
Proof.
  induction L as [|a L IH]; intros HL; [congruence|]. destruct L as [|b L].
  - simpl. rewrite app_nil_r. reflexivity.
  - change (concat (map (fun l => l ++ sep) (a :: b :: L)))
      with ((a ++ sep) ++ concat (map (fun l => l ++ sep) (b :: L))).
    rewrite IH by discriminate. rewrite (join_cons sep a (b :: L)) by discriminate. rewrite !app_assoc. reflexivity.
Qed.

Lemma nl_to_space_id (s : str) : ~ In 10%Z s -> nl_to_space s = s.
Proof.
  intros H. unfold nl_to_space. rewrite <- (map_id s) at 2. apply map_ext_in.
  intros c Hc. destruct (Z.eqb_spec c 10); [subst; contradiction | reflexivity].
Qed.

Section ReflowProps.
Context `{UnicodeDB}.

Lemma wrap_line_long line :
  41 < piece_width line ->
  wrap_line line = join newline (map (join space) (greedy piece_width 0 [] (split space line))).
Proof.
  intros Hw. unfold wrap_line. rewrite (proj2 (Nat.ltb_lt _ _) Hw). apply rebuild_top.
Qed.

(** Round trip: when the line has no line feed of its own and its first
    word fits in 40 columns, turning the inserted line feeds back into
    spaces gives the line back: the wrap only replaces spaces by line
    feeds, never splits or drops a word. *)
Theorem wrap_line_unwrap line :
  ~ In 10%Z line ->
  (forall first rest, split space line = first :: rest -> piece_width first <= 40) ->
  nl_to_space (wrap_line line) = line.
Proof.
  intros Hnl Hfirst. destruct (Nat.ltb_spec 41 (piece_width line)) as [Hw|Hw];
    [|unfold wrap_line; rewrite (proj2 (Nat.ltb_ge _ _) Hw); apply nl_to_space_id, Hnl].
  rewrite wrap_line_long by exact Hw.
  assert (Hchunks : forall p c, In p (split space line) -> In c p -> c <> 10%Z)
    by (intros p c Hp Hc E; subst; exact (Hnl (split_chars _ _ _ _ Hp Hc))).
  pose proof (join_split space line ltac:(discriminate)) as Hjs.
  destruct (split space line) as [|c rest] eqn:E; [exfalso; eapply split_fuel_nonempty; exact E|].
  specialize (Hfirst c rest eq_refl).
  cbn [greedy]. change (0 + piece_width c) with (piece_width c).
  rewrite (proj2 (Nat.leb_le _ _) Hfirst).
  unfold nl_to_space. rewrite map_join. fold (nl_to_space newline).
  change (nl_to_space newline) with space.
  rewrite map_map, <- Hjs. change (join space (c :: rest)) with (join space (rev [c] ++ rest)).
  rewrite <- (greedy_concat piece_width (piece_width c) [c] rest).
  rewrite <- join_concat by (apply greedy_groups_nonempty; discriminate).
  f_equal. apply map_ext_in. intros g Hg. apply nl_to_space_id. intros Hin.
  destruct (join_chars _ _ _ Hin) as [Hs|[p [Hp Hc]]]; [destruct Hs as [E'|[]]; discriminate|].
  apply (Hchunks p 10%Z); [|exact Hc|reflexivity].
  change (c :: rest) with (rev [c] ++ rest).
  rewrite <- (greedy_concat piece_width (piece_width c) [c] rest).
  apply in_concat. exists g. auto.
Qed.

(** A text whose lines all fit in 41 columns is only stripped, its
    ['\\N'] markers turned into line feeds. *)
Theorem fix_overlength_short text :
  (forall l, In l (split break_N text) -> piece_width l <= 41) ->
  fix_overlength text = strip (replace break_N newline text).
Proof.
  intros Hshort. unfold fix_overlength. rewrite fold_snoc_concat. simpl.
  rewrite (map_ext_in _ (fun l => l ++ newline)).
  - rewrite concat_snoc_join by apply split_fuel_nonempty.
    rewrite join_split_replace by discriminate. apply strip_snoc_space. reflexivity.
  - intros l Hl. unfold wrap_line. rewrite (proj2 (Nat.ltb_ge _ _) (Hshort l Hl)). reflexivity.
Qed.

(** C3. The code's guarantee for an over-long line: it becomes the groups of
    its words (none lost, none split, in order), one group per output
    line, each group within 40 columns of word width or a single word. *)
Theorem wrap_line_bound line :
  41 < piece_width line ->
  exists G, wrap_line line = join newline (map (join space) G) /\
    concat G = split space line /\
    forall g, In g G -> list_sum (map piece_width g) <= 40 \/ length g = 1.
Proof.
  intros Hw. exists (greedy piece_width 0 [] (split space line)).
  split; [apply wrap_line_long, Hw|]. split; [apply greedy_words|].
  apply greedy_bound; [reflexivity | left; lia].
Qed.

(** A first word wider than 40 columns closes an empty first group. *)
Lemma wrap_line_leading_break line first rest :
  41 < piece_width line -> split space line = first :: rest -> 40 < piece_width first ->
  wrap_line line = newline ++ join newline (map (join space) (greedy piece_width (piece_width first) [first] rest)).
Proof.
  intros Hw Hs Hf. rewrite wrap_line_long, Hs by exact Hw. cbn [greedy]. change (0 + piece_width first) with (piece_width first).
  rewrite (proj2 (Nat.leb_gt _ _) Hf). cbn [rev map app].
  rewrite join_cons by (apply map_nonempty, greedy_nonempty). reflexivity.
Qed.

Lemma join_head (sep a : str) (l : list str) : exists r, join sep (a :: l) = a ++ r.
Proof. destruct l as [|b l]; [exists []; symmetry; apply app_nil_r | exists (sep ++ join sep (b :: l)); reflexivity]. Qed.

Lemma wrap_tail_keeps_first first rest :
  (exists c, In c first /\ is_space c = false) ->
  exists c, In c (join newline (map (join space) (greedy piece_width (piece_width first) [first] rest)) ++ newline)
    /\ is_space c = false.
Proof.
  intros [c [Hc Hsp]]. exists c. split; [|exact Hsp].
  destruct (greedy_first piece_width (piece_width first) [first] rest) as [g [G E]]. rewrite E.
  change (rev [first] ++ g) with (first :: g). cbn [map]. destruct (join_head newline (join space (first :: g)) (map (join space) G)) as [r1 ->].
  apply in_or_app. left. apply in_or_app. left.
  destruct g as [|g0 g]; [exact Hc | apply in_or_app; left; exact Hc].
Qed.

(** C12. A line whose first word is wider than 40 columns (the code's
    count) gets a line feed before that word, so after an earlier line of
    the cue the output has an empty line: for any short first line [prev]
    that starts with a non-space character and any such second line. *)
Theorem fix_overlength_blank_line c0 p line first rest :
  is_space c0 = false -> ~ In 92%Z (c0 :: p) -> ~ In 92%Z line ->
  piece_width (c0 :: p) <= 41 -> 41 < piece_width line ->
  split space line = first :: rest -> 40 < piece_width first ->
  (exists c, In c first /\ is_space c = false) ->
  exists t, fix_overlength ((c0 :: p) ++ break_N ++ line) = (c0 :: p) ++ newline ++ newline ++ t.
Proof.
  intros H0 Hp Hl Hpw Hw Hs Hf Hc.
  assert (Hb : hd_error break_N = Some 92%Z) by (vm_compute; reflexivity).
  unfold fix_overlength. rewrite (split_app_sep _ _ _ _ Hb Hp), (split_absent _ _ _ Hb Hl).
  cbn [fold_left]. unfold wrap_line at 1. rewrite (proj2 (Nat.ltb_ge _ _) Hpw).
  rewrite (wrap_line_leading_break line first rest Hw Hs Hf).
  set (t := join newline _). exists (rstrip (t ++ newline)).
  unfold strip. cbn [app lstrip]. rewrite H0.
  replace (c0 :: (p ++ newline) ++ (newline ++ t) ++ newline)
    with (((c0 :: p) ++ newline ++ newline) ++ (t ++ newline))
    by (cbn [app]; rewrite <- !app_assoc; reflexivity).
  rewrite rstrip_app_keep by exact (wrap_tail_keeps_first first rest Hc).
  rewrite <- !app_assoc. reflexivity.
Qed.

End ReflowProps.

(** ** Concrete behaviour, with the sample Unicode table *)

(** C4. When the words at the head of an over-long line fit in 40 columns
    by the code's count (spaces not counted), they all open the first output
    line, which is as wide as their widths plus one column per separating
    space.  The spec (section 8) bounds every wrapped segment by 41
    columns: twenty two-column words already give a 59-column line. *)
Theorem wrap_spec_width_exceeded line ws rest :
  41 < @piece_width ucd_sample line -> split space line = ws ++ rest ->
  list_sum (map piece_width ws) <= 40 ->
  exists g G, wrap_line line = join newline (map (join space) ((ws ++ g) :: G)) /\
    list_sum (map get_line_width ws) + (length ws - 1) <= get_line_width (join space (ws ++ g)).
Proof.
  intros Hw Hs Hb. destruct (greedy_prefix piece_width 0 [] ws rest Hb) as [g [G E]].
  exists g, G. split.
  - rewrite wrap_line_long, Hs, E by exact Hw. reflexivity.
  - rewrite width_join_space, map_app, list_sum_app, length_app. lia.
Qed.

(** ** Witnesses *)

Lemma wrap_line_bound_witness :
  exists G, wrap_line (join space (repeat ni 21)) = join newline (map (join space) G) /\
    concat G = split space (join space (repeat ni 21)) /\
    forall g, In g G -> list_sum (map piece_width g) <= 40 \/ length g = 1.
Proof. apply wrap_line_bound. apply Nat.ltb_lt. vm_compute. reflexivity. Defined.

Lemma wrap_line_unwrap_witness :
  nl_to_space (wrap_line (join space (repeat ni 21))) = join space (repeat ni 21).
Proof.
  apply wrap_line_unwrap.
  - apply not_in_of_existsb. vm_compute. reflexivity.
  - intros first rest E. vm_compute in E. injection E as <- _.
    apply Nat.leb_le. vm_compute. reflexivity.
Defined.

Lemma wrap_spec_width_exceeded_witness :
  exists g G, wrap_line (join space (repeat ni 21)) =
    join newline (map (join space) ((repeat ni 20 ++ g) :: G)) /\
    59 <= get_line_width (join space (repeat ni 20 ++ g)).
Proof.
  destruct (wrap_spec_width_exceeded (join space (repeat ni 21)) (repeat ni 20) [ni]
    ltac:(apply Nat.ltb_lt; vm_compute; reflexivity) ltac:(vm_compute; reflexivity)
    ltac:(apply Nat.leb_le; vm_compute; reflexivity)) as [g [G [E W]]].
  assert (E59 : list_sum (map get_line_width (repeat ni 20)) + (length (repeat ni 20) - 1) = 59)
    by (vm_compute; reflexivity).
  exists g, G. split; [exact E | lia].
Defined.

Lemma fix_overlength_blank_line_witness :
  exists t, fix_overlength (u "ab" ++ break_N ++ concat (repeat ni 21)) = u "ab" ++ newline ++ newline ++ t.
Proof.
  apply (fix_overlength_blank_line 97%Z [98%Z] (concat (repeat ni 21)) (concat (repeat ni 21)) []).
  - reflexivity.
  - apply not_in_of_existsb. reflexivity.
  - apply not_in_of_existsb. vm_compute. reflexivity.
  - apply Nat.leb_le. vm_compute. reflexivity.
  - apply Nat.ltb_lt. vm_compute. reflexivity.
  - vm_compute. reflexivity.
  - apply Nat.ltb_lt. vm_compute. reflexivity.
  - exists 20320%Z. split; [vm_compute; left; reflexivity | reflexivity].
Defined.
