(* ===== verification/Cue.v ===== *)
(** * Cues and tracks: pysubs2's [SSAEvent], the typo record, [SSAFile.sort]

    A cue is pysubs2's [SSAEvent] restricted to what the script reads and
    writes: [start] and [end] in milliseconds and the [text] (with ['\\N']
    line breaks and verbatim override tags).  A track is the list of cues.
    The typo record is the dictionary the normalizer appends (lines
    369-374) and the post-sort loop completes with an [index] (line 447).
    [sort_cues] is pysubs2's [SSAFile.sort] ([self.events.sort()] with
    [SSAEvent.__lt__] comparing [(start, end)]): Python's sort is stable,
    so it is modelled as a stable insertion sort; its theorems are that
    the result is sorted by (start, end) and a permutation of the input. *)

From Stdlib Require Import String.
From Stdlib Require Import List ZArith Lia Bool Sorting.Sorted Sorting.Permutation.
Import ListNotations.
From S2P Require Import Prelude PyStr.

Record cue : Type := mk_cue {
  start : Z;      (** [SSAEvent.start], milliseconds *)
  end_ : Z;       (** [SSAEvent.end], milliseconds *)
  text : str      (** [SSAEvent.text] *)
}.

Definition with_text (c : cue) (t : str) : cue := mk_cue (start c) (end_ c) t.

(** The [typo_compare] dictionary of lines 369-374 and 447. *)
Record typo := mk_typo {
  t_start : Z;
  t_end : Z;
  original_text : str;
  new_text : str;
  t_index : option nat      (** absent until line 447 sets it *)
}.

(** [SSAEvent.__lt__]: [(self.start, self.end) < (other.start, other.end)]. *)
Definition cue_lt (a b : cue) : bool :=
  (start a <? start b)%Z || ((start a =? start b)%Z && (end_ a <? end_ b)%Z).

Definition cue_le (a b : cue) : Prop := cue_lt b a = false.

(** Stable insertion: [x] goes before the first element it is less than. *)
Fixpoint insert_cue (x : cue) (l : list cue) : list cue :=
  match l with
  | [] => [x]
  | y :: l' => if cue_lt x y then x :: l else y :: insert_cue x l'
  end.

Definition sort_cues (l : list cue) : list cue :=
  fold_left (fun acc x => insert_cue x acc) l [].

(** [l[k] = x] for an index in range. *)
Definition list_set {A} (k : nat) (x : A) (l : list A) : list A :=
  firstn k l ++ x :: skipn (S k) l.

(** [del subs[i]]. *)
Definition del_at {A} (i : nat) (l : list A) : result (list A) :=
  if i <? length l then Ok (firstn i l ++ skipn (S i) l) else Err IndexError.

(** Lines 411-412 and 376-377: [for i in reversed(delete_list): del subs[i]]. *)
Definition delete_batch {A} (delete_list : list nat) (subs : list A) : result (list A) :=
  fold_left (fun acc i => bind acc (fun l => del_at i l)) (rev delete_list) (Ok subs).

(** ** The delete lists the two batches receive

    [ascending L]: the normalizer's list, indices appended in increasing
    order (each cue at most once).  [merge_marks T L]: the merger's list
    over the time ranges [T] of the track, built one index after the
    other: nothing, the current index, or the previous one, the last two
    only when the two cues share their time range (duplicates are
    possible). *)
Inductive ascending : list nat -> Prop :=
| asc_nil : ascending []
| asc_snoc L k : ascending L -> (forall d, In d L -> d < k) -> ascending (L ++ [k]).

Inductive merge_marks : list (Z * Z) -> list nat -> Prop :=
| mm_nil : merge_marks [] []
| mm_skip T L t : merge_marks T L -> merge_marks (T ++ [t]) L
| mm_cur T L t : merge_marks T L -> last_error T = Some t -> merge_marks (T ++ [t]) (L ++ [length T])
| mm_prev T L t : merge_marks T L -> last_error T = Some t ->
    merge_marks (T ++ [t]) (L ++ [length T - 1]).

Definition cue_times (c : cue) : Z * Z := (start c, end_ c).

(** [Result.map]. *)
Definition rmap {A B} (f : A -> B) (r : result A) : result B :=
  match r with Ok a => Ok (f a) | Err e => Err e end.

(** ** The sort: sorted and a permutation *)

Lemma cue_lt_le a b : cue_lt a b = true -> cue_le a b.
Proof. unfold cue_le, cue_lt. lia. Qed.

Lemma cue_le_trans a b c : cue_le a b -> cue_le b c -> cue_le a c.
Proof. unfold cue_le, cue_lt. lia. Qed.

Lemma insert_hdrel a x l :
  HdRel cue_le a l -> cue_le a x -> HdRel cue_le a (insert_cue x l).
Proof.
  intros Hl Hx. destruct l as [|y l]; simpl; [constructor; exact Hx|].
  destruct (cue_lt x y); constructor; [exact Hx | inversion Hl; assumption].
Qed.

Lemma insert_sorted x l : Sorted cue_le l -> Sorted cue_le (insert_cue x l).
Proof.
  induction l as [|y l IH]; intros Hs; simpl; [repeat constructor|].
  destruct (cue_lt x y) eqn:E.
  - constructor; [exact Hs | constructor; apply cue_lt_le, E].
  - inversion Hs; subst. constructor; [apply IH; assumption|].
    apply insert_hdrel; [assumption | exact E].
Qed.

Lemma insert_perm x l : Permutation (x :: l) (insert_cue x l).
Proof.
  induction l as [|y l IH]; simpl; [reflexivity|]. destruct (cue_lt x y); [reflexivity|].
  rewrite perm_swap. constructor. exact IH.
Qed.

Lemma sort_fold_sorted l acc :
  Sorted cue_le acc -> Sorted cue_le (fold_left (fun acc x => insert_cue x acc) l acc).
Proof.
  revert acc; induction l as [|x l IH]; intros acc Hs; simpl; [exact Hs|].
  apply IH, insert_sorted, Hs.
Qed.

Lemma sort_fold_perm l acc :
  Permutation (acc ++ l) (fold_left (fun acc x => insert_cue x acc) l acc).
Proof.
  revert acc; induction l as [|x l IH]; intros acc; simpl; [rewrite app_nil_r; reflexivity|].
  rewrite <- IH. rewrite <- insert_perm. apply Permutation_sym, Permutation_middle.
Qed.

(** [subs.sort()] orders the track by (start, end) and keeps its cues. *)
Theorem sort_cues_spec l : Sorted cue_le (sort_cues l) /\ Permutation l (sort_cues l).
Proof. split; [apply sort_fold_sorted; constructor | apply (sort_fold_perm l [])]. Qed.

(** The spec's sort post-condition: start times are non-decreasing. *)
Lemma sorted_starts l :
  Sorted cue_le l -> Sorted (fun a b => (start a <= start b)%Z) l.
Proof.
  intros Hs. induction Hs as [|a l Hs IH Hd]; constructor; [exact IH|].
  destruct Hd; constructor. unfold cue_le, cue_lt in *. lia.
Qed.

(** ** Updating a list by index, one position after the other *)

Lemma nth_error_prefix_state {A} (k : nat) (M l : list A) :
  length M = length l -> k <= length l -> nth_error (firstn k M ++ skipn k l) k = nth_error l k.
Proof.
  intros HM Hk. rewrite nth_error_app2 by (rewrite length_firstn; lia).
  rewrite length_firstn, Nat.min_l by lia. rewrite Nat.sub_diag, nth_error_skipn, Nat.add_0_r.
  reflexivity.
Qed.

Lemma nth_error_prefix_done {A} (k j : nat) (M l : list A) :
  length M = length l -> j < k -> k <= length l -> nth_error (firstn k M ++ skipn k l) j = nth_error M j.
Proof.
  intros HM Hj Hk. rewrite nth_error_app1 by (rewrite length_firstn; lia).
  rewrite nth_error_firstn. destruct (Nat.ltb_spec j k); [reflexivity | lia].
Qed.

Lemma list_set_prefix {A} (k : nat) (M l : list A) (x : A) :
  length M = length l -> nth_error M k = Some x ->
  list_set k x (firstn k M ++ skipn k l) = firstn (S k) M ++ skipn (S k) l.
Proof.
  intros HM Hx. assert (k < length M) by (apply nth_error_Some; congruence).
  unfold list_set. rewrite firstn_app, length_firstn, Nat.min_l, Nat.sub_diag, firstn_O, app_nil_r
    by lia.
  rewrite firstn_firstn, Nat.min_id, skipn_app, length_firstn, Nat.min_l by lia.
  rewrite skipn_all2 by (rewrite length_firstn; lia). rewrite skipn_skipn.
  replace (S k - k + k) with (S k) by lia.
  rewrite (firstn_S_nth_error _ _ _ Hx), <- app_assoc. reflexivity.
Qed.

Lemma length_list_set {A} (k : nat) (x : A) (l : list A) :
  k < length l -> length (list_set k x l) = length l.
Proof.
  intros Hk. unfold list_set. rewrite length_app, length_firstn. cbn [length]. rewrite length_skipn. lia.
Qed.

(** ** The batch deletion *)

Lemma delete_batch_snoc_index {A} (L : list nat) (k : nat) (l : list A) :
  delete_batch (L ++ [k]) l = bind (del_at k l) (delete_batch L).
Proof.
  unfold delete_batch. rewrite rev_app_distr. simpl.
  destruct (del_at k l); [reflexivity|]. induction (rev L); simpl; auto.
Qed.

Lemma delete_batch_map {A B} (f : A -> B) (L : list nat) (l : list A) :
  delete_batch L (map f l) = rmap (map f) (delete_batch L l).
Proof.
  unfold delete_batch. change (Ok (map f l)) with (rmap (map f) (Ok l : result (list A))).
  generalize (Ok l : result (list A)). induction (rev L) as [|i K IH]; intros r; [reflexivity|].
  simpl. rewrite <- IH. f_equal. destruct r as [l'|e]; [|reflexivity]. simpl.
  unfold del_at. rewrite length_map. destruct (i <? length l'); [|reflexivity].
  cbn [rmap]. rewrite firstn_map, skipn_map, map_app. reflexivity.
Qed.

Lemma delete_batch_nil {A} (l : list A) : delete_batch [] l = Ok l.
Proof. reflexivity. Qed.

Lemma bind_ok {A B} (r : result A) (k : A -> result B) (b : B) :
  bind r k = Ok b -> exists a, r = Ok a /\ k a = Ok b.
Proof. destruct r as [a|e]; simpl; [eauto | discriminate]. Qed.

Lemma del_at_app_right {A} (i : nat) (l m : list A) (t : A) :
  del_at i l = Ok m -> del_at i (l ++ [t]) = Ok (m ++ [t]).
Proof.
  unfold del_at. destruct (Nat.ltb_spec i (length l)); [|discriminate]. intros E. injection E as <-.
  rewrite length_app, (proj2 (Nat.ltb_lt _ _)) by lia.
  rewrite firstn_app, skipn_app. replace (i - length l) with 0 by lia.
  replace (S i - length l) with 0 by lia. rewrite firstn_O, skipn_O, app_nil_r, <- app_assoc. reflexivity.
Qed.

Lemma delete_batch_app_right {A} (L : list nat) : forall (l l' : list A) (t : A),
  delete_batch L l = Ok l' -> delete_batch L (l ++ [t]) = Ok (l' ++ [t]).
Proof.
  induction L as [|k L IH] using rev_ind; intros l l' t E.
  - injection E as <-. reflexivity.
  - rewrite delete_batch_snoc_index in *. apply bind_ok in E as [m [Em E]].
    rewrite (del_at_app_right _ _ _ _ Em). simpl. apply IH, E.
Qed.

(** Deleting the last index, or the one before when both hold the same
    value, leaves the list before the last element. *)
Lemma del_at_last {A} (l : list A) (t : A) : del_at (length l) (l ++ [t]) = Ok l.
Proof.
  unfold del_at. rewrite length_app, (proj2 (Nat.ltb_lt _ _)) by (simpl; lia).
  rewrite firstn_app_exact, skipn_all2 by (rewrite length_app; simpl; lia).
  rewrite app_nil_r. reflexivity.
Qed.

Lemma del_at_before_last {A} (l : list A) (t : A) :
  last_error l = Some t -> del_at (length l - 1) (l ++ [t]) = Ok l.
Proof.
  unfold last_error. intros H. destruct (rev l) as [|x r] eqn:R; [discriminate|]. injection H as ->.
  assert (E : l = rev r ++ [t]) by (rewrite <- (rev_involutive l), R; reflexivity).
  rewrite E. set (l0 := rev r). unfold del_at.
  rewrite !length_app. cbn [length]. replace (length l0 + 1 - 1) with (length l0) by lia.
  rewrite (proj2 (Nat.ltb_lt _ _)) by lia. rewrite <- app_assoc.
  rewrite firstn_app_exact, skipn_app, skipn_all2 by lia.
  replace (S (length l0) - length l0) with 1 by lia. reflexivity.
Qed.

(** The merger's marks delete one cue of each pair they name and never
    a whole time range: every range of the track is still present. *)
Lemma merge_marks_keep (T : list (Z * Z)) (L : list nat) :
  merge_marks T L -> exists T', delete_batch L T = Ok T' /\ forall x, In x T -> In x T'.
Proof.
  induction 1 as [| T L t _ [T' [E H]] | T L t _ [T' [E H]] Ht | T L t _ [T' [E H]] Ht].
  - exists []. split; [reflexivity | tauto].
  - exists (T' ++ [t]). split; [apply delete_batch_app_right, E|].
    intros x Hx. apply in_app_iff in Hx as [Hx|Hx]; apply in_app_iff; [left; auto | right; exact Hx].
  - exists T'. rewrite delete_batch_snoc_index, del_at_last. simpl. split; [exact E|].
    intros x Hx. apply in_app_iff in Hx as [Hx|[<-|[]]]; [auto|].
    apply H. unfold last_error in Ht. destruct (rev T) eqn:R; [discriminate|]. injection Ht as ->.
    apply in_rev. rewrite R. left. reflexivity.
  - exists T'. rewrite delete_batch_snoc_index, (del_at_before_last _ _ Ht). simpl. split; [exact E|].
    intros x Hx. apply in_app_iff in Hx as [Hx|[<-|[]]]; [auto|].
    apply H. unfold last_error in Ht. destruct (rev T) eqn:R; [discriminate|]. injection Ht as ->.
    apply in_rev. rewrite R. left. reflexivity.
Qed.

(** The normalizer's ascending marks delete exactly the marked positions:
    an element at an unmarked position survives. *)
Lemma ascending_keep {A} (L : list nat) :
  ascending L -> forall (l : list A) i x, (forall d, In d L -> d < length l) -> ~ In i L ->
  nth_error l i = Some x -> exists l', delete_batch L l = Ok l' /\ In x l'.
Proof.
  induction 1 as [|L k _ IH Hk]; intros l i x Hd Hi Ex.
  - exists l. split; [reflexivity | eapply nth_error_In, Ex].
  - assert (Hkl : k < length l) by (apply Hd, in_app_iff; right; left; reflexivity).
    rewrite delete_batch_snoc_index. unfold del_at at 1. rewrite (proj2 (Nat.ltb_lt _ _) Hkl). cbn [bind].
    assert (Hik : i <> k) by (intros ->; apply Hi, in_app_iff; right; left; reflexivity).
    assert (Hlen : length (firstn k l ++ skipn (S k) l) = length l - 1)
      by (rewrite length_app, length_firstn, length_skipn; lia).
    apply (IH _ (if i <? k then i else i - 1)).
    + intros d Hdl. rewrite Hlen. pose proof (Hk d Hdl). lia.
    + intros HL. pose proof (Hk _ HL). destruct (Nat.ltb_spec i k).
      * apply Hi, in_app_iff. left. exact HL.
      * lia.
    + destruct (Nat.ltb_spec i k).
      * rewrite nth_error_app1 by (rewrite length_firstn; lia). rewrite nth_error_firstn.
        rewrite (proj2 (Nat.ltb_lt _ _)) by lia. exact Ex.
      * rewrite nth_error_app2 by (rewrite length_firstn; lia). rewrite length_firstn, Nat.min_l by lia.
        rewrite nth_error_skipn. replace (S k + (i - 1 - k)) with i by lia. exact Ex.
Qed.

Lemma last_error_snoc {A} (l : list A) (x : A) : last_error (l ++ [x]) = Some x.
Proof. unfold last_error. rewrite rev_app_distr. reflexivity. Qed.

Lemma map_list_set_same {A B} (f : A -> B) (j : nat) (x y : A) (l : list A) :
  nth_error l j = Some x -> f y = f x -> map f (list_set j y l) = map f l.
Proof.
  intros Ex Hf. unfold list_set. pose proof (firstn_S_nth_error _ _ _ Ex) as F.
  rewrite map_app. cbn [map]. rewrite Hf.
  rewrite <- (firstn_skipn (S j) l) at 3. rewrite F, <- app_assoc, map_app. reflexivity.
Qed.
