(* ===== verification/Merger.v ===== *)
(** * The merger: lines 379-412 of [translate_subtitle]

    After the normalizer's deletions, the script walks the track once
    ([for i, sub in enumerate(subs)]).  A cue with the same [start] and
    [end] as the cue before it in the list is folded into that cue:
    - if the texts agree once the full-width parentheses are removed, one
      of the two is marked for deletion: the current one when the
      previous text starts with ['（'], the previous one otherwise;
    - otherwise the previous cue's text absorbs the current text, joined
      by the two-character marker ['\\n'], and the current cue is marked
      for deletion.  The current text goes right after the last ['）\\n']
      of the previous text when both start with ['（'] and the previous has
      one, at the end when both start with ['（'] and it has none, in
      front when only the current starts with ['（'], and at the end when
      the current does not start with ['（'].
    The list is shared and mutated in place: the previous cue is read from
    the list at each step ([subs[i-1]]), so a cue marked for deletion can
    still absorb the next one.  The marked indices are deleted afterwards
    in reverse order of marking ([for i in reversed(delete_list)]).
    [text[0]] on an empty text raises [IndexError]: these are [Err]
    results. *)

From Stdlib Require Import String.
From Stdlib Require Import List ZArith Lia Bool.
Import ListNotations.
From S2P Require Import Prelude PyStr Regex Cue.
Open Scope sub_scope.

Definition lparen : str := u "（".
Definition rparen : str := u "）".
(** [ord('（')]. *)
Definition fw_lparen : char := 65288%Z.
(** ['\\n']: the two characters backslash and [n]. *)
Definition esc_n : str := u "\n".

(** [text.replace('（', '').replace('）', '')] (lines 384-385). *)
Definition strip_paren (t : str) : str := replace rparen [] (replace lparen [] t).

(** [r'）\\n'] (line 396). *)
Definition close_nl : regex := lit (rparen ++ esc_n).

(** Lines 393-406: the text the previous cue takes when it absorbs [t]. *)
Definition absorbed_text (prev_text t : str) : result str :=
  c <- of_option (py_index t 0) IndexError ;;
  if (c =? fw_lparen)%Z then
    c' <- of_option (py_index prev_text 0) IndexError ;;
    if (c' =? fw_lparen)%Z then
      if contains (rparen ++ esc_n) prev_text then
        m <- of_option (last_error (finditer close_nl prev_text)) IndexError ;;
        let pos := snd m in
        Ok (firstn pos prev_text ++ t ++ esc_n ++ skipn pos prev_text)
      else Ok (prev_text ++ esc_n ++ t)
    else Ok (t ++ esc_n ++ prev_text)
  else Ok (prev_text ++ esc_n ++ t).

(** Lines 381-409: one iteration of the loop. *)
Definition merge_step (st : list cue * list nat) (i : nat) : result (list cue * list nat) :=
  let '(subs, delete_list) := st in
  sub <- of_option (nth_error subs i) IndexError ;;
  let t := text sub in
  match i with
  | O => Ok (subs, delete_list)
  | S j =>
      prev <- of_option (nth_error subs j) IndexError ;;
      if (start sub =? start prev)%Z && (end_ sub =? end_ prev)%Z then
        if strip_paren t ==? strip_paren (text prev) then
          c <- of_option (py_index (text prev) 0) IndexError ;;
          if (c =? fw_lparen)%Z then Ok (subs, delete_list ++ [i])
          else Ok (subs, delete_list ++ [j])
        else
          nt <- absorbed_text (text prev) t ;;
          Ok (list_set j (with_text prev nt) subs, delete_list ++ [i])
      else Ok (subs, delete_list)
  end.

(** Lines 379-410: the loop. *)
Definition merge_loop (subs : list cue) : result (list cue * list nat) :=
  fold_left (fun acc i => bind acc (fun st => merge_step st i))
            (seq 0 (length subs)) (Ok (subs, [])).

(** Lines 379-412. *)
Definition merge_cues (subs : list cue) : result (list cue) :=
  st <- merge_loop subs ;;
  let '(subs', delete_list) := st in delete_batch delete_list subs'.

(** ** Theorems *)

Definition same_times (a b : cue) : bool := ((start a =? start b) && (end_ a =? end_ b))%Z.

Lemma strip_paren_nil : strip_paren [] = [].
Proof. reflexivity. Qed.

(** Without two neighbours sharing (start, end), the merger leaves the
    track as it is. *)
Theorem merge_no_adjacent_dups (l : list cue) :
  (forall i a b, nth_error l i = Some a -> nth_error l (S i) = Some b ->
                 same_times b a = false) ->
  merge_cues l = Ok l.
Proof.
  intros Hnd. unfold merge_cues, merge_loop.
  rewrite fold_bind_const; [reflexivity|].
  intros i Hi. apply in_seq in Hi. simpl.
  destruct (nth_error l i) as [sub|] eqn:Ei; [|apply nth_error_None in Ei; lia]. simpl.
  destruct i as [|j]; [reflexivity|].
  destruct (nth_error l j) as [prev|] eqn:Ej; [|apply nth_error_None in Ej; lia]. simpl.
  unfold same_times in Hnd. rewrite (Hnd j prev sub Ej Ei). reflexivity.
Qed.

Lemma py_index_cons (c : char) (t : str) : py_index (c :: t) 0 = Some c.
Proof. reflexivity. Qed.

Lemma str_eqb_neq (a b : str) : a <> b -> (a ==? b) = false.
Proof. intros H. destruct (str_eqb_spec a b); [contradiction | reflexivity]. Qed.

Lemma str_eqb_eq (a b : str) : a = b -> (a ==? b) = true.
Proof. intros ->. apply str_eqb_refl. Qed.

(** C1. Three cues with the same times and unrelated texts: the second is
    folded into the first, then the third into the second, which is
    deleted.  The third text is lost: the result holds only the first two
    texts.  (The spec says merges accumulate into the nearest surviving
    predecessor.) *)
Theorem merge_chain_loses_third s e a b0 b c0 c :
  (b0 =? fw_lparen)%Z = false -> (c0 =? fw_lparen)%Z = false ->
  strip_paren (b0 :: b) <> strip_paren a ->
  strip_paren (c0 :: c) <> strip_paren (b0 :: b) ->
  merge_cues [mk_cue s e a; mk_cue s e (b0 :: b); mk_cue s e (c0 :: c)] =
  Ok [mk_cue s e (a ++ esc_n ++ b0 :: b)].
Proof.
  intros Hb Hc Hab Hbc. unfold merge_cues, merge_loop. cbn -[strip_paren str_eqb].
  rewrite !Z.eqb_refl. cbn -[strip_paren str_eqb]. rewrite (str_eqb_neq _ _ Hab).
  cbn -[strip_paren str_eqb]. rewrite Hb. cbn -[strip_paren str_eqb].
  rewrite Z.eqb_refl. cbn -[strip_paren str_eqb].
  rewrite (str_eqb_neq _ _ Hbc). cbn -[strip_paren str_eqb]. rewrite Hc, Z.eqb_refl.
  reflexivity.
Qed.

(** C5. Spec scenario B, as the code runs it, for any times and texts:
    when a cue whose text starts with ['（'] follows a cue with the same
    times whose text does not, and the two texts differ without
    parentheses, the earlier cue keeps the annotation first,
    [annotation \\n text] (line 404), and the annotation cue is deleted.
    The spec puts the annotation after the text (['哈哈\\n（笑）']). *)
Theorem merge_annotation_first s e a0 a b :
  a0 <> fw_lparen -> strip_paren (fw_lparen :: b) <> strip_paren (a0 :: a) ->
  merge_cues [mk_cue s e (a0 :: a); mk_cue s e (fw_lparen :: b)] =
  Ok [mk_cue s e ((fw_lparen :: b) ++ esc_n ++ a0 :: a)].
Proof.
  intros Ha H. unfold merge_cues, merge_loop. cbn -[strip_paren str_eqb absorbed_text].
  rewrite !Z.eqb_refl. cbn -[strip_paren str_eqb absorbed_text]. rewrite (str_eqb_neq _ _ H).
  unfold absorbed_text. cbn [py_index nth_error of_option bind app].
  rewrite Z.eqb_refl, (proj2 (Z.eqb_neq _ _) Ha). reflexivity.
Qed.

(** C8. Two cues with the same times whose texts agree without
    parentheses, the first text non-empty: exactly one survives, the
    first when its text starts with ['（'], the second otherwise. *)
Theorem merge_duplicate_one_survivor s e a0 a b :
  strip_paren b = strip_paren (a0 :: a) ->
  merge_cues [mk_cue s e (a0 :: a); mk_cue s e b] =
  Ok [if (a0 =? fw_lparen)%Z then mk_cue s e (a0 :: a) else mk_cue s e b].
Proof.
  intros H. unfold merge_cues, merge_loop. cbn -[strip_paren str_eqb].
  rewrite !Z.eqb_refl. cbn -[strip_paren str_eqb]. rewrite (str_eqb_eq _ _ H).
  cbn -[strip_paren str_eqb]. destruct (a0 =? fw_lparen)%Z; reflexivity.
Qed.

(** Which duplicate survives depends on the order, and only the first
    character of the earlier text is tested: of ['x（y）'] and ['xy'] the
    earlier one is always dropped, so the parenthesised variant is lost
    when it comes first (the spec prefers it whenever either text has
    parentheses). *)
Theorem merge_duplicate_order_dependent :
  merge_cues [mk_cue 0 1 (u "x（y）"); mk_cue 0 1 (u "xy")] = Ok [mk_cue 0 1 (u "xy")] /\
  merge_cues [mk_cue 0 1 (u "xy"); mk_cue 0 1 (u "x（y）")] = Ok [mk_cue 0 1 (u "x（y）")].
Proof. split; vm_compute; reflexivity. Qed.

(** C9. A cue with an empty text right after a cue with the same times
    whose text is not empty once its full-width parentheses are removed
    makes [text[0]] (line 393) raise [IndexError].  (After a text ['（）']
    the two texts agree without parentheses and no [IndexError] is
    raised.) *)
Theorem merge_empty_text_raises s e a :
  strip_paren a <> [] -> merge_cues [mk_cue s e a; mk_cue s e []] = Err IndexError.
Proof.
  intros H. unfold merge_cues, merge_loop. cbn -[strip_paren str_eqb].
  rewrite !Z.eqb_refl. cbn -[strip_paren str_eqb].
  rewrite strip_paren_nil, (str_eqb_neq [] _ (not_eq_sym H)). reflexivity.
Qed.

(** ** Witnesses: the theorems at concrete inputs *)

Lemma merge_chain_loses_third_witness :
  merge_cues [mk_cue 1 2 [97%Z]; mk_cue 1 2 [98%Z]; mk_cue 1 2 [99%Z]] =
  Ok [mk_cue 1 2 ([97%Z] ++ esc_n ++ [98%Z])].
Proof.
  exact (merge_chain_loses_third 1 2 [97%Z] 98 [] 99 [] eq_refl eq_refl
           ltac:(intro E; vm_compute in E; discriminate E)
           ltac:(intro E; vm_compute in E; discriminate E)).
Defined.

Lemma merge_duplicate_one_survivor_witness :
  merge_cues [mk_cue 1 2 (fw_lparen :: u "笑）"); mk_cue 1 2 (u "笑")] =
  Ok [mk_cue 1 2 (fw_lparen :: u "笑）")].
Proof.
  exact (merge_duplicate_one_survivor 1 2 fw_lparen (u "笑）") (u "笑")
           ltac:(vm_compute; reflexivity)).
Defined.

Lemma merge_annotation_first_witness :
  merge_cues [mk_cue 1000 2000 (u "哈哈"); mk_cue 1000 2000 (fw_lparen :: u "笑）")] =
  Ok [mk_cue 1000 2000 ((fw_lparen :: u "笑）") ++ esc_n ++ u "哈哈")].
Proof.
  exact (merge_annotation_first 1000 2000 21704%Z [21704%Z] (u "笑）") ltac:(vm_compute; discriminate)
           ltac:(vm_compute; discriminate)).
Defined.

Lemma merge_empty_text_raises_witness :
  merge_cues [mk_cue 1 2 (u "a"); mk_cue 1 2 []] = Err IndexError.
Proof.
  exact (merge_empty_text_raises 1 2 (u "a") ltac:(intro E; vm_compute in E; discriminate E)).
Defined.

(** ** The merger keeps every time range *)

(** One iteration leaves the times as they are and marks nothing, the
    current index or the previous one, the last two only for two cues
    with the same time range. *)
Lemma merge_step_cases (subs subs' : list cue) (L L' : list nat) (k : nat) (sub : cue) :
  merge_step (subs, L) k = Ok (subs', L') -> nth_error subs k = Some sub ->
  map cue_times subs' = map cue_times subs /\
  (L' = L \/ exists j prev, k = S j /\ nth_error subs j = Some prev /\
                            cue_times prev = cue_times sub /\ (L' = L ++ [k] \/ L' = L ++ [j])).
Proof.
  intros E Ek. unfold merge_step in E. rewrite Ek in E. cbn [of_option bind] in E.
  destruct k as [|j]; [injection E as <- <-; auto|].
  destruct (nth_error subs j) as [prev|] eqn:Ej; [|discriminate]. cbn [of_option bind] in E.
  destruct ((start sub =? start prev)%Z && (end_ sub =? end_ prev)%Z) eqn:Same;
    [|injection E as <- <-; auto].
  assert (Ht : cue_times prev = cue_times sub)
    by (apply andb_true_iff in Same as [A B]; apply Z.eqb_eq in A, B; unfold cue_times; congruence).
  destruct (strip_paren (text sub) ==? strip_paren (text prev)).
  - destruct (py_index (text prev) 0) as [c|]; [|discriminate]. cbn [of_option bind] in E.
    destruct (c =? fw_lparen)%Z; injection E as <- <-;
      (split; [reflexivity | right; exists j, prev; auto]).
  - destruct (absorbed_text (text prev) (text sub)) as [nt|]; [|discriminate].
    cbn [bind] in E. injection E as <- <-. split.
    + apply (map_list_set_same _ _ prev); [exact Ej | reflexivity].
    + right. exists j, prev. auto.
Qed.

Lemma merge_loop_prefix (l : list cue) : forall k, k <= length l -> forall l' L,
  fold_left (fun acc i => bind acc (fun st => merge_step st i)) (seq 0 k) (Ok (l, [])) = Ok (l', L) ->
  map cue_times l' = map cue_times l /\ merge_marks (firstn k (map cue_times l)) L.
Proof.
  induction k as [|k IH]; intros Hk l' L E.
  - injection E as <- <-. split; [reflexivity | constructor].
  - rewrite seq_S, fold_left_app in E. cbn [fold_left] in E. change (0 + k) with k in E.
    apply bind_ok in E as [[lk Lk] [Ek E]]. destruct (IH ltac:(lia) lk Lk Ek) as [Ht Hm].
    assert (Hk' : k < length lk) by (rewrite <- (length_map cue_times), Ht, length_map; lia).
    destruct (nth_error lk k) as [sub|] eqn:Es; [|apply nth_error_None in Es; lia].
    assert (HT : nth_error (map cue_times l) k = Some (cue_times sub))
      by (rewrite <- Ht, nth_error_map, Es; reflexivity).
    rewrite (firstn_S_nth_error _ _ _ HT).
    destruct (merge_step_cases _ _ _ _ _ _ E Es) as [Ht' [->|[j [prev [-> [Ej [Hp [->| ->]]]]]]]];
      (split; [congruence|]).
    + apply mm_skip, Hm.
    + assert (Hj : nth_error (map cue_times l) j = Some (cue_times prev))
        by (rewrite <- Ht, nth_error_map, Ej; reflexivity).
      replace (S j) with (length (firstn (S j) (map cue_times l))) at 2
        by (rewrite length_firstn, length_map; lia).
      apply mm_cur; [exact Hm|]. rewrite (firstn_S_nth_error _ _ _ Hj), last_error_snoc. congruence.
    + assert (Hj : nth_error (map cue_times l) j = Some (cue_times prev))
        by (rewrite <- Ht, nth_error_map, Ej; reflexivity).
      replace j with (length (firstn (S j) (map cue_times l)) - 1) at 2
        by (rewrite length_firstn, length_map; lia).
      apply mm_prev; [exact Hm|]. rewrite (firstn_S_nth_error _ _ _ Hj), last_error_snoc. congruence.
Qed.

Lemma merge_cues_times (l l2 : list cue) :
  merge_cues l = Ok l2 -> forall c, In c l -> exists c', In c' l2 /\ cue_times c' = cue_times c.
Proof.
  unfold merge_cues, merge_loop. intros E.
  apply bind_ok in E as [[l' L] [E1 E2]]. cbn beta iota in E2.
  destruct (merge_loop_prefix l (length l) (le_n _) l' L E1) as [Ht Hm].
  rewrite firstn_all2 in Hm by (rewrite length_map; lia).
  destruct (merge_marks_keep _ _ Hm) as [T' [ET HT]].
  rewrite <- Ht, delete_batch_map, E2 in ET. cbn [rmap] in ET. injection ET as <-.
  intros c Hc. apply (in_map cue_times), HT, in_map_iff in Hc as [c' [Hc' Hin]]. eauto.
Qed.

(** C20. The merger never removes every cue of a time range: each time
    range of its input is the range of a cue of its output, also when the
    delete list holds an index twice (lines 388-391 and 406 can both mark
    the same cue). *)
Theorem merge_keeps_time_ranges (l l2 : list cue) :
  merge_cues l = Ok l2 -> forall c, In c l -> exists c', In c' l2 /\ start c' = start c /\ end_ c' = end_ c.
Proof.
  intros E c Hc. destruct (merge_cues_times l l2 E c Hc) as [c' [H1 H2]].
  unfold cue_times in H2. injection H2 as A B. eauto.
Qed.

Lemma merge_keeps_time_ranges_witness :
  exists c', In c' [mk_cue 1 2 (u "a"); mk_cue 3 4 (u "d")] /\ start c' = 1%Z /\ end_ c' = 2%Z.
Proof.
  exact (merge_keeps_time_ranges
           [mk_cue 1 2 (u "a"); mk_cue 1 2 (u "a"); mk_cue 3 4 (u "d")]
           [mk_cue 1 2 (u "a"); mk_cue 3 4 (u "d")] ltac:(vm_compute; reflexivity)
           (mk_cue 1 2 (u "a")) ltac:(left; reflexivity)).
Defined.
