(* ===== verification/Normalizer.v ===== *)
(** * The normalizer: lines 173-374 of [translate_subtitle]

    Each cue's text goes through a deletion policy and then a fixed,
    numbered sequence of rewrites.  A rewrite is a rule: [RReplace old new]
    is [text = text.replace(old, new)], [RSub r t] is
    [text = re.sub(r, t, text)], each rule of the tables below carries the
    number of the source line it translates.  The term dictionary of the
    repository ([dictionary.translate], not part of [src/]) is an
    interface [Dictionary]: every theorem holds for every instance.  The
    result for one cue is [Drop] (the index goes to [delete_list]) or
    [Keep] with the new text and, when the two dictionary passes changed
    the text, the typo record of lines 369-374. *)

From Stdlib Require Import String.
From Stdlib Require Import List ZArith Lia Bool.
Import ListNotations.
From S2P Require Import Prelude PyStr Regex Cue.
Open Scope sub_scope.

(** The categories of [dictionary.translate]. *)
Inductive category : Type := NUMBER | CONTEXT | TYPO.

Class Dictionary : Type := {
  translate : str -> category -> str
}.

(** The double-quote character (code 34), which a Rocq string literal
    cannot hold alone. *)
Definition dq : str := [34%Z].

Inductive rule : Type :=
| RReplace (old new : str)          (** [text = text.replace(old, new)] *)
| RSub (r : regex) (t : template).  (** [text = re.sub(r, t, text)] *)

Definition apply_rule (text : str) (x : rule) : str :=
  match x with
  | RReplace old new => replace old new text
  | RSub r t => sub r t text
  end.

Definition apply_rules (rules : list rule) (text : str) : str :=
  fold_left apply_rule rules text.

(** ** Patterns of the deletion policy and of the tag handling *)

(** [r'.*?字幕翻譯.*?'] (line 184). *)
Definition credit_re : regex :=
  seqs [Star false (Dot false); L "字幕翻譯"; Star false (Dot false)].

(** [r'[0-9\.]']. *)
Definition num_dot : regex := C "0123456789.".

(** [r'\{\\.*?(pos|fad)\([0-9\.]+,[0-9\.]+\).*?\}'] (line 188). *)
Definition posfad_re : regex :=
  seqs [L "{\"; Star false (Dot false); Group 1 (Alt (L "pos") (L "fad"));
        L "("; plus true num_dot; L ","; plus true num_dot; L ")";
        Star false (Dot false); L "}"].

(** [r'(\{.+?\})+'] (lines 189, 192, 194). *)
Definition tags_re : regex :=
  plus true (Group 1 (seqs [L "{"; plus false (Dot false); L "}"])).

(** [r'\{.*?\\an8.*?\}'] (line 191). *)
Definition an8_re : regex :=
  seqs [L "{"; Star false (Dot false); L "\an8"; Star false (Dot false); L "}"].

(** [r'\{\\.+?\}'] (line 193). *)
Definition override_re : regex := seqs [L "{\"; plus false (Dot false); L "}"].

(** ** Lines 201-205: commas and brackets next to CJK runs *)
Definition comma_rules : list rule := [
  (* 201 *) RSub (seqs [L ","; Group 1 (plus true cjk)]) [TLit (u " "); TGrp 1];
  (* 202 *) RSub (seqs [Group 1 (plus true cjk); L ","]) [TGrp 1];
  (* 204 *) RSub (seqs [Group 1 (plus true cjk); L "["]) [TGrp 1; TLit (u " [")];
  (* 205 *) RSub (seqs [L "]"; Group 1 (plus true cjk)]) [TLit (u "] "); TGrp 1]
].

(** ** Lines 209-278: the punctuation table, applied when the text has a
    CJK ideograph (line 208) *)
Definition punct_rules : list rule := [
  (* 209 *) RReplace (u "＂") (dq);
  (* 210 *) RReplace (u "➚") ([]);
  (* 211 *) RReplace (u "…") (u "…");
  (* 212 *) RReplace (u "..") (u "…");
  (* 213 *) RReplace (u "．．．") (u "…");
  (* 214 *) RReplace (u "﹒﹒﹒") (u "…");
  (* 215 *) RReplace (u "。。。") (u "…");
  (* 216 *) RReplace (u " …") (u "…");
  (* 217 *) RReplace (u "….") (u "…");
  (* 218 *) RReplace (u "!?") (u "⁉︎ ");
  (* 219 *) RReplace (u "?!") (u "⁉︎ ");
  (* 220 *) RReplace (u "!") (u "！");
  (* 221 *) RReplace (u "?") (u "？");
  (* 222 *) RReplace (u " ！") (u "！");
  (* 223 *) RReplace (u " ？") (u "？");
  (* 224 *) RReplace (u "！？") (u "⁉︎ ");
  (* 225 *) RReplace (u "？!") (u "⁉︎ ");
  (* 226 *) RReplace (u "！") (u "！ ");
  (* 227 *) RReplace (u "？") (u "？ ");
  (* 228 *) RReplace (u "？ ？") (u "？？");
  (* 229 *) RReplace (u "！ ！") (u "！！");
  (* 230 *) RReplace (u "，") (u " ");
  (* 231 *) RReplace (u "。") (u " ");
  (* 232 *) RReplace (u "、 ") (u "、");
  (* 233 *) RReplace (u " 、") (u "、");
  (* 234 *) RReplace (u ",\n\r") ([]);
  (* 235 *) RReplace (u ":") (u "：");
  (* 236 *) RReplace (u "： ") (u "：");
  (* 237 *) RReplace (u "：\n") (u "：");
  (* 238 *) RReplace (u "~") (u "～");
  (* 239 *) RReplace (u "|") (u "｜");
  (* 240 *) RReplace (u " |") (u "｜");
  (* 241 *) RReplace (u "| ") (u "｜");
  (* 242 *) RSub (seqs [Group 1 (plus true cjk); L "."]) [TGrp 1; TLit (u " ")];
  (* 243 *) RReplace (u "(") (u "（");
  (* 244 *) RReplace (u "（-=") (u "（");
  (* 245 *) RReplace (u "（-= ") (u "（");
  (* 246 *) RReplace (u "-=") (u "（");
  (* 247 *) RReplace (u "-= ") (u "（");
  (* 248 *) RReplace (u " （") (u "（");
  (* 249 *) RReplace (u "（ ") (u "（");
  (* 250 *) RReplace (u "（\n\r") (u "（");
  (* 251 *) RReplace (u ")") (u "）");
  (* 252 *) RReplace (u "=-）") (u "）");
  (* 253 *) RReplace (u " =-）") (u "）");
  (* 254 *) RReplace (u "=-") (u "）");
  (* 255 *) RReplace (u " =-") (u "）");
  (* 256 *) RReplace (u " ）") (u "）");
  (* 257 *) RReplace (u "\n\r)") (u "）");
  (* 258 *) RReplace (u "\h") ([]);
  (* 259 *) RReplace (u "•") (u "・");
  (* 260 *) RReplace (u "‧") (u "・");
  (* 261 *) RReplace (u "·") (u "・");
  (* 262 *) RReplace (u "．") (u "・");
  (* 263 *) RReplace (u "〝") (u "「");
  (* 264 *) RReplace (u "〞") (u "」");
  (* 265 *) RReplace (u "『") (u "「");
  (* 266 *) RReplace (u "』") (u "」");
  (* 267 *) RReplace (u "「 ") (u "「");
  (* 268 *) RReplace (u " 」") (u "」");
  (* 269 *) RReplace (u "注：") (u "註：");
  (* 270 *) RReplace (u "（註：") (u "\n（註：");
  (* 271 *) RReplace (u "-（") (u "（");
  (* 272 *) RReplace (u "->") (u " → ");
  (* 273 *) RReplace (u "<-") (u " ← ");
  (* 274 *) RSub (seqs [Bol; C "<＜"]) [TLit (u "〈")];
  (* 275 *) RSub (seqs [C ">＞"; Eol]) [TLit (u "〉")];
  (* 276 *) RReplace (u "）\n-") (u "）\n");
  (* 277 *) RReplace (u "- ") (u "-");
  (* 278 *) RReplace (u "　") (u " ")
].

(** ** Lines 280-283: quotes and apostrophes, for every text *)
Definition quote_rules : list rule := [
  (* 280 *) RReplace (u "“") (dq);
  (* 281 *) RReplace (u "”") (dq);
  (* 282 *) RReplace (u "’") (u "'");
  (* 283 *) RReplace (u "‘") (u "'")
].

(** ** Line 285: [text = '\\n'.join(filter(None, text.split('\\n')))] *)
Definition esc_nl : str := u "\n".
Definition drop_empty_lines (text : str) : str :=
  join esc_nl (filter_nonempty (split esc_nl text)).

(** ** Lines 287-290: clock notation *)
(** [r'([A|P]M)'], [r'[0-9]{2}']. *)
Definition ampm : regex := Group 1 (seqs [C "A|P"; L "M"]).
Definition two_digits : regex := Seq digit digit.
Definition clock_tmpl : template := [TGrp 2; TLit (u ":"); TGrp 3; TLit (u " "); TGrp 1; TLit (u " ")].

Definition time_rules : list rule := [
  (* 287 *) RSub (seqs [ampm; Group 2 two_digits; L "："; Group 3 two_digits]) clock_tmpl;
  (* 288 *) RSub (seqs [ampm; L " "; Group 2 two_digits; L "："; Group 3 two_digits]) clock_tmpl;
  (* 289 *) RSub (seqs [Group 1 (plus true digit); L "："; Group 2 (plus true digit); L "：";
                        Group 3 (plus true digit)])
                 [TGrp 1; TLit (u ":"); TGrp 2; TLit (u ":"); TGrp 3];
  (* 290 *) RSub (seqs [Group 1 (plus true digit); L "："; Group 2 (plus true digit)])
                 [TGrp 1; TLit (u ":"); TGrp 2]
].

(** ** Lines 292-295: collapse the breaks of a text split one ideograph per
    line, unless it has a dash *)
Definition line_start_re : regex := seqs [Bol; cjk; L "\n"].
Definition paren_line_re : regex := seqs [L "（"; cjk; L "\n"].

Definition collapse_breaks (text : str) : str :=
  if negb (contains (u "-") text) then
    if (2 <? findall_count line_start_re text) || (2 <? findall_count paren_line_re text)
    then replace esc_nl [] text
    else text
  else text.

(** ** Lines 297-311: ellipses, full stops, quotes to corner brackets *)
(** The class of line 307: a double or a single quote. *)
Definition quote_cls : regex := Cls false [(34, 34); (39, 39)]%Z.
Definition lazy_cjk_span : regex :=
  seqs [Star false (Dot false); plus true cjk; Star false (Dot false)].

Definition cjk_quote_rules : list rule := [
  (* 297 *) RSub (seqs [Group 1 (plus true cjk); L "…"; Group 2 (plus true cjk)])
                 [TGrp 1; TLit (u "… "); TGrp 2];
  (* 300 *) RSub (seqs [Group 1 cjk; L "."]) [TGrp 1; TLit (u " ")];
  (* 302 *) RSub (seqs [Chr 34%Z; Group 1 lazy_cjk_span; Chr 34%Z])
                 [TLit (u "「"); TGrp 1; TLit (u "」")];
  (* 303 *) RSub (seqs [L "'"; Group 1 lazy_cjk_span; L "'"])
                 [TLit (u "「"); TGrp 1; TLit (u "」")];
  (* 304 *) RReplace (u " 」") (u "」");
  (* 307 *) RSub (seqs [Bol; quote_cls; Group 1 (Seq (Star false (Dot false)) (plus true cjk))])
                 [TGrp 1];
  (* 308 *) RSub (seqs [Group 1 (plus true cjk); quote_cls; Eol]) [TGrp 1];
  (* 311 *) RSub (seqs [Group 1 (plus true digit); L "."; Group 2 (plus true cjk)])
                 [TGrp 1; TLit (u ". "); TGrp 2]
].

Section WithDictionary.
Context `{Dictionary}.

(** ** Lines 313-322: episode titles, the number through the dictionary *)
Definition episode_re : regex :=
  seqs [L "（第"; Group 1 (Star false (Dot false)); C "集|話|回";
        Group 2 (Star false (Dot false)); L "）"; Group 3 (Star true (Dot false))].
Definition episode_only_re : regex :=
  seqs [Bol; L "第"; Group 1 (Star false (Dot false)); C "集|話|回"; Eol].

Definition episode_rule (text : str) : str :=
  let text :=
    match search episode_re text with
    | Some (_, _, cs) =>
        u "（第" ++ strip (translate (group_text cs 1) NUMBER) ++ u "集"
          ++ group_text cs 2 ++ u "）" ++ group_text cs 3
    | None => text
    end in
  match search episode_only_re text with
  | Some (_, _, cs) => u "（第" ++ strip (translate (group_text cs 1) NUMBER) ++ u "集）"
  | None => text
  end.

End WithDictionary.

(** ** Lines 324-343: fixed idioms, by exact match, in order *)
Definition idioms : list (str * str) := [
  (* 324 *) (u "下集預告", u "（下集預告）");
  (* 327 *) (u "=下集預告=", u "（下集預告）");
  (* 330 *) (u "下 集 預 告", u "（下集預告）");
  (* 333 *) (u "前情提要", u "（前情提要）");
  (* 336 *) (u "前 情 提 要", u "（前情提要）");
  (* 339 *) (u "本集回顧", u "（本集回顧）");
  (* 342 *) (u "本 集 回 顧", u "（本集回顧）")
].

Definition apply_idioms (text : str) : str :=
  fold_left (fun t '(k, v) => if t ==? k then v else t) idioms text.

(** ** Lines 345-351: dialogue dashes *)
(** [r'(\\\\t| )-[ 一-鿿]+']. *)
Definition conversation_re : regex :=
  seqs [Group 1 (Alt (L "\t") (L " ")); L "-"; plus true (Cls false [(32, 32); (19968, 40959)]%Z)].

Definition conversation_rule (text : str) : str :=
  if found conversation_re text then
    join (u " ") (split_ws (replace (u "\t-") (u "\n-") (replace (u " -") (u "\n-") text)))
  else text.

(** Line 351: the pattern is a raw string, so [\\n] matches a backslash
    and [n]; the template is not, and [re.sub] turns its [\n] into a line
    feed. *)
Definition final_rules : list rule := [
  (* 351 *) RSub (seqs [Group 1 (Seq Bol (plus true cjk)); L "\n-"])
                 [TLit (u "-"); TGrp 1; TLit (newline ++ u "-")];
  (* 353 *) RReplace (u "\n\n") (u "\n");
  (* 354 *) RReplace (u "  ") (u " ");
  (* 355 *) RReplace (u " 　　") (u " ")
].

Section Normalize.
Context `{Dictionary}.

(** ** Lines 188-194: override tags *)
Definition tag_rule (text : str) : str :=
  let text := if found posfad_re text then u "（" ++ sub tags_re [] text ++ u "）" else text in
  if found an8_re text then u "{\an8}" ++ sub tags_re [] text
  else if found override_re text then sub tags_re [] text
  else text.

(** ** Lines 174-186: the deletion policy before any rewrite *)
Definition deleted_first (c : cue) (text : str) : bool :=
  match text with [] => true | _ => false end || (text ==? esc_nl)
  || ((start c =? 0) && (end_ c =? 0))%Z || found credit_re text.

(** ** Lines 174-355: the text before the dictionary passes, [None] when
    the cue is dropped *)
Definition rewrite_text (c : cue) : option str :=
  let text := strip (text c) in
  if deleted_first c text then None else
  let text := tag_rule text in
  (* 196-199 *)
  if text ==? u "我去" then None else
  let text := apply_rules comma_rules text in
  (* 208 *)
  let text := if found (plus true cjk) text then apply_rules punct_rules text else text in
  let text := apply_rules quote_rules text in
  let text := drop_empty_lines text in
  let text := apply_rules time_rules text in
  let text := collapse_breaks text in
  let text := apply_rules cjk_quote_rules text in
  let text := episode_rule text in
  let text := apply_idioms text in
  let text := conversation_rule text in
  Some (apply_rules final_rules text).

Inductive outcome : Type :=
| Drop                                (** [delete_list.append(i); continue] *)
| Keep (t : str) (rec : option typo). (** [subs[i].text = text], the typo record *)

(** Lines 173-374 for one cue: the two dictionary passes and the typo
    record when they changed the text. *)
Definition normalize_cue (c : cue) : outcome :=
  match rewrite_text c with
  | None => Drop
  | Some original_text =>
      let t := translate (translate original_text CONTEXT) TYPO in
      Keep t (if original_text ==? t then None
              else Some (mk_typo (start c) (end_ c) original_text t None))
  end.

(** Lines 169-377: the loop over the track, then the batch deletion. *)
Definition normalize_loop (subs : list cue) : list cue * list nat * list typo :=
  fold_left
    (fun '(subs', delete_list, typos) i =>
       match nth_error subs' i with
       | None => (subs', delete_list, typos)
       | Some c =>
           match normalize_cue c with
           | Drop => (subs', delete_list ++ [i], typos)
           | Keep t r => (list_set i (with_text c t) subs', delete_list,
                          typos ++ match r with Some x => [x] | None => [] end)
           end
       end)
    (seq 0 (length subs)) (subs, [], []).

Definition normalize_track (subs : list cue) : result (list cue * list typo) :=
  let '(subs', delete_list, typos) := normalize_loop subs in
  l <- delete_batch delete_list subs' ;; Ok (l, typos).

End Normalize.

(** The identity dictionary, to run examples. *)
Definition id_dictionary : Dictionary := {| translate := fun t _ => t |}.

(** ** Theorems *)
Section NormalizeProps.
Context `{Dictionary}.

Lemma zero_cue_dropped c : start c = 0%Z -> end_ c = 0%Z -> normalize_cue c = Drop.
Proof.
  intros Hs He. unfold normalize_cue, rewrite_text.
  replace (deleted_first c (strip (text c))) with true; [reflexivity|].
  symmetry. unfold deleted_first. apply orb_true_iff. left. apply orb_true_iff. right.
  rewrite Hs, He. reflexivity.
Qed.

(** C6. Spec scenario E: a cue with [start == end == 0] is dropped, whatever
    its text. *)
Theorem normalize_zero_dropped c : start c = 0%Z -> end_ c = 0%Z -> normalize_cue c = Drop.
Proof. apply zero_cue_dropped. Qed.

(** ... and at the level of the track: it leaves no cue and no typo
    record behind. *)
Theorem normalize_track_zero_cue t : normalize_track [mk_cue 0 0 t] = Ok ([], []).
Proof.
  unfold normalize_track, normalize_loop. simpl.
  rewrite zero_cue_dropped by reflexivity. reflexivity.
Qed.

(** C7. A cue whose (stripped) text contains the credit marker ['字幕翻譯'] is
    dropped (lines 184-186). *)
Theorem normalize_credit_dropped c :
  contains (u "字幕翻譯") (strip (text c)) = true -> normalize_cue c = Drop.
Proof.
  intros Hc. unfold normalize_cue, rewrite_text.
  replace (deleted_first c (strip (text c))) with true; [reflexivity|].
  symmetry. unfold deleted_first. apply orb_true_iff. right.
  unfold credit_re, L. rewrite found_lazy_infix. exact Hc.
Qed.

(** The first test of line 293, [len(re.findall(r'^[一-鿿]\\\\n', text)) > 2],
    is never true: without [re.M] the pattern is found at most once. *)
Theorem line_start_count_dead text : (2 <? findall_count line_start_re text) = false.
Proof. apply Nat.ltb_ge. pose proof (findall_count_bol (seqs [cjk; L "\n"]) text) as Hc. exact (Nat.le_trans _ _ _ Hc (Nat.le_succ_diag_r 1)). Qed.

(** A cue holding only an override tag is not dropped: its text becomes
    empty (the spec says no cue is left with an empty text). *)
Theorem normalize_tag_only_empty :
  rewrite_text (mk_cue 1000 2000 (u "{\i1}")) = Some [].
Proof. vm_compute. reflexivity. Qed.

End NormalizeProps.

(** ** Witnesses *)

Lemma normalize_zero_dropped_witness :
  @normalize_cue id_dictionary (mk_cue 0 0 (u "x")) = Drop.
Proof. apply (@normalize_zero_dropped id_dictionary); reflexivity. Defined.

Lemma normalize_credit_dropped_witness :
  @normalize_cue id_dictionary (mk_cue 1000 2000 (u "字幕翻譯：某人")) = Drop.
Proof. apply (@normalize_credit_dropped id_dictionary). vm_compute. reflexivity. Defined.

(** ** Every typo record names a cue that survives the deletion batch *)

Section NormalizeTypos.
Context `{Dictionary}.

Lemma normalize_cue_typo_times (c : cue) (t : str) (x : typo) :
  normalize_cue c = Keep t (Some x) -> t_start x = start c /\ t_end x = end_ c.
Proof.
  unfold normalize_cue. destruct (rewrite_text c) as [ot|]; [|discriminate].
  destruct (ot ==? _); intros E; injection E as _ E; [discriminate|]. subst x. auto.
Qed.

(** The loop's state after [k] iterations. *)
Lemma normalize_loop_prefix (subs : list cue) : forall k, k <= length subs ->
  forall subs' dl typos,
  fold_left
    (fun '(subs', delete_list, typos) i =>
       match nth_error subs' i with
       | None => (subs', delete_list, typos)
       | Some c =>
           match normalize_cue c with
           | Drop => (subs', delete_list ++ [i], typos)
           | Keep t r => (list_set i (with_text c t) subs', delete_list,
                          typos ++ match r with Some x => [x] | None => [] end)
           end
       end) (seq 0 k) (subs, [], []) = (subs', dl, typos) ->
  map cue_times subs' = map cue_times subs /\ ascending dl /\ (forall d, In d dl -> d < k) /\
  forall x, In x typos -> exists i, i < k /\ ~ In i dl /\
                               nth_error (map cue_times subs) i = Some (t_start x, t_end x).
Proof.
  induction k as [|k IH]; intros Hk subs' dl typos E.
  - injection E as <- <- <-. split; [reflexivity|]. split; [constructor|]. simpl. tauto.
  - rewrite seq_S, fold_left_app in E. cbn [fold_left] in E. change (0 + k) with k in E.
    match type of E with context [fold_left ?f (seq 0 k) ?i] =>
      destruct (fold_left f (seq 0 k) i) as [[sk dk] tk] eqn:Ek end.
    cbn beta iota in E.
    destruct (IH ltac:(lia) sk dk tk eq_refl) as [Ht [Ha [Hd Hty]]].
    assert (Hk' : k < length sk) by (rewrite <- (length_map cue_times), Ht, length_map; lia).
    destruct (nth_error sk k) as [c|] eqn:Ec; [|apply nth_error_None in Ec; lia].
    assert (HT : nth_error (map cue_times subs) k = Some (cue_times c))
      by (rewrite <- Ht, nth_error_map, Ec; reflexivity).
    destruct (normalize_cue c) as [|t r] eqn:N; injection E as <- <- <-.
    + split; [exact Ht|]. split; [apply asc_snoc; auto|]. split.
      * intros d Hd'. apply in_app_iff in Hd' as [Hd'|[<-|[]]]; [pose proof (Hd d Hd')|]; lia.
      * intros x Hx. destruct (Hty x Hx) as [i [Hi [Hni HTi]]]. exists i. split; [lia|]. split; [|exact HTi].
        intros Hin. apply in_app_iff in Hin as [Hin|[<-|[]]]; [contradiction | lia].
    + split; [rewrite <- Ht; apply (map_list_set_same _ _ c); [exact Ec | reflexivity]|].
      split; [exact Ha|]. split; [intros d Hd'; pose proof (Hd d Hd'); lia|].
      intros x Hx. apply in_app_iff in Hx as [Hx|Hx].
      * destruct (Hty x Hx) as [i [Hi HTi]]. exists i. split; [lia | exact HTi].
      * destruct r as [x'|]; [|destruct Hx]. destruct Hx as [<-|[]].
        destruct (normalize_cue_typo_times _ _ _ N) as [A B]. exists k.
        split; [lia|]. split; [intros Hin; pose proof (Hd k Hin); lia|].
        rewrite HT, A, B. reflexivity.
Qed.

Lemma normalize_track_typo_times (subs l1 : list cue) (typos : list typo) :
  normalize_track subs = Ok (l1, typos) ->
  forall x, In x typos -> exists c, In c l1 /\ start c = t_start x /\ end_ c = t_end x.
Proof.
  unfold normalize_track, normalize_loop.
  match goal with |- context [fold_left ?f ?l ?i] => destruct (fold_left f l i) as [[sn dn] tn] eqn:En end.
  intros E. apply bind_ok in E as [l' [Ed E]]. injection E as <- <-.
  destruct (normalize_loop_prefix subs (length subs) (le_n _) _ _ _ En) as [Ht [Ha [Hd Hty]]].
  intros x Hx. destruct (Hty x Hx) as [i [Hi [Hni HTi]]].
  rewrite <- Ht, nth_error_map in HTi.
  destruct (nth_error sn i) as [c|] eqn:Ec; [|discriminate]. injection HTi as Hs He.
  destruct (ascending_keep dn Ha sn i c) as [l'' [Ed' Hin]]; auto.
  - intros d Hd'. rewrite <- (length_map cue_times), Ht, length_map. auto.
  - rewrite Ed in Ed'. injection Ed' as <-. eauto.
Qed.

End NormalizeTypos.
