(* ===== verification/Overlap.v ===== *)
(** * The overlap detector: lines 440-443 of [translate_subtitle]

    In the loop over the sorted track, each cue after the first is
    compared with the cue before it: it is flagged when it starts before
    the previous start, ends before the previous end, or starts before the
    previous end.  The detector only reads the times (the loop rewrites
    texts, never times), so it is a function of the track: [overlap_list]
    is the list [overlap_list] of the script, [overlap_num] its length.
    The theorems characterise the flagged indices, show that on a sorted
    track the first test is dead, and that a flag-free track is exactly
    one whose cues follow each other without overlap. *)

From Stdlib Require Import List ZArith Lia Bool Sorting.Sorted.
Import ListNotations.
From S2P Require Import Prelude PyStr Cue.

(** Line 441. *)
Definition overlaps (prev c : cue) : bool :=
  ((start c <? start prev) || (end_ c <? end_ prev) || (start c <? end_ prev))%Z.

(** Lines 440-443 for index [i]. *)
Definition overlap_at (subs : list cue) (i : nat) : list nat :=
  match i with
  | O => []
  | S j =>
      match nth_error subs i, nth_error subs j with
      | Some c, Some prev => if overlaps prev c then [i] else []
      | _, _ => []
      end
  end.

(** Lines 416-443: [overlap_list] over the whole track. *)
Definition overlap_list (subs : list cue) : list nat :=
  flat_map (overlap_at subs) (seq 0 (length subs)).

Definition overlap_num (subs : list cue) : nat := length (overlap_list subs).

Lemma overlap_list_in subs i :
  In i (overlap_list subs) <->
  exists j prev c, i = S j /\ nth_error subs j = Some prev /\ nth_error subs i = Some c /\
                   overlaps prev c = true.
Proof.
  unfold overlap_list. rewrite in_flat_map. split.
  - intros [k [Hk Hi]]. unfold overlap_at in Hi. destruct k as [|j]; [destruct Hi|].
    destruct (nth_error subs (S j)) as [c|] eqn:Ec; [|destruct Hi].
    destruct (nth_error subs j) as [prev|] eqn:Ep; [|destruct Hi].
    destruct (overlaps prev c) eqn:Eo; [|destruct Hi].
    destruct Hi as [<-|[]]. exists j, prev, c. auto.
  - intros [j [prev [c [-> [Ep [Ec Eo]]]]]]. exists (S j). split.
    + apply in_seq. assert (S j < length subs) by (apply nth_error_Some; rewrite Ec; discriminate).
      lia.
    + unfold overlap_at. rewrite Ec, Ep, Eo. left. reflexivity.
Qed.

Lemma sorted_neighbours l j prev c :
  Sorted cue_le l -> nth_error l j = Some prev -> nth_error l (S j) = Some c ->
  cue_le prev c.
Proof.
  intros Hs. revert j. induction Hs as [|a l Hs IH Hd]; intros j Ep Ec; [destruct j; discriminate|].
  destruct j as [|j].
  - simpl in *. injection Ep as <-. destruct l as [|b l]; [discriminate|].
    injection Ec as <-. inversion Hd; assumption.
  - exact (IH j Ep Ec).
Qed.

(** After the sort, a cue never starts before the previous one: on
    a sorted track the test [sub.start < subs[i-1].start] of line 441
    never fires, the overlap test is the two others. *)
Theorem overlaps_sorted l j prev c :
  Sorted cue_le l -> nth_error l j = Some prev -> nth_error l (S j) = Some c ->
  overlaps prev c = ((end_ c <? end_ prev) || (start c <? end_ prev))%Z.
Proof.
  intros Hs Ep Ec. pose proof (sorted_neighbours l j prev c Hs Ep Ec) as Hle.
  unfold cue_le, cue_lt, overlaps in *. destruct (Z.ltb_spec (start c) (start prev)); [lia|].
  reflexivity.
Qed.

(** No flag at all exactly when every cue starts at or after the end of
    the previous one and neither starts nor ends before it. *)
Theorem overlap_free subs :
  overlap_list subs = [] <->
  forall j prev c, nth_error subs j = Some prev -> nth_error subs (S j) = Some c ->
    (start prev <= start c /\ end_ prev <= end_ c /\ end_ prev <= start c)%Z.
Proof.
  split.
  - intros Hnil j prev c Ep Ec. destruct (overlaps prev c) eqn:Eo.
    + exfalso. assert (In (S j) (overlap_list subs)) as Hin
        by (apply overlap_list_in; exists j, prev, c; auto).
      rewrite Hnil in Hin. destruct Hin.
    + unfold overlaps in Eo. lia.
  - intros H. destruct (overlap_list subs) as [|i l] eqn:E; [reflexivity|].
    assert (In i (overlap_list subs)) as Hin by (rewrite E; left; reflexivity).
    apply overlap_list_in in Hin as [j [prev [c [-> [Ep [Ec Eo]]]]]].
    specialize (H j prev c Ep Ec). unfold overlaps in Eo. lia.
Qed.

(** ** Witnesses *)

