(* ===== verification/ReplaceNth.v ===== *)
(** * [replace_nth] (lines 55-75)

    [replace_nth(s, sub, repl, n)] looks for the [n]-th occurrence of
    [sub] in [s] by repeated [s.find(sub, find + 1)] (occurrences may
    overlap) and replaces it.  [i] starts at [find != -1] (a boolean used as
    0 or 1) and counts the occurrences found; the loop stops when [find]
    is [-1] or [i == n]; the slice is taken when [i == n].  The loop is
    modelled with a counter of [len(s) + 2] iterations, which is enough
    ([find_loop_exits]): each iteration moves [find] strictly forward
    inside [s] or sets it to [-1].

    The theorems: the [n]-th occurrence is replaced when there is one;
    when [n] is one past the last occurrence the loop ends with
    [find == -1] and [i == n], and the slice [s[:-1] + repl + s[len(sub)-1:]]
    corrupts the string. *)

From Stdlib Require Import String.
From Stdlib Require Import List ZArith Lia Bool.
Import ListNotations.
From S2P Require Import Prelude PyStr.

(** Lines 68-71: [while find != -1 and i != n: find = s.find(sub, find + 1); i += 1]. *)
Fixpoint find_loop (fuel : nat) (s sub : str) (find : Z) (i n : Z) : Z * Z :=
  match fuel with
  | O => (find, i)
  | S f =>
      if negb (find =? -1)%Z && negb (i =? n)%Z
      then find_loop f s sub (find_from sub s (find + 1)) (i + 1) n
      else (find, i)
  end.

(** Lines 55-75. *)
Definition replace_nth (s sub repl : str) (n : Z) : str :=
  let find0 := find sub s in
  let i0 := if negb (find0 =? -1)%Z then 1%Z else 0%Z in
  let '(find1, i1) := find_loop (length s + 2) s sub find0 i0 n in
  if (i1 =? n)%Z
  then slice_to find1 s ++ repl ++ slice_from (find1 + Z.of_nat (length sub)) s
  else s.

(** [sub] occurs at position [p] of [s]. *)
Definition occ (sub s : str) (p : nat) : bool := is_prefix sub (skipn p s).

(** The number of occurrences starting before [p]. *)
Definition count_below (sub s : str) (p : nat) : nat := length (filter (occ sub s) (seq 0 p)).

Definition count_total (sub s : str) : nat := count_below sub s (S (length s)).

(** ** [str.find] *)

Lemma break_on_none_prefix (sep t : str) :
  break_on sep t = None -> forall q, is_prefix sep (skipn q t) = false.
Proof.
  intros H q. destruct (is_prefix sep (skipn q t)) eqn:P; [|reflexivity].
  apply is_prefix_spec in P as [r Hr]. exfalso.
  apply (break_on_none _ _ H (firstn q t) r). rewrite <- Hr, firstn_skipn. reflexivity.
Qed.

Lemma break_on_first (sep t a b : str) :
  break_on sep t = Some (a, b) -> forall q, q < length a -> is_prefix sep (skipn q t) = false.
Proof.
  revert a b; induction t as [|c t IH]; intros a b H q Hq; simpl in H;
    destruct (is_prefix sep _) eqn:P; try discriminate;
    try (injection H as <- <-; simpl in Hq; lia).
  destruct (break_on sep t) as [[a' b']|] eqn:B; [|discriminate].
  injection H as <- <-. destruct q as [|q]; [exact P|].
  apply (IH a' b' eq_refl). simpl in Hq. lia.
Qed.

Lemma occ_beyond (sub s : str) (q : nat) : sub <> [] -> length s <= q -> occ sub s q = false.
Proof.
  intros Hs Hq. unfold occ. rewrite skipn_all2 by exact Hq. destruct sub; [congruence|reflexivity].
Qed.

Lemma occ_skipn (sub s : str) (k d : nat) : occ sub s (d + k) = is_prefix sub (skipn d (skipn k s)).
Proof. unfold occ. rewrite skipn_skipn. reflexivity. Qed.

(** [s.find(sub, k)] for [k >= 0] and a non-empty [sub] is the first
    occurrence at or after [k], or [-1] when there is none. *)
Lemma find_from_spec (sub s : str) (k : nat) :
  sub <> [] ->
  (exists p, find_from sub s (Z.of_nat k) = Z.of_nat p /\ k <= p /\ occ sub s p = true /\
             forall q, k <= q < p -> occ sub s q = false) \/
  (find_from sub s (Z.of_nat k) = (-1)%Z /\ forall q, k <= q -> occ sub s q = false).
Proof.
  intros Hs. unfold find_from.
  replace (Z.of_nat k <? 0)%Z with false by (symmetry; apply Z.ltb_ge; lia).
  destruct (Z.of_nat (length s) <? Z.of_nat k)%Z eqn:L.
  - right. split; [reflexivity|]. intros q Hq. apply occ_beyond; [exact Hs|lia].
  - rewrite Nat2Z.id. destruct (break_on sub (skipn k s)) as [[a b]|] eqn:B.
    + left. exists (k + length a). repeat split; [lia|lia| |].
      * rewrite Nat.add_comm, occ_skipn, (break_on_some _ _ _ _ B), skipn_app_exact.
        apply is_prefix_app.
      * intros q Hq. replace q with ((q - k) + k) by lia. rewrite occ_skipn.
        apply (break_on_first _ _ _ _ B). lia.
    + right. split; [reflexivity|]. intros q Hq. replace q with ((q - k) + k) by lia.
      rewrite occ_skipn. apply break_on_none_prefix, B.
Qed.

(** Without any condition on [sub], [s.find(sub, k)] for [k >= 0] is [-1]
    or an index in [[k, len(s)]]. *)
Lemma find_from_range (sub s : str) (k : Z) :
  (0 <= k)%Z -> find_from sub s k = (-1)%Z \/ (k <= find_from sub s k <= Z.of_nat (length s))%Z.
Proof.
  intros Hk. unfold find_from. replace (k <? 0)%Z with false by (symmetry; apply Z.ltb_ge; lia).
  destruct (Z.of_nat (length s) <? k)%Z eqn:L; [left; reflexivity|].
  apply Z.ltb_ge in L.
  destruct (break_on sub (skipn (Z.to_nat k) s)) as [[a b]|] eqn:B; [right|left; reflexivity].
  apply break_on_some in B. apply (f_equal (@length _)) in B.
  rewrite length_skipn, !length_app in B. lia.
Qed.

(** ** Counting occurrences *)

Lemma count_below_S (sub s : str) (p : nat) :
  count_below sub s (S p) = count_below sub s p + (if occ sub s p then 1 else 0).
Proof.
  unfold count_below. rewrite seq_S, filter_app, length_app. simpl.
  destruct (occ sub s p); simpl; lia.
Qed.

Lemma count_below_gap (sub s : str) (a d : nat) :
  (forall q, a <= q < a + d -> occ sub s q = false) -> count_below sub s (a + d) = count_below sub s a.
Proof.
  induction d as [|d IH]; intros H; [rewrite Nat.add_0_r; reflexivity|].
  rewrite Nat.add_succ_r, count_below_S, H by lia. rewrite IH by (intros; apply H; lia). lia.
Qed.

Lemma count_below_mono (sub s : str) (a b : nat) : a <= b -> count_below sub s a <= count_below sub s b.
Proof.
  intros H. replace b with (a + (b - a)) by lia. generalize (b - a) as d.
  induction d as [|d IH]; [rewrite Nat.add_0_r; lia|].
  rewrite Nat.add_succ_r, count_below_S. lia.
Qed.

Lemma occ_lt_length (sub s : str) (p : nat) : sub <> [] -> occ sub s p = true -> p < length s.
Proof.
  intros Hs Hp. destruct (le_lt_dec (length s) p) as [L|L]; [|exact L].
  rewrite occ_beyond in Hp by auto. discriminate.
Qed.

(** The occurrence found after an occurrence [p] is the next one in the
    count, or there is none and [p] was the last. *)
Lemma find_next (sub s : str) (p : nat) :
  sub <> [] -> occ sub s p = true ->
  (exists q, find_from sub s (Z.of_nat p + 1) = Z.of_nat q /\ p < q /\ occ sub s q = true /\
             count_below sub s q = count_below sub s p + 1) \/
  (find_from sub s (Z.of_nat p + 1) = (-1)%Z /\ count_total sub s = count_below sub s p + 1 /\
   forall r, p < r -> occ sub s r = false).
Proof.
  intros Hs Hp. replace (Z.of_nat p + 1)%Z with (Z.of_nat (S p)) by lia.
  destruct (find_from_spec sub s (S p) Hs) as [[q [Eq [Hq [Oq Gap]]]]|[Eq Gap]].
  - left. exists q. split; [exact Eq|]. split; [lia|]. split; [exact Oq|].
    replace q with (S p + (q - S p)) by lia. rewrite count_below_gap by (intros; apply Gap; lia).
    rewrite count_below_S, Hp. lia.
  - right. split; [exact Eq|]. split; [|intros; apply Gap; lia].
    pose proof (occ_lt_length _ _ _ Hs Hp).
    unfold count_total. replace (S (length s)) with (S p + (length s - p)) by lia.
    rewrite count_below_gap by (intros; apply Gap; lia). rewrite count_below_S, Hp. lia.
Qed.

Lemma count_below_total (sub s : str) (p : nat) :
  sub <> [] -> occ sub s p = true -> count_below sub s p + 1 <= count_total sub s.
Proof.
  intros Hs Hp. pose proof (occ_lt_length _ _ _ Hs Hp).
  unfold count_total. pose proof (count_below_mono sub s (S p) (S (length s)) ltac:(lia)).
  rewrite count_below_S, Hp in H0. lia.
Qed.

(** ** The loop *)

Lemma find_loop_stop (fuel : nat) (s sub : str) (i n : Z) :
  find_loop fuel s sub (-1) i n = ((-1)%Z, i).
Proof. destruct fuel; reflexivity. Qed.

Lemma find_loop_found (fuel : nat) (s sub : str) (find n : Z) :
  find_loop fuel s sub find n n = (find, n).
Proof. destruct fuel; simpl; [reflexivity|]. rewrite Z.eqb_refl, andb_false_r. reflexivity. Qed.

Lemma count_below_lt (sub s : str) (p q : nat) :
  occ sub s p = true -> p < q -> count_below sub s p + 1 <= count_below sub s q.
Proof.
  intros Hp Hq. pose proof (count_below_mono sub s (S p) q Hq). rewrite count_below_S, Hp in H. lia.
Qed.

(** Started at the [k]-th occurrence [p] with [i = k], the loop stops at
    a later occurrence [p'] when [n] is its rank. *)
Lemma find_loop_hit (sub s : str) (fuel p p' : nat) :
  sub <> [] -> occ sub s p = true -> occ sub s p' = true -> p <= p' -> length s - p < fuel ->
  find_loop fuel s sub (Z.of_nat p) (Z.of_nat (count_below sub s p + 1))
            (Z.of_nat (count_below sub s p' + 1)) =
  (Z.of_nat p', Z.of_nat (count_below sub s p' + 1)).
Proof.
  intros Hs. revert p; induction fuel as [|f IH]; intros p Op Op' Hle Hf; [lia|].
  destruct (Nat.eq_dec p p') as [<-|Hne]; [apply find_loop_found|].
  assert (p < p') as Hlt by lia. pose proof (count_below_lt _ _ _ _ Op Hlt).
  cbn [find_loop]. rewrite !(proj2 (Z.eqb_neq _ _)) by lia. cbn [negb andb].
  destruct (find_next sub s p Hs Op) as [[q [Eq [Hq [Oq Cq]]]]|[Eq [Ct Gap]]].
  - rewrite Eq. replace (Z.of_nat (count_below sub s p + 1) + 1)%Z
      with (Z.of_nat (count_below sub s q + 1)) by lia.
    assert (q <= p'). { destruct (le_lt_dec q p'); auto.
      pose proof (count_below_lt _ _ _ _ Op' l). lia. }
    pose proof (occ_lt_length _ _ _ Hs Oq). apply IH; auto; lia.
  - rewrite Gap in Op' by lia. discriminate.
Qed.

(** When no occurrence from [p] on has rank [n], the loop runs past the
    last occurrence and ends with [find = -1] and [i = count + 1]. *)
Lemma find_loop_exhaust (sub s : str) (fuel p : nat) (n : Z) :
  sub <> [] -> occ sub s p = true ->
  (forall p', p <= p' -> occ sub s p' = true -> Z.of_nat (count_below sub s p' + 1) <> n) ->
  length s - p < fuel ->
  find_loop fuel s sub (Z.of_nat p) (Z.of_nat (count_below sub s p + 1)) n =
  ((-1)%Z, Z.of_nat (count_total sub s + 1)).
Proof.
  intros Hs. revert p; induction fuel as [|f IH]; intros p Op Hn Hf; [lia|].
  cbn [find_loop]. rewrite (proj2 (Z.eqb_neq _ (-1))) by lia.
  rewrite (proj2 (Z.eqb_neq _ n)) by (apply Hn; auto). cbn [negb andb].
  destruct (find_next sub s p Hs Op) as [[q [Eq [Hq [Oq Cq]]]]|[Eq [Ct Gap]]].
  - rewrite Eq. replace (Z.of_nat (count_below sub s p + 1) + 1)%Z
      with (Z.of_nat (count_below sub s q + 1)) by lia.
    pose proof (occ_lt_length _ _ _ Hs Oq). apply IH; auto; [|lia].
    intros p' Hp'. apply Hn. lia.
  - rewrite Eq, find_loop_stop, Ct. f_equal. lia.
Qed.

(** Each iteration moves [find] forward inside [s] or to [-1], so
    [len(s) + 1 - find] iterations bring the loop to its exit. *)
Lemma find_loop_exits_gen (fuel : nat) (s sub : str) (find i n : Z) :
  find = (-1)%Z \/
  (0 <= find <= Z.of_nat (length s) /\ Z.of_nat (length s) + 1 - find < Z.of_nat fuel)%Z ->
  fst (find_loop fuel s sub find i n) = (-1)%Z \/ snd (find_loop fuel s sub find i n) = n.
Proof.
  revert find i; induction fuel as [|f IH]; intros find i H; cbn [find_loop].
  - left. destruct H; [assumption|lia].
  - destruct (find =? -1)%Z eqn:F; cbn [negb andb fst snd]; [left; apply Z.eqb_eq, F|].
    destruct (i =? n)%Z eqn:I; cbn [negb andb fst snd]; [right; apply Z.eqb_eq, I|].
    apply IH. destruct H as [H|H]; [apply Z.eqb_neq in F; contradiction|].
    destruct (find_from_range sub s (find + 1) ltac:(lia)); [left|right]; lia.
Qed.

(** The first occurrence has rank 1; without one, [count_total] is 0. *)
Lemma find_first (sub s : str) :
  sub <> [] ->
  (exists p0, find sub s = Z.of_nat p0 /\ occ sub s p0 = true /\ count_below sub s p0 = 0) \/
  (find sub s = (-1)%Z /\ count_total sub s = 0 /\ forall q, occ sub s q = false).
Proof.
  intros Hs. unfold find. change 0%Z with (Z.of_nat 0).
  destruct (find_from_spec sub s 0 Hs) as [[p0 [E0 [_ [O0 G0]]]]|[E0 G0]].
  - left. exists p0. split; [exact E0|]. split; [exact O0|].
    assert (G : forall q, 0 <= q < 0 + p0 -> occ sub s q = false) by (intros; apply G0; lia).
    apply count_below_gap in G. exact G.
  - right. split; [exact E0|]. split; [|intros; apply G0; lia].
    unfold count_total. change (S (length s)) with (0 + S (length s)).
    rewrite count_below_gap by (intros; apply G0; lia). reflexivity.
Qed.

Lemma i0_rank (sub s : str) (p0 : nat) :
  count_below sub s p0 = 0 ->
  (if negb (Z.of_nat p0 =? -1)%Z then 1%Z else 0%Z) = Z.of_nat (count_below sub s p0 + 1).
Proof. intros ->. rewrite (proj2 (Z.eqb_neq _ _)) by lia. reflexivity. Qed.

(** ** Behaviour of [replace_nth] *)

(** C13. When [sub] is non-empty and occurs at [p], [replace_nth] called
    with the rank of that occurrence (occurrences counted from 1,
    overlapping ones included) replaces exactly that occurrence by [repl]. *)
Theorem replace_nth_nth_occurrence (s sub repl : str) (p : nat) :
  sub <> [] -> occ sub s p = true ->
  replace_nth s sub repl (Z.of_nat (count_below sub s p + 1)) =
  firstn p s ++ repl ++ skipn (p + length sub) s.
Proof.
  intros Hs Op. unfold replace_nth.
  destruct (find_first sub s Hs) as [[p0 [E0 [O0 C0]]]|[_ [_ G]]]; [|rewrite G in Op; discriminate].
  assert (p0 <= p) by (destruct (le_lt_dec p0 p); auto; pose proof (count_below_lt _ _ _ _ Op l); lia).
  rewrite E0, (i0_rank _ _ _ C0), find_loop_hit by (auto; lia).
  rewrite Z.eqb_refl, <- Nat2Z.inj_add, slice_to_of_nat, slice_from_of_nat. reflexivity.
Qed.

(** C14. When [sub] occurs [count >= 1] times and [n = count + 1], the loop
    runs past the last occurrence and stops with [find == -1] and
    [i == n]; the code then returns [s[:-1] + repl + s[len(sub)-1:]]
    instead of [s]. *)
Theorem replace_nth_past_last (s sub repl : str) :
  sub <> [] -> 1 <= count_total sub s ->
  replace_nth s sub repl (Z.of_nat (count_total sub s + 1)) =
  slice_to (-1) s ++ repl ++ slice_from (Z.of_nat (length sub) - 1) s.
Proof.
  intros Hs Hc. unfold replace_nth.
  destruct (find_first sub s Hs) as [[p0 [E0 [O0 C0]]]|[_ [C _]]]; [|lia].
  rewrite E0, (i0_rank _ _ _ C0), find_loop_exhaust; auto; [|intros p' _ Op'; pose proof
    (count_below_total _ _ _ Hs Op'); lia | lia].
  rewrite Z.eqb_refl. do 3 f_equal. lia.
Qed.

(** C15. When [sub] does not occur in [s], [replace_nth(s, sub, repl, 0)]
    meets [i == n] at once with [find == -1] and returns
    [s[:-1] + repl + s[len(sub)-1:]]. *)
Theorem replace_nth_absent_zero (s sub repl : str) :
  sub <> [] -> count_total sub s = 0 ->
  replace_nth s sub repl 0 = slice_to (-1) s ++ repl ++ slice_from (Z.of_nat (length sub) - 1) s.
Proof.
  intros Hs Hc. unfold replace_nth.
  destruct (find_first sub s Hs) as [[p0 [_ [O0 _]]]|[E0 _]];
    [pose proof (count_below_total _ _ _ Hs O0); lia|].
  rewrite E0, find_loop_stop, (Z.eqb_refl (-1)). cbn [negb]. rewrite Z.eqb_refl.
  do 3 f_equal. lia.
Qed.

(** For every other [n] (negative, [0] when [sub] occurs, beyond
    [count + 1], or [1] when [sub] does not occur) [replace_nth] returns
    [s] unchanged. *)
Theorem replace_nth_unchanged (s sub repl : str) (n : Z) :
  sub <> [] ->
  (n < 0)%Z \/ (Z.of_nat (count_total sub s + 1) < n)%Z \/
  (n = 0%Z /\ count_total sub s <> 0) \/ (n = 1%Z /\ count_total sub s = 0) ->
  replace_nth s sub repl n = s.
Proof.
  intros Hs Hn. unfold replace_nth.
  destruct (find_first sub s Hs) as [[p0 [E0 [O0 C0]]]|[E0 [Hc _]]].
  - pose proof (count_below_total _ _ _ Hs O0).
    rewrite E0, (i0_rank _ _ _ C0), find_loop_exhaust; auto;
      [|intros p' _ Op'; pose proof (count_below_total _ _ _ Hs Op'); lia | lia].
    rewrite (proj2 (Z.eqb_neq _ _)) by lia. reflexivity.
  - rewrite E0, find_loop_stop, (Z.eqb_refl (-1)). cbn [negb].
    rewrite (proj2 (Z.eqb_neq _ _)) by lia. reflexivity.
Qed.

(** C16. The counter of [len(s) + 2] iterations is enough: the modelled
    [while] loop of [replace_nth] always ends in a state where its
    condition [find != -1 and i != n] is false, for every [s], [sub]
    (empty included) and [n]. *)
Theorem replace_nth_loop_exits (s sub : str) (n : Z) :
  let i0 := if negb (find sub s =? -1)%Z then 1%Z else 0%Z in
  fst (find_loop (length s + 2) s sub (find sub s) i0 n) = (-1)%Z \/
  snd (find_loop (length s + 2) s sub (find sub s) i0 n) = n.
Proof.
  intros i0. apply find_loop_exits_gen. unfold find.
  destruct (find_from_range sub s 0 (Z.le_refl 0)); [left|right]; lia.
Qed.

(** ** Witnesses *)

Lemma replace_nth_nth_occurrence_witness :
  occ (u "b") (u "abcbd") 3 = true /\
  replace_nth (u "abcbd") (u "b") (u "X") (Z.of_nat (count_below (u "b") (u "abcbd") 3 + 1)) = u "abcXd".
Proof.
  split; [reflexivity|].
  rewrite replace_nth_nth_occurrence; [reflexivity | vm_compute; discriminate | reflexivity].
Defined.

Lemma replace_nth_past_last_witness :
  1 <= count_total (u "b") (u "abcbd") /\
  replace_nth (u "abcbd") (u "b") (u "X") (Z.of_nat (count_total (u "b") (u "abcbd") + 1)) =
  u "abcbXabcbd".
Proof.
  split; [apply Nat.leb_le; reflexivity|].
  rewrite replace_nth_past_last; [reflexivity | vm_compute; discriminate | apply Nat.leb_le; reflexivity].
Defined.

Lemma replace_nth_absent_zero_witness :
  count_total (u "x") (u "abc") = 0 /\ replace_nth (u "abc") (u "x") (u "Y") 0 = u "abYabc".
Proof.
  split; [reflexivity|].
  rewrite replace_nth_absent_zero; [reflexivity | vm_compute; discriminate | reflexivity].
Defined.

