(* ===== verification/PostSort.v ===== *)
(** * The post-sort loop: lines 414-447 of [translate_subtitle]

    After [subs.sort()] the script walks the sorted track once and, for
    cue [i]:
    - rewrites its text (lines 420-426): ['）\\n（'] becomes ['\\n']; when
      the text holds an annotation [（註：...）\\n] it is split on
      ['）\\n'] and rebuilt as [tmp[1] + '\\n' + tmp[0] + '）']; double
      spaces become single ones;
    - reports the characters outside a whitelist (lines 428-434,
      diagnostic output only: [illegal_characters]);
    - reflows the text with [fix_overlength] (line 437);
    - compares its times with the previous cue (lines 440-443);
    - stamps [index = i + 1] on every typo record with the same
      [(start, end)] (lines 445-447).  The typo records are dictionaries
      shared with [typo_compare_list] and updated in place; the model
      threads that list through the loop.
    The loop's state is the record [post_state]; an [Err] is a Python
    exception ([tmp[1]] when the split has one part). *)

From Stdlib Require Import String.
From Stdlib Require Import List ZArith Lia Bool.
Import ListNotations.
From S2P Require Import Prelude PyStr Regex Width Reflow Cue Merger Overlap.
Open Scope sub_scope.

(** ['）\\n（'] and ['）\\n'] (lines 421 and 423). *)
Definition paren_join : str := rparen ++ esc_n ++ lparen.
Definition close_esc : str := rparen ++ esc_n.

(** [ord('）')]. *)
Definition fw_rparen : char := 65289%Z.

(** [r'（註：.+?）\\n'] with [re.S] (line 422). *)
Definition note_mark : str := u "（註：".
Definition note_re : regex := seqs [lit note_mark; plus false (Dot true); lit close_esc].

(** Lines 420-425: the text before the reflow. *)
Definition relocate_note (text : str) : result str :=
  let text := replace paren_join esc_n text in
  text <- (if found note_re text then
             let tmp := split close_esc text in
             t1 <- of_option (nth_error tmp 1) IndexError ;;
             t0 <- of_option (nth_error tmp 0) IndexError ;;
             Ok (t1 ++ esc_n ++ t0 ++ rparen)
           else Ok text) ;;
  Ok (replace [32; 32]%Z [32]%Z text).

(** The whitelist of line 429, as the parser of [re] reads it: [α],
    ASCII letters and digits, the CJK ideographs, ASCII and full-width
    punctuation, the arrows, the symbols [♥★♪©] and the line feed. *)
Definition allowed_items : list (char * char) :=
  [(945, 945); (97, 122); (65, 90); (48, 57); (19968, 40959)]%Z ++
  map (fun c => (c, c))
    [33; 63; 91; 93; 123; 125; 38; 47; 92; 44; 46; 59; 58; 40; 41; 37; 36; 62; 60;
     61; 39; 34; 126; 43; 45; 42; 32; 65288; 65289; 65292; 12290; 12289; 8212;
     8212; 65291; 65281; 215; 65311; 8265; 65038; 65306; 12539; 8230; 12300;
     12301; 65295; 8594; 8592; 12296; 12297; 12298; 12299; 65310; 65308; 65374;
     65285; 65372; 9829; 9733; 9834; 65286; 169; 10]%Z.

Definition illegal_re : regex := Cls true allowed_items.

(** Line 428: [illegal_character = re.findall(..., text)]. *)
Definition illegal_characters (text : str) : list str := findall illegal_re text.

(** Lines 445-447 for one record. *)
Definition stamp_index (i : nat) (sub : cue) (t : typo) : typo :=
  if ((t_start t =? start sub) && (t_end t =? end_ sub))%Z
  then {| t_start := t_start t; t_end := t_end t; original_text := original_text t;
          new_text := new_text t; t_index := Some (S i) |}
  else t.

Record post_state := {
  ps_subs : list cue;
  ps_typos : list typo;
  ps_overlap_num : nat;
  ps_overlap_list : list nat;
  ps_illegal : list (nat * list str)     (** the printed reports: [i + 1] and the characters *)
}.

Section Loop.
Context `{UnicodeDB}.

(** Lines 420-447: one iteration. *)
Definition post_step (st : post_state) (i : nat) : result post_state :=
  sub <- of_option (nth_error (ps_subs st) i) IndexError ;;
  text <- relocate_note (text sub) ;;
  let ill := illegal_characters text in
  let illegal := if 0 <? length ill then ps_illegal st ++ [(S i, ill)] else ps_illegal st in
  let subs := list_set i (with_text sub (fix_overlength text)) (ps_subs st) in
  ov <- (match i with
         | O => Ok (ps_overlap_num st, ps_overlap_list st)
         | S j =>
             prev <- of_option (nth_error subs j) IndexError ;;
             if overlaps prev sub
             then Ok (S (ps_overlap_num st), ps_overlap_list st ++ [i])
             else Ok (ps_overlap_num st, ps_overlap_list st)
         end) ;;
  Ok {| ps_subs := subs;
        ps_typos := map (stamp_index i sub) (ps_typos st);
        ps_overlap_num := fst ov;
        ps_overlap_list := snd ov;
        ps_illegal := illegal |}.

(** Lines 416-447. *)
Definition post_sort (subs : list cue) (typos : list typo) : result post_state :=
  fold_left (fun acc i => bind acc (fun st => post_step st i))
            (seq 0 (length subs))
            (Ok {| ps_subs := subs; ps_typos := typos; ps_overlap_num := 0;
                   ps_overlap_list := []; ps_illegal := [] |}).

End Loop.

(** ** The loop's result after [k] iterations

    The reference the loop is proved against: the first [k] cues carry
    their reflowed text, each typo record carries the index of the last
    of the first [k] cues with its times, the overlap list is the one of
    [Overlap] restricted to the first [k] indices. *)

(** The relocated text; [relocate_note] never raises ([relocate_note_ok]). *)
Definition relocated (t : str) : str := match relocate_note t with Ok x => x | Err _ => t end.

Definition same_time_typo (t : typo) (c : cue) : bool :=
  ((t_start t =? start c) && (t_end t =? end_ c))%Z.

Section PostSortSpec.
Context `{UnicodeDB}.

Definition post_text (c : cue) : str := fix_overlength (relocated (text c)).

Definition stamp_upto (subs : list cue) (k : nat) (t : typo) : typo :=
  fold_left (fun t i => match nth_error subs i with Some c => stamp_index i c t | None => t end)
            (seq 0 k) t.

Definition illegal_at (subs : list cue) (i : nat) : list (nat * list str) :=
  match nth_error subs i with
  | Some c => let ill := illegal_characters (relocated (text c)) in
              if 0 <? length ill then [(S i, ill)] else []
  | None => []
  end.

Definition post_state_upto (subs : list cue) (typos : list typo) (k : nat) : post_state :=
  {| ps_subs := firstn k (map (fun c => with_text c (post_text c)) subs) ++ skipn k subs;
     ps_typos := map (stamp_upto subs k) typos;
     ps_overlap_num := length (flat_map (overlap_at subs) (seq 0 k));
     ps_overlap_list := flat_map (overlap_at subs) (seq 0 k);
     ps_illegal := flat_map (illegal_at subs) (seq 0 k) |}.

End PostSortSpec.

(** ** The annotation relocation *)

Lemma note_mark_chars : note_mark = [65288; 35387; 65306]%Z.
Proof. reflexivity. Qed.

Lemma close_esc_chars : close_esc = [65289; 92; 110]%Z.
Proof. reflexivity. Qed.

Lemma paren_join_chars : paren_join = [65289; 92; 110; 65288]%Z.
Proof. reflexivity. Qed.

(** Membership of a character in concatenations of the texts at hand. *)
Ltac not_in_parts :=
  rewrite ?note_mark_chars, ?close_esc_chars, ?paren_join_chars;
  let H := fresh in intros H;
  repeat match goal with
         | H : In _ (_ ++ _) |- _ => apply in_app_iff in H; destruct H as [H|H]
         | H : In _ (_ :: _) |- _ => destruct H as [H|H]
         | H : In _ [] |- _ => destruct H
         end;
  try discriminate; try contradiction.

(** When ['）\\n（'] does not occur, the annotation test succeeds and the
    split has two parts at least, the relocation rebuilds the text from
    the first two parts. *)
Lemma relocate_note_split (T t0 t1 : str) (r : list str) :
  contains paren_join T = false -> found note_re T = true -> split close_esc T = t0 :: t1 :: r ->
  relocate_note T = Ok (replace [32; 32]%Z [32]%Z (t1 ++ esc_n ++ t0 ++ rparen)).
Proof.
  intros Hc Hf Hs. unfold relocate_note.
  rewrite replace_absent by (rewrite ?paren_join_chars; first [discriminate | exact Hc]).
  rewrite Hf, Hs. reflexivity.
Qed.

Lemma no_paren_join (n rest : str) :
  ~ In 65288%Z n -> ~ In 65288%Z rest -> contains paren_join (note_mark ++ n ++ rest) = false.
Proof.
  intros Hn Hr. rewrite paren_join_chars, note_mark_chars.
  change [65289; 92; 110; 65288]%Z with ([65289; 92; 110] ++ [65288])%Z.
  apply contains_last_absent; [discriminate|]. not_in_parts.
Qed.

Lemma found_note (n rest : str) : n <> [] -> found note_re (note_mark ++ n ++ close_esc ++ rest) = true.
Proof. intros Hn. apply found_mark_dots_mark, Hn. Qed.

Lemma split_note (n rest : str) :
  ~ In fw_rparen n -> split close_esc (note_mark ++ n ++ close_esc ++ rest) = (note_mark ++ n) :: split close_esc rest.
Proof.
  intros Hn. rewrite app_assoc. apply (split_app_sep _ _ _ fw_rparen); [reflexivity|].
  unfold fw_rparen in *. not_in_parts.
Qed.

(** ** The loop *)

(** The relocation never raises: when the annotation test succeeds the
    text holds ['）\\n'], so [tmp] has two parts at least. *)
Lemma relocate_note_ok (t : str) : relocate_note t = Ok (relocated t).
Proof.
  unfold relocated. destruct (relocate_note t) eqn:E; [reflexivity|]. exfalso. revert E.
  unfold relocate_note. set (x := replace paren_join esc_n t).
  destruct (found note_re x) eqn:F; [|discriminate].
  change note_re with (seqs ([lit note_mark; plus false (Dot true)] ++ [lit close_esc])) in F.
  apply found_seqs_lit_contains in F as [a [b Hx]]. rewrite Hx.
  destruct (split_two close_esc a b) as [t0 [t1 [r ->]]]; [rewrite close_esc_chars; discriminate|].
  simpl. discriminate.
Qed.

Section PostSortProps.
Context `{UnicodeDB}.

Lemma stamp_upto_S (subs : list cue) (k : nat) (t : typo) :
  stamp_upto subs (S k) t =
  match nth_error subs k with Some c => stamp_index k c (stamp_upto subs k t) | None => stamp_upto subs k t end.
Proof. unfold stamp_upto. rewrite seq_S, fold_left_app. reflexivity. Qed.

(** The overlap test of one iteration against the reference list. *)
Lemma overlap_step (subs l' : list cue) (k : nat) (c : cue) (n : nat) (ol : list nat) :
  nth_error subs k = Some c ->
  (forall j x, k = S j -> nth_error subs j = Some x -> nth_error l' j = Some (with_text x (post_text x))) ->
  match k with
  | O => Ok (n, ol)
  | S j => prev <- of_option (nth_error l' j) IndexError ;;
           if overlaps prev c then Ok (S n, ol ++ [k]) else Ok (n, ol)
  end = Ok (n + length (overlap_at subs k), ol ++ overlap_at subs k).
Proof.
  intros Ec Hl. destruct k as [|j]; [simpl; rewrite Nat.add_0_r, app_nil_r; reflexivity|].
  unfold overlap_at. rewrite Ec.
  assert (S j < length subs) by (apply nth_error_Some; congruence).
  destruct (nth_error subs j) as [x|] eqn:Ex; [|apply nth_error_None in Ex; lia].
  rewrite (Hl j x eq_refl Ex). cbn [of_option bind].
  change (overlaps (with_text x (post_text x)) c) with (overlaps x c).
  destruct (overlaps x c); simpl; [rewrite Nat.add_1_r|rewrite Nat.add_0_r, app_nil_r]; reflexivity.
Qed.

Lemma post_sort_upto (subs : list cue) (typos : list typo) : forall k, k <= length subs ->
  fold_left (fun acc i => bind acc (fun st => post_step st i)) (seq 0 k)
    (Ok {| ps_subs := subs; ps_typos := typos; ps_overlap_num := 0;
           ps_overlap_list := []; ps_illegal := [] |}) =
  Ok (post_state_upto subs typos k).
Proof.
  induction k as [|k IH]; intros Hk.
  - unfold post_state_upto, stamp_upto. simpl. rewrite map_id. reflexivity.
  - rewrite seq_S, fold_left_app, IH by lia. cbn [fold_left bind]. change (0 + k) with k.
    destruct (nth_error subs k) as [c|] eqn:Ec; [|apply nth_error_None in Ec; lia].
    unfold post_step, post_state_upto. cbn [ps_subs ps_typos ps_overlap_num ps_overlap_list ps_illegal].
    set (M := map (fun c => with_text c (post_text c)) subs).
    assert (HM : length M = length subs) by apply length_map.
    assert (HMk : nth_error M k = Some (with_text c (post_text c)))
      by (unfold M; rewrite nth_error_map, Ec; reflexivity).
    rewrite nth_error_prefix_state, Ec by lia. cbn [of_option bind].
    rewrite relocate_note_ok. cbn [bind].
    change (fix_overlength (relocated (text c))) with (post_text c).
    rewrite (list_set_prefix k M subs _ HM HMk).
    rewrite (overlap_step subs (firstn (S k) M ++ skipn (S k) subs) k c _ _ Ec); [cbn [bind fst snd]|].
    + assert (Hill : illegal_at subs k =
        if 0 <? length (illegal_characters (relocated (text c)))
        then [(S k, illegal_characters (relocated (text c)))] else [])
        by (unfold illegal_at; rewrite Ec; reflexivity).
      rewrite seq_S, !flat_map_app, map_map, length_app. change (0 + k) with k.
      cbn [flat_map]. rewrite !app_nil_r, Hill.
      f_equal. f_equal.
      all: try (apply map_ext; intros t; rewrite stamp_upto_S, Ec; reflexivity).
      destruct (0 <? _); [reflexivity | rewrite app_nil_r; reflexivity].
    + intros j x -> Ex. rewrite nth_error_prefix_done by lia.
      unfold M. rewrite nth_error_map, Ex. reflexivity.
Qed.

Lemma stamp_index_fields (i : nat) (c : cue) (t : typo) :
  t_start (stamp_index i c t) = t_start t /\ t_end (stamp_index i c t) = t_end t /\
  original_text (stamp_index i c t) = original_text t /\ new_text (stamp_index i c t) = new_text t.
Proof. unfold stamp_index. destruct (_ && _); repeat split. Qed.

Lemma stamp_upto_fields (subs : list cue) (k : nat) (t : typo) :
  t_start (stamp_upto subs k t) = t_start t /\ t_end (stamp_upto subs k t) = t_end t /\
  original_text (stamp_upto subs k t) = original_text t /\ new_text (stamp_upto subs k t) = new_text t.
Proof.
  induction k as [|k IH]; [repeat split|]. rewrite stamp_upto_S.
  destruct (nth_error subs k) as [c|]; [|exact IH].
  destruct (stamp_index_fields k c (stamp_upto subs k t)) as [A [B [C D]]].
  rewrite A, B, C, D. exact IH.
Qed.

Lemma stamp_index_same (i : nat) (c : cue) (t : typo) :
  same_time_typo t c = true -> t_index (stamp_index i c t) = Some (S i).
Proof. unfold stamp_index, same_time_typo. intros ->. reflexivity. Qed.

Lemma stamp_index_other (i : nat) (c : cue) (t : typo) :
  same_time_typo t c = false -> stamp_index i c t = t.
Proof. unfold stamp_index, same_time_typo. intros ->. reflexivity. Qed.

Lemma same_time_stamp_upto (subs : list cue) (k : nat) (t : typo) (c : cue) :
  same_time_typo (stamp_upto subs k t) c = same_time_typo t c.
Proof.
  unfold same_time_typo. destruct (stamp_upto_fields subs k t) as [A [B _]]. rewrite A, B. reflexivity.
Qed.

(** A record with the times of one of the first [k] cues has an index. *)
Lemma stamp_upto_some (subs : list cue) (t : typo) : forall k i c,
  i < k -> nth_error subs i = Some c -> same_time_typo t c = true ->
  exists n, t_index (stamp_upto subs k t) = Some n.
Proof.
  induction k as [|k IH]; intros i c Hi Ec Hm; [lia|]. rewrite stamp_upto_S.
  destruct (nth_error subs k) as [c'|] eqn:Ek.
  - destruct (same_time_typo t c') eqn:M.
    + exists (S k). apply stamp_index_same. rewrite same_time_stamp_upto. exact M.
    + rewrite stamp_index_other by (rewrite same_time_stamp_upto; exact M).
      destruct (Nat.eq_dec i k) as [->|Hne]; [congruence|]. apply (IH i c); auto; lia.
  - destruct (Nat.eq_dec i k) as [->|Hne]; [congruence|]. apply (IH i c); auto; lia.
Qed.

Lemma stamp_upto_last (subs : list cue) (t : typo) (i : nat) (c : cue) : forall k,
  i < k -> nth_error subs i = Some c -> same_time_typo t c = true ->
  (forall j c', i < j -> j < k -> nth_error subs j = Some c' -> same_time_typo t c' = false) ->
  t_index (stamp_upto subs k t) = Some (S i).
Proof.
  induction k as [|k IH]; intros Hi Ec Hm Hlast; [lia|]. rewrite stamp_upto_S.
  destruct (Nat.eq_dec i k) as [<-|Hne].
  - rewrite Ec. apply stamp_index_same. rewrite same_time_stamp_upto. exact Hm.
  - destruct (nth_error subs k) as [c'|] eqn:Ek.
    + rewrite stamp_index_other by (rewrite same_time_stamp_upto; apply (Hlast k c'); auto; lia).
      apply IH; auto; [lia|]. intros j c'' Hj Hjk. apply Hlast; lia.
    + apply IH; auto; [lia|]. intros j c'' Hj Hjk. apply Hlast; lia.
Qed.

Lemma stamp_upto_none (subs : list cue) (t : typo) : forall k,
  (forall j c, j < k -> nth_error subs j = Some c -> same_time_typo t c = false) ->
  stamp_upto subs k t = t.
Proof.
  induction k as [|k IH]; intros Hn; [reflexivity|]. rewrite stamp_upto_S, IH by (intros; apply (Hn j c); auto; lia).
  destruct (nth_error subs k) as [c|] eqn:Ek; [|reflexivity].
  apply stamp_index_other, (Hn k c); auto.
Qed.

Lemma post_sort_result (subs : list cue) (typos : list typo) :
  post_sort subs typos =
  Ok {| ps_subs := map (fun c => with_text c (post_text c)) subs;
        ps_typos := map (stamp_upto subs (length subs)) typos;
        ps_overlap_num := overlap_num subs;
        ps_overlap_list := overlap_list subs;
        ps_illegal := flat_map (illegal_at subs) (seq 0 (length subs)) |}.
Proof.
  unfold post_sort. rewrite post_sort_upto by lia. unfold post_state_upto.
  rewrite firstn_all2, skipn_all, app_nil_r by (rewrite length_map; lia). reflexivity.
Qed.

End PostSortProps.

(** ** Claims *)

(** C17. For a cue text that starts with an annotation [（註：n）\\n]
    followed by one line [a] (no parentheses in [n] and [a]), the
    relocation puts the annotation after the line: [a\\n（註：n）] (then
    double spaces are collapsed).  The spec says the annotation is moved
    to precede the spoken line. *)
Theorem relocate_note_after_line (n a : str) :
  n <> [] -> ~ In fw_rparen n -> ~ In fw_lparen n -> ~ In fw_rparen a -> ~ In fw_lparen a ->
  relocate_note (note_mark ++ n ++ close_esc ++ a) =
  Ok (replace [32; 32]%Z [32]%Z (a ++ esc_n ++ note_mark ++ n ++ rparen)).
Proof.
  intros Hn R1 L1 R2 L2. rewrite (relocate_note_split _ (note_mark ++ n) a []).
  - rewrite <- app_assoc. reflexivity.
  - apply no_paren_join; [exact L1|]. unfold fw_lparen in *. not_in_parts.
  - apply found_note, Hn.
  - rewrite split_note by exact R1. rewrite (split_absent _ _ fw_rparen); auto.
Qed.

(** C18. When a second [）\\n] follows the line, as in
    [（註：n）\\na）\\nb], the split has three parts and the code keeps only
    [tmp[1]] and [tmp[0]]: the text [b] after the second separator is
    lost. *)
Theorem relocate_note_drops_rest (n a b : str) :
  n <> [] -> ~ In fw_rparen n -> ~ In fw_lparen n -> ~ In fw_rparen a -> ~ In fw_lparen a ->
  ~ In fw_lparen b ->
  relocate_note (note_mark ++ n ++ close_esc ++ a ++ close_esc ++ b) =
  Ok (replace [32; 32]%Z [32]%Z (a ++ esc_n ++ note_mark ++ n ++ rparen)).
Proof.
  intros Hn R1 L1 R2 L2 L3.
  rewrite (relocate_note_split _ (note_mark ++ n) a (split close_esc b)).
  - rewrite <- app_assoc. reflexivity.
  - apply no_paren_join; [exact L1|]. unfold fw_lparen in *. not_in_parts.
  - apply found_note, Hn.
  - rewrite split_note by exact R1. rewrite (split_app_sep _ _ _ fw_rparen); auto.
Qed.

Section PostSortClaims.
Context `{UnicodeDB}.

(** C19. The post-sort loop raises no exception on any track; it leaves
    the times of every cue as they are and gives each cue the reflow of
    its relocated text; its overlap count and list are [overlap_num] and
    [overlap_list] of [Overlap] on the sorted track; each typo record is
    stamped by [stamp_upto]. *)
Theorem post_sort_loop (subs : list cue) (typos : list typo) :
  post_sort subs typos =
  Ok {| ps_subs := map (fun c => with_text c (post_text c)) subs;
        ps_typos := map (stamp_upto subs (length subs)) typos;
        ps_overlap_num := overlap_num subs;
        ps_overlap_list := overlap_list subs;
        ps_illegal := flat_map (illegal_at subs) (seq 0 (length subs)) |}.
Proof. exact (post_sort_result subs typos). Qed.

(** A typo record whose times are those of cue [i], and of no later
    cue, leaves the loop with [index = i + 1] and its other fields
    unchanged: when several cues share the times, the last one wins. *)
Theorem post_sort_typo_index (subs : list cue) (typos : list typo) (m i : nat) (t : typo) (c : cue) :
  nth_error typos m = Some t -> nth_error subs i = Some c -> same_time_typo t c = true ->
  (forall j c', i < j -> nth_error subs j = Some c' -> same_time_typo t c' = false) ->
  exists st t', post_sort subs typos = Ok st /\ nth_error (ps_typos st) m = Some t' /\
    t_index t' = Some (S i) /\ t_start t' = t_start t /\ t_end t' = t_end t /\
    original_text t' = original_text t /\ new_text t' = new_text t.
Proof.
  intros Et Ec Hm Hlast. eexists. exists (stamp_upto subs (length subs) t).
  split; [apply post_sort_result|]. cbn [ps_typos]. rewrite nth_error_map, Et.
  split; [reflexivity|]. split; [|apply stamp_upto_fields].
  assert (i < length subs) by (apply nth_error_Some; congruence).
  apply (stamp_upto_last _ _ i c); auto. intros j c' Hj _. apply Hlast, Hj.
Qed.

End PostSortClaims.

(** ** Witnesses *)

Ltac concrete_side := first [ reflexivity | vm_compute; discriminate
                            | let H := fresh in intros H; vm_compute in H; intuition discriminate ].

Lemma relocate_note_after_line_witness :
  relocate_note (note_mark ++ u "甲" ++ close_esc ++ u "乙") = Ok (u "乙\n（註：甲）").
Proof. rewrite relocate_note_after_line; concrete_side. Defined.

Lemma relocate_note_drops_rest_witness :
  relocate_note (note_mark ++ u "甲" ++ close_esc ++ u "乙" ++ close_esc ++ u "丙") =
  Ok (u "乙\n（註：甲）").
Proof. rewrite relocate_note_drops_rest; concrete_side. Defined.

Lemma post_sort_typo_index_witness :
  exists st t',
    post_sort (H := ucd_sample) [mk_cue 0 10 (u "a"); mk_cue 0 10 (u "b"); mk_cue 20 30 (u "c")]
              [mk_typo 0 10 (u "x") (u "a") None] = Ok st /\
    nth_error (ps_typos st) 0 = Some t' /\ t_index t' = Some 2 /\ t_start t' = 0%Z /\ t_end t' = 10%Z /\
    original_text t' = u "x" /\ new_text t' = u "a".
Proof.
  apply (post_sort_typo_index _ _ 0 1 (mk_typo 0 10 (u "x") (u "a") None) (mk_cue 0 10 (u "b")));
    [reflexivity | reflexivity | reflexivity |].
  intros [|[|[|j]]] c' Hj E; try lia; [injection E as <-; reflexivity | destruct j; discriminate].
Defined.
