(* ===== verification/Pipeline.v ===== *)
(** * The cue pipeline of [translate_subtitle] (lines 169-447)

    [translate_core] runs the normalizer loop and its deletion batch, the
    merger loop and its deletion batch, [subs.sort()] and the post-sort
    loop, in that order, on the track [pysubs2.load] returned; file
    names, OpenCC conversion, saving and the reports are the I/O around
    it.  The theorems are about the whole pipeline: the sort
    post-condition of the spec and every typo record leaving with an
    index (so the diff report's [typo_compare['index']] never raises). *)

From Stdlib Require Import String.
From Stdlib Require Import List ZArith Lia Bool Sorting.Sorted Sorting.Permutation.
Import ListNotations.
From S2P Require Import Prelude PyStr Regex Width Reflow Cue Merger Normalizer Overlap PostSort.
Open Scope sub_scope.

Section Core.
Context `{Dictionary} `{UnicodeDB}.

(** Lines 169-447. *)
Definition translate_core (subs : list cue) : result post_state :=
  nt <- normalize_track subs ;;
  match nt with
  | (subs1, typos) =>
      subs2 <- merge_cues subs1 ;;
      post_sort (sort_cues subs2) typos
  end.

End Core.

(** A sample dictionary, to run examples: the typo pass corrects [里] to
    [裡]. *)
Definition typo_sample : Dictionary :=
  {| translate := fun t cat => match cat with TYPO => replace (u "里") (u "裡") t | _ => t end |}.

(** A sample track: a typo, cues out of order, an overlap. *)
Definition sample_track : list cue :=
  [mk_cue 3000 4000 (u "在這里"); mk_cue 1000 2000 (u "哈哈"); mk_cue 3500 5000 (u "好")].

Definition sample_result : post_state :=
  {| ps_subs := [mk_cue 1000 2000 (u "哈哈"); mk_cue 3000 4000 (u "在這裡");
                 mk_cue 3500 5000 (u "好")];
     ps_typos := [mk_typo 3000 4000 (u "在這里") (u "在這裡") (Some 2)];
     ps_overlap_num := 1; ps_overlap_list := [2]; ps_illegal := [] |}.

Section PipelineProps.
Context `{Dictionary} `{UnicodeDB}.

Lemma sorted_map_with_text (f : cue -> str) (l : list cue) :
  Sorted cue_le l -> Sorted cue_le (map (fun c => with_text c (f c)) l).
Proof.
  induction 1 as [|a l _ IH Hd]; simpl; constructor; [exact IH|].
  destruct Hd; simpl; constructor. exact H1.
Qed.

Lemma translate_core_steps (subs : list cue) (st : post_state) :
  translate_core subs = Ok st ->
  exists l1 typos l2, normalize_track subs = Ok (l1, typos) /\ merge_cues l1 = Ok l2 /\
                      post_sort (sort_cues l2) typos = Ok st.
Proof.
  unfold translate_core. intros E. apply bind_ok in E as [[l1 typos] [E1 E]].
  apply bind_ok in E as [l2 [E2 E3]]. eauto 6.
Qed.

(** Whatever the track, when the pipeline runs through, every typo
    record leaves the post-sort loop with an [index]: the normalizer
    records the times of a cue it keeps, the merger keeps every time
    range, the sort permutes, and the post-sort loop stamps every record
    whose times a cue has ([Report.v] draws the consequence for
    [print_typo_compare]). *)
Lemma translate_typos_indexed (subs : list cue) (st : post_state) :
  translate_core subs = Ok st -> forall t, In t (ps_typos st) -> exists n, t_index t = Some n.
Proof.
  intros E t Ht. destruct (translate_core_steps _ _ E) as [l1 [typos [l2 [E1 [E2 E3]]]]].
  rewrite post_sort_result in E3. injection E3 as <-. cbn [ps_typos] in Ht.
  apply in_map_iff in Ht as [x [<- Hx]].
  destruct (normalize_track_typo_times _ _ _ E1 x Hx) as [c [Hc [Hs He]]].
  destruct (merge_cues_times _ _ E2 c Hc) as [c' [Hc' Ht']].
  destruct (sort_cues_spec l2) as [_ Hp].
  apply (Permutation_in _ Hp), In_nth_error in Hc' as [i Ei].
  apply (stamp_upto_some _ _ _ i c'); [apply nth_error_Some; congruence | exact Ei |].
  unfold same_time_typo. unfold cue_times in Ht'. injection Ht' as -> ->. rewrite Hs, He, !Z.eqb_refl.
  reflexivity.
Qed.

(** C22. The sort post-condition of the spec: the track the pipeline
    returns is sorted by (start, end), so its start times never
    decrease. *)
Theorem translate_sorted (subs : list cue) (st : post_state) :
  translate_core subs = Ok st ->
  Sorted cue_le (ps_subs st) /\ Sorted (fun a b => (start a <= start b)%Z) (ps_subs st).
Proof.
  intros E. destruct (translate_core_steps _ _ E) as [l1 [typos [l2 [_ [_ E3]]]]].
  rewrite post_sort_result in E3. injection E3 as <-. cbn [ps_subs].
  assert (S : Sorted cue_le (map (fun c => with_text c (post_text c)) (sort_cues l2)))
    by (apply sorted_map_with_text, sort_cues_spec).
  split; [exact S | apply sorted_starts, S].
Qed.

End PipelineProps.

(** ** Witnesses *)

Lemma sample_track_result : @translate_core typo_sample ucd_sample sample_track = Ok sample_result.
Proof. vm_compute. reflexivity. Qed.

Lemma translate_sorted_witness :
  Sorted cue_le (ps_subs sample_result) /\
  Sorted (fun a b => (start a <= start b)%Z) (ps_subs sample_result).
Proof. apply (translate_sorted sample_track sample_result sample_track_result). Defined.
