(* ===== verification/Xml.v ===== *)
(** * [convert_xml_content] (lines 673-694): the rules applied to each entry

    BeautifulSoup parses the XML; what the loop reads of each [<dia>]
    element is modelled as a record [dia]: the texts of its [<st>],
    [<et>] and [<sub>] children ([None] when the child is missing, where
    [.getText()] on [None] raises [AttributeError]) and the
    [vertical-margin] attribute of its [<position>] child ([None] when the
    child is missing, where indexing [None] raises [TypeError];
    [Some None] when the attribute is missing, [KeyError]).  Python's
    [int()] is modelled on ASCII digits, with its surrounding whitespace,
    sign and single underscores between digits. *)

From Stdlib Require Import String.
From Stdlib Require Import List ZArith Lia Bool.
Import ListNotations.
From S2P Require Import Prelude PyStr Cue.
Open Scope sub_scope.

Definition is_digit (c : char) : bool := ((48 <=? c) && (c <=? 57))%Z.

(** The digits of [int()], with an underscore allowed only between two
    digits; [prev] says whether the last character read was a digit. *)
Fixpoint digits_us (s : str) (acc : Z) (prev : bool) : option Z :=
  match s with
  | [] => if prev then Some acc else None
  | c :: r =>
      if is_digit c then digits_us r (10 * acc + (c - 48)) true
      else if (c =? 95)%Z && prev then
        match r with
        | d :: _ => if is_digit d then digits_us r acc false else None
        | [] => None
        end
      else None
  end%Z.

(** [int(s)] on a [str]: [ValueError] when [s] is not a decimal
    integer. *)
Definition py_int (s : str) : result Z :=
  let t := strip s in
  of_option
    (match t with
     | c :: r => if (c =? 45)%Z then option_map Z.opp (digits_us r 0 false)
                 else if (c =? 43)%Z then digits_us r 0 false
                 else digits_us t 0 false
     | [] => None
     end) ValueError.

Fixpoint drop_char (c : char) (s : str) : str :=
  match s with x :: r => if (x =? c)%Z then drop_char c r else s | [] => [] end.

(** [s.strip(c)] for one character [c]. *)
Definition strip_char (c : char) (s : str) : str := rev (drop_char c (rev (drop_char c s))).

(** [s.replace(old, new, 1)]. *)
Definition replace_first (old new s : str) : str :=
  match break_on old s with Some (a, b) => a ++ new ++ b | None => s end.

Record dia : Type := mk_dia {
  dia_st : option str;
  dia_et : option str;
  dia_sub : option str;
  dia_position : option (option str)
}.

Definition an8 : str := u "{\an8}".

(** Lines 678-692 for one [<dia>] element. *)
Definition xml_entry (d : dia) : result cue :=
  st <- of_option (dia_st d) AttributeError ;;
  start_time <- py_int st ;;
  et <- of_option (dia_et d) AttributeError ;;
  end_time <- py_int et ;;
  text <- of_option (dia_sub d) AttributeError ;;
  c0 <- of_option (nth_error text 0) IndexError ;;
  let text := if (c0 =? 91)%Z then replace_first (u "[") (u "（") text else text in
  cl <- of_option (last_error text) IndexError ;;
  let text := if (cl =? 93)%Z then removelast text ++ u "）" else text in
  let text := replace (u "， ") (u "，") text in
  element <- of_option (dia_position d) TypeError ;;
  position <- of_option element KeyError ;;
  top <- (match position with
          | [] => Ok false
          | _ => (n <- py_int (strip_char 37%Z position) ;; Ok (n <? 20)%Z)
          end) ;;
  Ok (mk_cue start_time end_time (if top then an8 ++ text else text)).

(** Lines 677-694: the entries in document order; the first exception
    ends the conversion. *)
Fixpoint convert_xml_content (dias : list dia) : result (list cue) :=
  match dias with
  | [] => Ok []
  | d :: rest => c <- xml_entry d ;; cs <- convert_xml_content rest ;; Ok (c :: cs)
  end.

(** ** Which exceptions the conversion raises *)

Lemma py_int_err (s : str) (e : py_error) : py_int s = Err e -> e = ValueError.
Proof.
  unfold py_int, of_option. intros H.
  match type of H with context [match ?o with Some _ => _ | None => _ end] => destruct o end; congruence.
Qed.

(** The errors of an entry are those of parsing it: a missing child or
    attribute, an empty text, a number [int()] rejects. *)
Lemma xml_entry_err (d : dia) (e : py_error) :
  xml_entry d = Err e -> In e [AttributeError; ValueError; IndexError; TypeError; KeyError].
Proof.
  unfold xml_entry. intros H.
  repeat match type of H with
  | context [of_option ?o ?x] => destruct o; cbn [of_option bind] in H; [|injection H as <-; cbn; tauto]
  | context [py_int ?s] =>
      let E := fresh in destruct (py_int s) eqn:E; cbn [bind] in H;
      [|injection H as <-; apply py_int_err in E; subst; cbn; tauto]
  | context [match ?p with [] => Ok false | _ => _ end] => destruct p; cbn [bind] in H
  end; discriminate.
Qed.

Lemma convert_xml_content_err (ds : list dia) (e : py_error) :
  convert_xml_content ds = Err e -> In e [AttributeError; ValueError; IndexError; TypeError; KeyError].
Proof.
  induction ds as [|d ds IH]; cbn [convert_xml_content]; [discriminate|].
  destruct (xml_entry d) as [c|e'] eqn:Ed; cbn [bind]; [|intros H; injection H as <-; exact (xml_entry_err d e' Ed)].
  destruct (convert_xml_content ds) as [cs|e']; cbn [bind]; [discriminate | exact IH].
Qed.
