(* ===== verification/Files.v ===== *)
(** * File names and the conversion dispatch

    The parts of the script that compute file names and decide which
    file operations run, with the file contents left out:
    - [rename_subtitle] (lines 592-602) and the name rewriting at the top
      of [translate_subtitle] (lines 154-164), with the three [re.sub]
      calls run by the model of [re] ([Regex.v]);
    - [convert_subtitle] (lines 572-589) with the names [ass_to_srt],
      [vtt_to_srt] and [xml_to_srt] return (lines 709-753) and the file
      operations they perform, as a list of [fs_op]; the contents they
      write ([convert_ass_content], [convert_vtt_content]) are not
      modelled;
    - [merge_subtitle] (lines 113-133): the list of events it saves and
      the name of the merged file.
    [pathlib] and [os.path] are modelled for paths without repeated or
    trailing slashes: [basename] is the text after the last ['/'],
    [Path(p).suffix] the last dotted suffix of that name, [Path(p).parent]
    the text before the last ['/'] (['.'] when there is none, ['/'] for
    a file of the root). *)

From Stdlib Require Import String.
From Stdlib Require Import List ZArith Lia Bool.
Import ListNotations.
From S2P Require Import Prelude PyStr Regex Cue Xml.
Open Scope sub_scope.

(** ** Paths *)

Definition slash : char := 47%Z.

(** [os.path.basename(p)]. *)
Definition basename (p : str) : str :=
  fold_left (fun acc c => if (c =? slash)%Z then [] else acc ++ [c]) p [].

(** The position of the last occurrence of [c] in [s]. *)
Definition rfind_char (c : char) (s : str) : option nat :=
  fold_left (fun acc i => if (nth i s 0 =? c)%Z then Some i else acc) (seq 0 (length s)) None.

(** [Path(p).suffix]: [name[i:]] for the last dot [i] of the name when
    [0 < i < len(name) - 1], else ['']. *)
Definition suffix (p : str) : str :=
  let name := basename p in
  match rfind_char 46%Z name with
  | Some i => if (0 <? i) && (i <? length name - 1) then skipn i name else []
  | None => []
  end.

(** [str(Path(p).parent)]. *)
Definition parent (p : str) : str :=
  match rfind_char slash p with
  | Some 0 => [slash]
  | Some i => firstn i p
  | None => [46%Z]
  end.

(** ** [rename_subtitle] and the output name of [translate_subtitle] *)

Definition rename_subtitle (original_file_name : str) : str :=
  let n := basename original_file_name in
  let n := replace (u ".ass") (u ".srt") n in
  let n := replace (u ".ssa") (u ".srt") n in
  let n := replace (u ".vtt") (u ".srt") n in
  let n := replace (u ".xml") (u ".srt") n in
  let n := replace (u ".rar") [] n in
  let n := replace (u ".zip") [] n in
  replace (u "WEBRip") (u "WEB-DL") n.

(** [r'(-|\.)ch[st]+'] with [re.I]: [s] also matches the long s U+017F
    under Python's case folding. *)
Definition chst_re : regex :=
  seqs [Alt (Chr 45%Z) (Chr 46%Z); C "cC"; C "hH"; plus true (Cls false [(83, 83); (84, 84); (115, 115); (116, 116); (383, 383)]%Z)].

Definition area_re : regex := L "-AREA11".

(** [r'(.+?)(\.)*[sS]([0-9]{2})[eE]([0-9]{2})(-E[0-9]{2})*.+']. *)
Definition episode_re : regex :=
  seqs [Group 1 (plus false (Dot false)); Star true (Group 2 (Chr 46%Z)); C "sS";
        Group 3 (seqs [digit; digit]); C "eE"; Group 4 (seqs [digit; digit]);
        Star true (Group 5 (seqs [L "-E"; digit; digit])); plus true (Dot false)].

(** ['\\1.S\\3E\\4\\5.srt']. *)
Definition episode_tpl : template :=
  [TGrp 1; TLit (u ".S"); TGrp 3; TLit (u "E"); TGrp 4; TGrp 5; TLit (u ".srt")].

(** Lines 154-164: the directory part ([file_name.split(basename)[0]],
    [ValueError] for an empty separator) and the new name. *)
Definition output_name (file_name : str) : result (str * str) :=
  let base := basename file_name in
  path <- (match base with [] => Err ValueError | _ => Ok (hd [] (split base file_name)) end) ;;
  let n := rename_subtitle file_name in
  let n := sub chst_re [] n in
  let n := sub area_re [] n in
  let n := sub episode_re episode_tpl n in
  let n := if contains (u ".zh") n then n else replace (u ".srt") (u ".zh.srt") n in
  Ok (path, n).

(** ** [convert_subtitle] *)

(** The file operations of the converters. *)
Inductive fs_op : Type :=
| Remove (f : str)         (** [os.remove] *)
| Create (f : str)         (** [file_create] *)
| Reformat (f : str).      (** [format_subtitle]: load and save *)

(** [ass_to_srt] and [vtt_to_srt] (lines 709-739): remove the original,
    write the converted text under the new name, reformat it. *)
Definition to_srt (str_name_file : str) : str * list fs_op :=
  let n := parent str_name_file ++ [slash] ++ rename_subtitle str_name_file in
  (n, [Remove str_name_file; Create n; Reformat n]).

Section Conversion.
(** The [<dia>] elements BeautifulSoup finds in a file. *)
Variable read_xml : str -> list dia.

(** [xml_to_srt] (lines 742-753): the entries are converted (and may
    raise) before the file is removed; [subs.save] is commented out, so
    nothing is written under the new name. *)
Definition xml_to_srt (str_name_file : str) : result (str * list fs_op) :=
  _ <- convert_xml_content (read_xml str_name_file) ;;
  Ok (parent str_name_file ++ [slash] ++ rename_subtitle str_name_file, [Remove str_name_file]).

(** Lines 572-589: [file_name] is unbound when the suffix is none of the
    handled ones. *)
Definition convert_subtitle (original_file : str) : result (str * list fs_op) :=
  let extension := suffix original_file in
  if negb (str_eqb extension (u ".srt")) then
    if str_eqb extension (u ".ssa") || str_eqb extension (u ".ass") then Ok (to_srt original_file)
    else if str_eqb extension (u ".vtt") then Ok (to_srt original_file)
    else if str_eqb extension (u ".xml") then xml_to_srt original_file
    else Err UnboundLocalError
  else Ok (original_file, []).

End Conversion.

(** ** [merge_subtitle] *)

(** [list.insert(i, x)]: a negative index counts from the end, indices
    out of range are clamped. *)
Definition py_insert {A} (i : Z) (x : A) (l : list A) : list A :=
  let n := Z.of_nat (length l) in
  let j := if (i <? 0)%Z then Z.max 0 (i + n) else Z.min i n in
  firstn (Z.to_nat j) l ++ x :: skipn (Z.to_nat j) l.

Definition merge_delta : Z := 5000.

(** Lines 119-125: the second file's events, shifted to start 5 s after
    the end of the first file's last event, each inserted at index -1.
    [make_time(s=(end + delta) / 1000)] is [end + delta] milliseconds
    (the float division and the rounding of [make_time] are exact for
    the times of a subtitle file). *)
Definition merge_events (subs_first subs_second : list cue) : result (list cue) :=
  last_ev <- of_option (last_error subs_first) IndexError ;;
  let offset := (end_ last_ev + merge_delta)%Z in
  Ok (fold_left (fun acc sub => py_insert (-1) (mk_cue (start sub + offset) (end_ sub + offset) (text sub)) acc)
                subs_second subs_first).

(** [int(s)] on a string of ASCII digits. *)
Definition digits_value (s : str) : nat :=
  fold_left (fun n c => 10 * n + Z.to_nat (c - 48)) s 0.

(** [s.zfill(w)] on a string without sign. *)
Definition zfill (w : nat) (s : str) : str := repeat 48%Z (w - length s) ++ s.

(** [r'(.+?S\d+E)(\d+)(.*?\.srt)'], with [\d] as the ASCII digits. *)
Definition merge_episode_re : regex :=
  seqs [Group 1 (seqs [plus false (Dot false); Chr 83%Z; plus true digit; Chr 69%Z]);
        Group 2 (plus true digit); Group 3 (seqs [Star false (Dot false); L ".srt"])].

(** Lines 127-131: [int((int(episode) + 1) / 2)] is the floor of the
    half for the episode numbers of file names. *)
Definition merge_name (first_file : str) : str :=
  let new_file_name := replace (u ".srt") (u "-merge.srt") first_file in
  match search merge_episode_re new_file_name with
  | Some (_, _, cs) =>
      group_text cs 1 ++ zfill 2 (py_str_nat ((digits_value (group_text cs 2) + 1) / 2)) ++ group_text cs 3
  | None => new_file_name
  end.

(** ** A file system of names, to run the operations on *)

Definition apply_op (fs : list str) (op : fs_op) : list str :=
  match op with
  | Remove f => filter (fun g => negb (str_eqb g f)) fs
  | Create f => f :: filter (fun g => negb (str_eqb g f)) fs
  | Reformat _ => fs
  end.

Definition run_ops (fs : list str) (ops : list fs_op) : list str := fold_left apply_op ops fs.

(** ** Lemmas *)

Lemma in_remove (fs : list str) (f g : str) : In g (apply_op fs (Remove f)) <-> In g fs /\ g <> f.
Proof.
  cbn [apply_op]. rewrite filter_In. destruct (str_eqb_spec g f); cbn [negb]; intuition congruence.
Qed.

Lemma in_create (fs : list str) (f g : str) : In g (apply_op fs (Create f)) <-> g = f \/ (In g fs /\ g <> f).
Proof.
  cbn [apply_op]. cbn [In]. rewrite filter_In. destruct (str_eqb_spec g f); cbn [negb]; intuition congruence.
Qed.

Lemma py_insert_before_last {A} (x l : A) (xs : list A) : py_insert (-1) x (xs ++ [l]) = (xs ++ [x]) ++ [l].
Proof.
  unfold py_insert. rewrite length_app. cbn [length]. change ((-1 <? 0)%Z) with true. cbv iota.
  replace (Z.to_nat (Z.max 0 (-1 + Z.of_nat (length xs + 1)))) with (length xs) by lia.
  rewrite firstn_app, skipn_app, Nat.sub_diag, firstn_all, skipn_all. cbn. rewrite app_nil_r, <- app_assoc. reflexivity.
Qed.

Lemma fold_insert_before_last {A} (f : A -> A) (l : A) : forall (second xs : list A),
  fold_left (fun acc x => py_insert (-1) (f x) acc) second (xs ++ [l]) = (xs ++ map f second) ++ [l].
Proof.
  induction second as [|x second IH]; intros xs; cbn [fold_left map]; [rewrite app_nil_r; reflexivity|].
  rewrite py_insert_before_last, IH, <- (app_assoc xs [f x]). reflexivity.
Qed.

(** ** What the file operations do *)

Section FilesProps.
Variable read_xml : str -> list dia.

Lemma convert_cases (p : str) :
  (suffix p = u ".srt" /\ convert_subtitle read_xml p = Ok (p, [])) \/
  ((suffix p = u ".ssa" \/ suffix p = u ".ass" \/ suffix p = u ".vtt") /\ convert_subtitle read_xml p = Ok (to_srt p)) \/
  (suffix p = u ".xml" /\ convert_subtitle read_xml p = xml_to_srt read_xml p) \/
  (~ In (suffix p) [u ".srt"; u ".ssa"; u ".ass"; u ".vtt"; u ".xml"] /\ convert_subtitle read_xml p = Err UnboundLocalError).
Proof.
  unfold convert_subtitle. set (e := suffix p).
  destruct (str_eqb_spec e (u ".srt")); [left; auto|]. cbn [negb].
  destruct (str_eqb_spec e (u ".ssa")); [right; left; auto|].
  destruct (str_eqb_spec e (u ".ass")); [right; left; auto|]. cbn [orb].
  destruct (str_eqb_spec e (u ".vtt")); [right; left; auto|].
  destruct (str_eqb_spec e (u ".xml")); [right; right; left; auto|].
  right; right; right. split; [|reflexivity]. intros [H|[H|[H|[H|[H|[]]]]]]; congruence.
Qed.

(** C28. [convert_subtitle] raises [UnboundLocalError] ([file_name] is
    never assigned) exactly when the suffix of the path is none of
    [.srt], [.ssa], [.ass], [.vtt], [.xml]; [main] reaches it with such
    a path when an archive extracts to a single file of another kind
    (line 860). *)
Theorem convert_subtitle_unbound (p : str) :
  convert_subtitle read_xml p = Err UnboundLocalError <->
  ~ In (suffix p) [u ".srt"; u ".ssa"; u ".ass"; u ".vtt"; u ".xml"].
Proof.
  assert (Hin : forall x, In x [u ".srt"; u ".ssa"; u ".ass"; u ".vtt"; u ".xml"] ->
                 suffix p = x -> ~ ~ In (suffix p) [u ".srt"; u ".ssa"; u ".ass"; u ".vtt"; u ".xml"])
    by (intros x Hx -> H; exact (H Hx)).
  destruct (convert_cases p) as [[E C]|[[E C]|[[E C]|[E C]]]]; rewrite C; split; try discriminate; try tauto.
  - intros H. exfalso. apply (Hin _ (or_introl eq_refl) E H).
  - intros H. exfalso. destruct E as [E|[E|E]]; refine (Hin _ _ E H); cbn [In]; tauto.
  - unfold xml_to_srt. destruct (convert_xml_content (read_xml p)) as [cs|e] eqn:X; cbn [bind]; [discriminate|].
    intros H. injection H as ->. apply convert_xml_content_err in X. cbn in X. intuition discriminate.
  - intros H. exfalso. refine (Hin _ _ E H). cbn [In]. tauto.
Qed.

(** C27. Converting an [.xml] file whose entries convert deletes it and
    writes nothing: the name [xml_to_srt] returns exists afterwards
    only if it existed before (its [subs.save] is commented out, line
    750), so [translate_subtitle] goes on with a file that is not there
    and the subtitles are lost. *)
Theorem xml_conversion_loses_file (p : str) (fs : list str) (cs : list cue) :
  suffix p = u ".xml" -> convert_xml_content (read_xml p) = Ok cs ->
  exists n ops, convert_subtitle read_xml p = Ok (n, ops) /\ ~ In p (run_ops fs ops) /\
                (In n (run_ops fs ops) -> In n fs).
Proof.
  intros Hx Hc. destruct (convert_cases p) as [[E _]|[[E _]|[[_ C]|[E _]]]].
  - rewrite Hx in E. discriminate.
  - rewrite Hx in E. destruct E as [E|[E|E]]; discriminate.
  - rewrite C. unfold xml_to_srt. rewrite Hc. cbn [bind]. eexists _, _. split; [reflexivity|].
    unfold run_ops. cbn [fold_left]. rewrite !in_remove. split; [tauto | intros [H _]; exact H].
  - exfalso. apply E. rewrite Hx. cbn [In]. tauto.
Qed.

End FilesProps.

(** C29. [merge_subtitle] inserts each event of the second file at
    index -1, i.e. before the last event of the first file: the saved
    list is the first file without its last event, the second file
    shifted to start 5 s after that event's end, and then that last
    event, out of order.  A first file without events raises
    [IndexError] at [subs_first[-1]]. *)
Theorem merge_events_layout (first second : list cue) (l : cue) :
  merge_events [] second = Err IndexError /\
  merge_events (first ++ [l]) second =
  Ok ((first ++ map (fun sub => mk_cue (start sub + (end_ l + merge_delta)) (end_ sub + (end_ l + merge_delta)) (text sub))
                    second) ++ [l]).
Proof.
  split; [reflexivity|]. unfold merge_events. rewrite last_error_snoc. cbn [of_option bind].
  rewrite fold_insert_before_last. reflexivity.
Qed.

Lemma srt_tail_dotless (b : str) : ~ In 46%Z b -> ~ In 46%Z (tl (u ".srt" ++ b)).
Proof. intros Hb H. cbn in H. destruct H as [H|[H|[H|H]]]; [discriminate..|exact (Hb H)]. Qed.

Lemma not_in_srt_app (c : char) (a b : str) :
  ~ In c a -> ~ In c b -> ~ In c (u ".srt") -> ~ In c (a ++ u ".srt" ++ b).
Proof. intros Ha Hb Hs H. apply in_app_iff in H as [H|H]; [auto|apply in_app_iff in H as [H|H]; auto]. Qed.

(** A later rule whose dotted pattern is not [.srt] leaves the renamed
    name alone. *)
Lemma rename_rule_skips (old new a b : str) :
  hd_error old = Some 46%Z -> is_prefix old (u ".srt" ++ b) = false -> ~ In 46%Z a -> ~ In 46%Z b ->
  replace old new (a ++ u ".srt" ++ b) = a ++ u ".srt" ++ b.
Proof.
  intros Hc Hp Ha Hb. apply replace_absent; [intros ->; discriminate|].
  exact (contains_skip _ _ _ _ Hc Ha (srt_tail_dotless b Hb) Hp).
Qed.

(** C30. [rename_subtitle] replaces [.ass] wherever it occurs in the base
    name, not only as its extension: a name [a + '.ass' + b] whose other
    parts hold no dot and no ['W'] becomes [a + '.srt' + b], so
    [Bob.assets] becomes [Bob.srtets]. *)
Theorem rename_inside_name p a b :
  basename p = a ++ u ".ass" ++ b -> ~ In 46%Z a -> ~ In 46%Z b -> ~ In 87%Z a -> ~ In 87%Z b ->
  rename_subtitle p = a ++ u ".srt" ++ b.
Proof.
  intros Hp Ha Hb Wa Wb. unfold rename_subtitle. cbv zeta. rewrite Hp.
  rewrite (replace_once _ _ a b 46%Z) by (reflexivity || assumption).
  rewrite !rename_rule_skips by (reflexivity || assumption || (destruct b; reflexivity)).
  apply (replace_absent_char _ _ _ 87%Z); [reflexivity|].
  apply not_in_srt_app; [exact Wa | exact Wb | cbn; intuition discriminate].
Qed.

(** ** Witnesses *)

Lemma xml_conversion_loses_file_witness :
  suffix (u "ep/a.xml") = u ".xml" /\ convert_xml_content [] = Ok [] /\
  exists n ops, convert_subtitle (fun _ => []) (u "ep/a.xml") = Ok (n, ops) /\
                ~ In (u "ep/a.xml") (run_ops [u "ep/a.xml"] ops) /\
                (In n (run_ops [u "ep/a.xml"] ops) -> In n [u "ep/a.xml"]).
Proof.
  assert (Hx : suffix (u "ep/a.xml") = u ".xml") by (vm_compute; reflexivity).
  split; [exact Hx|]. split; [reflexivity|].
  apply (xml_conversion_loses_file (fun _ => []) (u "ep/a.xml") [u "ep/a.xml"] [] Hx eq_refl).
Defined.

Lemma rename_inside_name_witness :
  rename_subtitle (u "ep/Bob.assets") = u "Bob" ++ u ".srt" ++ u "ets".
Proof.
  apply rename_inside_name; [vm_compute; reflexivity|..];
    apply not_in_of_existsb; vm_compute; reflexivity.
Defined.
