(* ===== verification/Ass.v ===== *)
(** * [convert_ass_content] (lines 605-630) and [ass_to_srt] (709-724)

    The conversion of an ASS/SSA file before pysubs2 reformats it is a
    chain of [re.sub] over the whole text: colour override tags
    [{\c&...&}] are removed, in an [.ssa] file the [&H...] colours become
    [0], and the [Dialogue] lines of eight styles are rewritten: the
    name, margins and effect fields are reset, the leading override tags
    of the text are dropped, and the text is put in full-width
    parentheses (the note styles) or behind [{\an8}] (the song styles).
    Each rule is [(pattern, template)] in the code's order, run by the
    model of [re] ([Regex.v]); none of the patterns can cross a line
    break, so the conversion works line by line ([RegexLines.v]). *)

From Stdlib Require Import String.
From Stdlib Require Import List ZArith Lia Bool.
Import ListNotations.
From S2P Require Import Prelude PyStr Regex RegexLines Files.
Open Scope sub_scope.

(** [[A-Z0-9]]. *)
Definition upper_digit : regex := Cls false [(65, 90); (48, 57)]%Z.

(** [r"\{\\c\&[A-Z0-9]+\&\}"] (line 608). *)
Definition color_re : regex := seqs [Chr 123%Z; L "\c&"; plus true upper_digit; L "&}"].

(** [r"&H[A-Z0-9]{6,8}"] (line 611): six, then greedily up to two more. *)
Definition hex_re : regex :=
  seqs ([Chr 38%Z; Chr 72%Z] ++ repeat upper_digit 6 ++
        [Alt (Seq upper_digit (Alt upper_digit Eps)) Eps]).

Definition dots_lazy : regex := Star false (Dot false).

(** [[0]+]. *)
Definition zeros : regex := plus true (Chr 48%Z).

(** [(\{.+?\})*(.+)]: the leading override tags (group 1) and the rest
    of the line (group 2). *)
Definition tags_text : regex :=
  Seq (Star true (Group 1 (seqs [Chr 123%Z; plus false (Dot false); Chr 125%Z])))
      (Group 2 (plus true (Dot false))).

(** [,<head>,.*?,[0]+,[0]+,[0]+,.*?,(\{.+?\})*(.+)]: [head] is the style
    name pattern ([[cC]aption.*?] and the like, [註釋] alone). *)
Definition style_rule (head : regex) : regex :=
  Seq (Chr 44%Z) (seqs [head; Chr 44%Z; dots_lazy; Chr 44%Z; zeros; Chr 44%Z; zeros;
                        Chr 44%Z; zeros; Chr 44%Z; dots_lazy; Chr 44%Z; tags_text]).

(** A style name with its first letter in either case, then [.*?]. *)
Definition style_head (first : String.string) (name : String.string) : regex :=
  seqs [C first; L name; dots_lazy].

(** [r",<Style>,,0000,0000,0000,,（\2）"]. *)
Definition paren_tpl (style : String.string) : template :=
  [TLit (u "," ++ u style ++ u ",,0000,0000,0000,,（"); TGrp 2; TLit (u "）")].

(** [r",<Style>,,0000,0000,0000,,{\\an8}\2"]. *)
Definition top_tpl (style : String.string) : template :=
  [TLit (u "," ++ u style ++ u ",,0000,0000,0000,,{\an8}"); TGrp 2].

(** Lines 613-628, in order. *)
Definition style_rules : list (regex * template) :=
  [(style_rule (style_head "cC" "aption"), paren_tpl "Caption");
   (style_rule (style_head "cC" "omment"), paren_tpl "Comment");
   (style_rule (style_head "nN" "ote"), paren_tpl "Note");
   (style_rule (L "註釋"), paren_tpl "註釋");
   (style_rule (style_head "cC" "hat"), paren_tpl "Chat");
   (style_rule (style_head "lL" "yrics"), top_tpl "Lyrics");
   (style_rule (seqs [L "歌詞"; dots_lazy]), top_tpl "Lyrics");
   (style_rule (style_head "sS" "ong"), top_tpl "Song")].

Definition sub_chain (rules : list (regex * template)) (s : str) : str :=
  fold_left (fun acc '(r, t) => sub r t acc) rules s.

Definition convert_ass_content (file_contents ass_type : str) : str :=
  let replacement := sub color_re [] file_contents in
  let replacement :=
    if str_eqb ass_type (u ".ssa") then sub hex_re [TLit (u "0")] replacement else replacement in
  sub_chain style_rules replacement.

(** [ass_to_srt] (lines 709-724): the text written under the new name
    ([file_create]), with the file operations of [to_srt]. *)
Definition ass_to_srt (file_contents str_name_file : str) : str * list fs_op * str :=
  let str_data :=
    if str_eqb (suffix str_name_file) (u ".ssa") then convert_ass_content file_contents (u ".ssa")
    else convert_ass_content file_contents (u ".ass") in
  let '(n, ops) := to_srt str_name_file in (n, ops, str_data).

(** ** Event lines of an ASS file

    [Dialogue: Layer,Start,End,Style,Name,MarginL,MarginR,MarginV,Effect,Text]:
    the fields are joined by commas; the times are written with digits,
    [:] and [.]. *)
Definition dialogue (fields : list str) : str := u "Dialogue: " ++ join (u ",") fields.

Definition time_char (c : char) : bool := ((48 <=? c) && (c <=? 58))%Z || (c =? 46)%Z.

(** The fields the [Caption] rule writes before the text. *)
Definition caption_mid : str := u ",Caption,,0000,0000,0000,,（".

(** A field without comma, brace, ampersand or line break. *)
Definition plain_field (f : str) : bool :=
  forallb (fun c => negb (existsb (Z.eqb c) [44; 123; 38; 10]%Z)) f.

(** ** The conversion works line by line *)

Definition rule_ok (rt : regex * template) : bool :=
  line_local (fst rt) && negb (nullable (fst rt)).

Lemma style_rules_ok : forallb rule_ok style_rules = true.
Proof. vm_compute. reflexivity. Qed.

Lemma sub_chain_lines rules : forallb rule_ok rules = true ->
  forall l rest, sub_chain rules (l ++ 10%Z :: rest) = sub_chain rules l ++ 10%Z :: sub_chain rules rest.
Proof.
  unfold sub_chain. induction rules as [|[r t] rules IH]; intros H l rest; [reflexivity|].
  simpl in H |- *. apply andb_true_iff in H as [H1 H2]. apply andb_true_iff in H1 as [Hl Hn].
  apply negb_true_iff in Hn. rewrite (sub_lines r t l rest Hl Hn). apply IH, H2.
Qed.

Lemma sub_chain_nil rules : forallb rule_ok rules = true -> sub_chain rules [] = [].
Proof.
  unfold sub_chain. induction rules as [|[r t] rules IH]; intros H; [reflexivity|].
  simpl in H |- *. apply andb_true_iff in H as [H1 H2]. apply andb_true_iff in H1 as [_ Hn].
  apply negb_true_iff in Hn. rewrite (sub_nil r t Hn). apply IH, H2.
Qed.

Lemma convert_ass_content_nil ty : convert_ass_content [] ty = [].
Proof.
  unfold convert_ass_content. cbv zeta.
  destruct (str_eqb ty (u ".ssa")); rewrite !sub_nil by reflexivity; apply sub_chain_nil, style_rules_ok.
Qed.

Lemma convert_ass_content_lines ty l rest :
  convert_ass_content (l ++ 10%Z :: rest) ty = convert_ass_content l ty ++ 10%Z :: convert_ass_content rest ty.
Proof.
  unfold convert_ass_content. cbv zeta. rewrite sub_lines by reflexivity.
  destruct (str_eqb ty (u ".ssa")); [rewrite sub_lines by reflexivity|];
    apply sub_chain_lines, style_rules_ok.
Qed.

(** C11. [convert_ass_content] rewrites a file line by line: the
    conversion of the lines joined by ['\n'] is the conversion of each
    line, joined by ['\n'].  No rule looks across a line break, adds one
    or removes one. *)
Theorem convert_ass_content_join ty lines :
  convert_ass_content (join newline lines) ty = join newline (map (fun l => convert_ass_content l ty) lines).
Proof.
  induction lines as [|l lines IH]; [apply convert_ass_content_nil|].
  destruct lines as [|l' lines]; [reflexivity|].
  rewrite (join_cons newline l (l' :: lines)), map_cons,
    (join_cons newline (convert_ass_content l ty)) by (simpl; discriminate).
  unfold newline. cbn [app]. rewrite convert_ass_content_lines. fold newline. rewrite IH. reflexivity.
Qed.

(** ** A [Caption] line *)

Lemma plain_field_app a b : plain_field (a ++ b) = plain_field a && plain_field b.
Proof. apply forallb_app. Qed.

Lemma plain_not_in c f : plain_field f = true -> In c [44; 123; 38; 10]%Z -> ~ In c f.
Proof.
  unfold plain_field. rewrite forallb_forall. intros H Hc Hin. specialize (H c Hin).
  apply negb_true_iff in H. assert (existsb (Z.eqb c) [44; 123; 38; 10]%Z = true) as E.
  { apply existsb_exists. exists c. split; [exact Hc | apply Z.eqb_refl]. }
  congruence.
Qed.

Lemma time_not_in c f : forallb time_char f = true -> In c [44; 123; 38; 10]%Z -> ~ In c f.
Proof.
  rewrite forallb_forall. intros H Hc Hin. specialize (H c Hin).
  destruct Hc as [<-|[<-|[<-|[<-|[]]]]]; discriminate.
Qed.

(** After a comma of the time fields comes a time character or the next
    comma. *)
Lemma after_time_comma f x :
  forallb time_char f = true -> exists z s, f ++ 44%Z :: x = z :: s /\ (time_char z || (z =? 44)%Z) = true.
Proof.
  destruct f as [|z f]; simpl; intros H; [exists 44%Z, x; split; reflexivity|].
  apply andb_true_iff in H as [H _]. exists z, (f ++ 44%Z :: x). rewrite H. split; reflexivity.
Qed.

Section Quiet.
(** A rule [,k] whose continuation [k] fails on a time character and on
    a comma. *)
Variables (k : regex) (t : template).
Hypothesis k_local : line_local (Seq (Chr 44%Z) k) = true.
Hypothesis k_quiet :
  forall z s p cs, (time_char z || (z =? 44)%Z) = true -> matches k p (z :: s) cs = [].

Lemma comma_quiet f x :
  forallb time_char f = true -> sub (Seq (Chr 44%Z) k) t (44%Z :: f ++ 44%Z :: x) = 44%Z :: sub (Seq (Chr 44%Z) k) t (f ++ 44%Z :: x).
Proof.
  intros Hf. destruct (after_time_comma f x Hf) as [z [s [E Hz]]]. rewrite E.
  apply sub_cons_quiet; [exact k_local|]. rewrite matches_seq. simpl. rewrite k_quiet by exact Hz.
  reflexivity.
Qed.

(** The rule passes over [Dialogue: Layer,Start,End] up to the comma
    before the style. *)
Lemma times_quiet layer st et M :
  forallb time_char (layer ++ st ++ et) = true ->
  sub (Seq (Chr 44%Z) k) t ((u "Dialogue: " ++ layer) ++ 44%Z :: st ++ 44%Z :: et ++ 44%Z :: M) =
  (u "Dialogue: " ++ layer) ++ 44%Z :: st ++ 44%Z :: et ++ sub (Seq (Chr 44%Z) k) t (44%Z :: M).
Proof.
  rewrite !forallb_app. intros H. apply andb_true_iff in H as [Hl H]. apply andb_true_iff in H as [Hs He].
  rewrite sub_skip_absent; [f_equal | exact k_local |].
  2:{ rewrite in_app_iff. intros [F|F]; [vm_compute in F; intuition discriminate|].
      exact (time_not_in 44%Z layer Hl (or_introl eq_refl) F). }
  rewrite comma_quiet by exact Hs. f_equal.
  rewrite sub_skip_absent by (exact k_local || exact (time_not_in 44%Z st Hs (or_introl eq_refl))).
  f_equal. rewrite comma_quiet by exact He. f_equal.
  apply sub_skip_absent; [exact k_local | exact (time_not_in 44%Z et He (or_introl eq_refl))].
Qed.
End Quiet.

Lemma not_time_chars w z :
  forallb (fun c => negb (time_char c || (c =? 44)%Z)) w = true ->
  (time_char z || (z =? 44)%Z) = true -> existsb (Z.eqb z) w = false.
Proof.
  induction w as [|c w IH]; simpl; intros Hw Hz; [reflexivity|].
  apply andb_true_iff in Hw as [Hc Hw]. rewrite IH by assumption.
  destruct (Z.eqb_spec z c) as [->|]; [rewrite Hz in Hc; discriminate | reflexivity].
Qed.

(** Every style rule fails at a comma followed by a time character or
    by another comma. *)
Lemma style_rules_quiet r t : In (r, t) style_rules ->
  exists k, r = Seq (Chr 44%Z) k /\ line_local (Seq (Chr 44%Z) k) = true /\
    forall z s p cs, (time_char z || (z =? 44)%Z) = true -> matches k p (z :: s) cs = [].
Proof.
  intros H. repeat (destruct H as [H|H]; [injection H as <- <-; eexists; split; [reflexivity|];
    split; [reflexivity|]; intros z s p cs Hz; apply seq_nil_l|]); [..|destruct H].
  all: try (apply seq_nil_l; apply cls_nil; rewrite in_items_chars; apply not_time_chars; [reflexivity | exact Hz]).
  all: repeat apply seq_nil_l; apply chr_nil; intros <-; vm_compute in Hz; discriminate.
Qed.

(** [(\{.+?\})*(.+)] on a text that does not start with a tag: group 2
    is the whole text. *)
Lemma first_text y b p cs :
  ~ In 10%Z (y :: b) -> y <> 123%Z ->
  first (Seq tags_text Eps) p (y :: b) cs = Some (p + length (y :: b), [], (2, y :: b) :: cs).
Proof.
  intros Hn Hy. unfold tags_text. rewrite first_seq_assoc. unfold first.
  rewrite seq_star_stop by (apply group_nil, seq_nil_l, chr_nil; congruence).
  fold (first (Seq (Group 2 (plus true (Dot false))) Eps) p (y :: b) cs).
  rewrite first_seq_eps_end. apply first_group_whole, first_plus_dots_all, Hn.
Qed.

(** Python's match of the [Caption] rule on [,Caption...,Name,0..0,0..0,0..0,Effect,Text]:
    it takes the rest of the line and captures the text. *)
Lemma caption_first sfx name eff body k1 k2 k3 :
  plain_field (sfx ++ name ++ eff ++ body) = true -> body <> [] ->
  exists e, first (style_rule (style_head "cC" "aption")) 0
    (44%Z :: (u "Caption" ++ sfx) ++ 44%Z :: name ++ 44%Z :: repeat 48%Z (S k1) ++ 44%Z ::
     repeat 48%Z (S k2) ++ 44%Z :: repeat 48%Z (S k3) ++ 44%Z :: eff ++ 44%Z :: body) []
    = Some (e, [], [(2, body)]).
Proof.
  rewrite !plain_field_app. intros H Hb.
  apply andb_true_iff in H as [Hs H]. apply andb_true_iff in H as [Hn H]. apply andb_true_iff in H as [He Ht].
  destruct body as [|y b]; [congruence|].
  eexists. unfold style_rule, style_head, seqs, dots_lazy, zeros. cbn [fold_right].
  rewrite first_chr, first_seq_assoc.
  change (u "Caption") with (67%Z :: u "aption"). cbn [app]. unfold C, chars.
  rewrite first_cls by reflexivity. rewrite first_seq_assoc. unfold L.
  rewrite <- app_assoc, first_lit, first_seq_assoc, first_seq_eps_r.
  apply first_lazy_dots_to; [apply plain_not_in; auto; simpl; tauto .. |].
  apply first_lazy_dots_to; [apply plain_not_in; auto; simpl; tauto .. |].
  unfold plus. rewrite first_seq_assoc. apply first_zeros_to.
  rewrite first_seq_assoc. apply first_zeros_to.
  rewrite first_seq_assoc. apply first_zeros_to.
  apply first_lazy_dots_to; [apply plain_not_in; auto; simpl; tauto .. |].
  rewrite first_text; [reflexivity | |].
  - apply plain_not_in; auto; simpl; tauto.
  - intros ->. apply (plain_not_in 123%Z (123%Z :: b) Ht); simpl; tauto.
Qed.

(** The rules after [Caption] pass over the rewritten fields. *)
Lemma mid_quiet r t X : In (r, t) (tl style_rules) -> sub r t (caption_mid ++ X) = caption_mid ++ sub r t X.
Proof.
  intros H. change caption_mid with [44;67;97;112;116;105;111;110;44;44;48;48;48;48;44;48;48;48;48;44;48;48;48;48;44;44;65288]%Z.
  cbn [app].
  repeat (destruct H as [H|H]; [injection H as <- <-;
    repeat (rewrite sub_cons_quiet; [| reflexivity | vm_compute; reflexivity]); reflexivity|]).
  destruct H.
Qed.

Lemma sub_chain_fixed rules s :
  (forall r t, In (r, t) rules -> sub r t s = s) -> sub_chain rules s = s.
Proof.
  unfold sub_chain. induction rules as [|[r t] rules IH]; intros H; [reflexivity|].
  simpl. rewrite (H r t (or_introl eq_refl)). apply IH. intros r' t' Hin. apply H. right. exact Hin.
Qed.

Lemma not_in_dialogue c fs :
  c <> 44%Z -> ~ In c (u "Dialogue: ") -> Forall (fun f => ~ In c f) fs -> ~ In c (dialogue fs).
Proof.
  unfold dialogue. intros Hc Hd Hf. rewrite in_app_iff. intros [F|F]; [exact (Hd F)|]. revert F.
  induction Hf as [|f fs Hf1 Hf2 IH]; [intros []|].
  destruct fs as [|f' fs]; [exact Hf1|]. rewrite join_cons by discriminate.
  rewrite !in_app_iff. intros [F|[F|F]]; [exact (Hf1 F) | | exact (IH F)].
  destruct F as [F|[]]. exact (Hc (eq_sym F)).
Qed.

Lemma sub_chain_cons r t rules s : sub_chain ((r, t) :: rules) s = sub_chain rules (sub r t s).
Proof. reflexivity. Qed.

(** A dialogue line as its time prefix, the comma before the style and
    the other fields. *)
Lemma dialogue_split layer st et f fs :
  dialogue (layer :: st :: et :: f :: fs) =
  (u "Dialogue: " ++ layer) ++ 44%Z :: st ++ 44%Z :: et ++ 44%Z :: join [44%Z] (f :: fs).
Proof. unfold dialogue. rewrite <- app_assoc. reflexivity. Qed.

Lemma caption_tpl_lit : u "," ++ u "Caption" ++ u ",,0000,0000,0000,,（" = caption_mid.
Proof. vm_compute. reflexivity. Qed.

Lemma caption_mid_cons x : caption_mid ++ x = 44%Z :: (tl caption_mid ++ x).
Proof. unfold caption_mid; vm_compute; reflexivity. Qed.

Lemma not_in_repeat_zero c n : c <> 48%Z -> ~ In c (repeat 48%Z n).
Proof. intros H F. apply repeat_spec in F. exact (H F). Qed.

(** Neither [{] nor [&] appears in such a line. *)
Lemma caption_line_avoids c layer st et sfx name eff body k1 k2 k3 :
  In c [123; 38]%Z -> forallb time_char (layer ++ st ++ et) = true ->
  plain_field (sfx ++ name ++ eff ++ body) = true ->
  ~ In c (dialogue [layer; st; et; u "Caption" ++ sfx; name; repeat 48%Z (S k1); repeat 48%Z (S k2);
                    repeat 48%Z (S k3); eff; body]).
Proof.
  intros Hc Ht Hp. rewrite !forallb_app in Ht. rewrite !plain_field_app in Hp.
  repeat match goal with H : _ && _ = true |- _ => apply andb_true_iff in H as [? ?] end.
  assert (Hc' : In c [44; 123; 38; 10]%Z) by (simpl in *; tauto).
  assert (H48 : c <> 48%Z) by (destruct Hc as [<-|[<-|[]]]; discriminate).
  apply not_in_dialogue; [destruct Hc as [<-|[<-|[]]]; discriminate
                         | destruct Hc as [<-|[<-|[]]]; vm_compute; intuition discriminate |].
  repeat apply Forall_cons; try apply Forall_nil;
    try (apply time_not_in; assumption); try (apply plain_not_in; assumption);
    try (apply not_in_repeat_zero; exact H48).
Qed.

(** C10. A [Dialogue] line of style [Caption] (or [caption], with any
    suffix), with zero margins, is rewritten to the canonical [Caption]
    line: the name and effect fields are emptied, the margins written
    [0000], and the text put in full-width parentheses; the layer and
    times are kept.  The other rules leave the rewritten line alone. *)
Theorem ass_caption_line ty layer st et sfx name eff body k1 k2 k3 :
  forallb time_char (layer ++ st ++ et) = true ->
  plain_field (sfx ++ name ++ eff ++ body) = true -> body <> [] ->
  convert_ass_content
    (dialogue [layer; st; et; u "Caption" ++ sfx; name; repeat 48%Z (S k1); repeat 48%Z (S k2);
               repeat 48%Z (S k3); eff; body]) ty =
  dialogue [layer; st; et; u "Caption"; []; u "0000"; u "0000"; u "0000"; []; u "（" ++ body ++ u "）"].
Proof.
  intros Ht Hp Hb.
  assert (Hq : forall c, In c [123; 38]%Z -> ~ In c (dialogue [layer; st; et; u "Caption" ++ sfx; name;
    repeat 48%Z (S k1); repeat 48%Z (S k2); repeat 48%Z (S k3); eff; body])).
  { intros c Hc. apply caption_line_avoids; assumption. }
  unfold convert_ass_content. cbv zeta.
  change color_re with (Seq (Chr 123%Z) (seqs [L "\c&"; plus true upper_digit; L "&}"])).
  rewrite sub_absent by (reflexivity || (apply Hq; simpl; tauto)).
  change hex_re with (Seq (Chr 38%Z) (seqs ([Chr 72%Z] ++ repeat upper_digit 6 ++
    [Alt (Seq upper_digit (Alt upper_digit Eps)) Eps]))).
  replace (if str_eqb ty (u ".ssa") then _ else _) with
    (dialogue [layer; st; et; u "Caption" ++ sfx; name; repeat 48%Z (S k1); repeat 48%Z (S k2);
    repeat 48%Z (S k3); eff; body])
    by (destruct (str_eqb ty (u ".ssa")); [rewrite sub_absent by (reflexivity || (apply Hq; simpl; tauto))|]; reflexivity).
  rewrite dialogue_split. change style_rules with
    ((style_rule (style_head "cC" "aption"), paren_tpl "Caption") :: tl style_rules).
  rewrite sub_chain_cons.
  destruct (style_rules_quiet _ _ (or_introl eq_refl)) as [k [Ek [Hl Hk]]]. cbv beta in Ek.
  rewrite Ek, (times_quiet k _ Hl Hk) by exact Ht. rewrite <- Ek.
  destruct (caption_first sfx name eff body k1 k2 k3 Hp Hb) as [e He].
  rewrite (sub_whole _ _ _ _ _ (eq_refl : nullable (style_rule (style_head "cC" "aption")) = false) He).
  replace (expand (paren_tpl "Caption") [(2, body)]) with (caption_mid ++ body ++ u "）")
    by (unfold expand, paren_tpl; cbn [flat_map group_text List.find]; simpl Nat.eqb;
        rewrite app_nil_r, <- caption_tpl_lit, <- !app_assoc; reflexivity).
  rewrite sub_chain_fixed.
  - unfold dialogue. cbn [join]. rewrite <- !app_assoc. unfold caption_mid. vm_compute. reflexivity.
  - intros r t Hin. destruct (style_rules_quiet r t (or_intror Hin)) as [k' [Ek' [Hl' Hk']]].
    rewrite Ek', caption_mid_cons.
    rewrite (times_quiet k' _ Hl' Hk') by exact Ht.
    rewrite <- caption_mid_cons, <- Ek', (mid_quiet r t _ Hin), Ek'.
    rewrite sub_absent; [reflexivity | exact Hl' |].
    rewrite in_app_iff. intros [F|F]; [| vm_compute in F; intuition discriminate].
    rewrite !plain_field_app in Hp.
    repeat match goal with H : _ && _ = true |- _ => apply andb_true_iff in H as [? ?] end.
    exact (plain_not_in 44%Z body ltac:(assumption) ltac:(simpl; tauto) F).
Qed.

Lemma ass_caption_line_witness :
  forallb time_char (u "0" ++ u "0:00:01.00" ++ u "0:00:02.00") = true /\
  plain_field ([] ++ u "Bob" ++ [] ++ u "你好") = true /\ u "你好" <> [] /\
  convert_ass_content
    (dialogue [u "0"; u "0:00:01.00"; u "0:00:02.00"; u "Caption" ++ []; u "Bob"; repeat 48%Z 4;
               repeat 48%Z 4; repeat 48%Z 4; []; u "你好"]) (u ".ass") =
  dialogue [u "0"; u "0:00:01.00"; u "0:00:02.00"; u "Caption"; []; u "0000"; u "0000"; u "0000"; [];
            u "（" ++ u "你好" ++ u "）"].
Proof.
  assert (T : forallb time_char (u "0" ++ u "0:00:01.00" ++ u "0:00:02.00") = true) by (vm_compute; reflexivity).
  assert (P : plain_field ([] ++ u "Bob" ++ [] ++ u "你好") = true) by (vm_compute; reflexivity).
  assert (N : u "你好" <> []) by (vm_compute; discriminate).
  split; [exact T|]. split; [exact P|]. split; [exact N|].
  exact (ass_caption_line (u ".ass") _ _ _ [] (u "Bob") [] (u "你好") 3 3 3 T P N).
Defined.
