(* ===== verification/Diff.v ===== *)
(** * [difflib.ndiff] on two strings, as [print_typo_compare] calls it

    The diff reporter (lines 525-569) compares two texts with
    [difflib.ndiff(a, b)], where [a] and [b] are Python strings: the
    sequences compared are their characters.  This file models the
    standard-library code that call runs (CPython 3.11 [difflib]):
    - [SequenceMatcher(None, a, b)]: [b2j] with the [autojunk] pruning of
      popular characters (only for [len(b) >= 200]), [find_longest_match]
      (the dynamic programme over [j2len] and the two extension loops;
      no junk is declared), [get_matching_blocks] (the work queue, the
      sort, the merge of adjacent blocks, the sentinel) and
      [get_opcodes];
    - [Differ.compare]: [_dump], [_plain_replace], and [_fancy_replace]
      as it behaves on characters: two different characters have ratio
      0, below the cutoff 0.75, so a replaced range is either dumped
      plainly or split at its first pair of equal characters.
    The lines of the result are Python strings of three characters: a
    tag ([' '], ['-'] or ['+']), a space and the character.  Loops that
    are not structural carry a counter shown sufficient. *)

From Stdlib Require Import String.
From Stdlib Require Import List ZArith Lia Bool Sorting.Sorted Sorting.Permutation.
Import ListNotations.
From S2P Require Import Prelude PyStr.
Open Scope sub_scope.

(** ** [SequenceMatcher] *)

(** [x[i]] for an index the code keeps in range. *)
Definition at_ (x : str) (i : nat) : char := nth i x 0%Z.

Definition count_char (c : char) (b : str) : nat := length (filter (Z.eqb c) b).

(** [__chain_b]: the positions of [c] in [b], or none when [c] is popular
    ([autojunk] and [len(b) >= 200]). *)
Definition b2j (b : str) (c : char) : list nat :=
  let n := length b in
  if (200 <=? n) && (n / 100 + 1 <? count_char c b) then []
  else filter (fun j => at_ b j =? c)%Z (seq 0 n).

(** [j2len.get(j - 1, 0)]. *)
Definition j2len_get (j2len : list (nat * nat)) (j : nat) : nat :=
  match j with
  | O => 0
  | S j' => match List.find (fun p => fst p =? j') j2len with Some (_, k) => k | None => 0 end
  end.

(** The inner loop over [b2j[a[i]]]: [continue] below [blo], [break] at
    [bhi]; the state is [newj2len] and the best match so far. *)
Fixpoint inner_loop (j2len : list (nat * nat)) (i blo bhi : nat) (js : list nat)
    (newj2len : list (nat * nat)) (best : nat * nat * nat) : list (nat * nat) * (nat * nat * nat) :=
  match js with
  | [] => (newj2len, best)
  | j :: js' =>
      if j <? blo then inner_loop j2len i blo bhi js' newj2len best
      else if bhi <=? j then (newj2len, best)
      else
        let k := j2len_get j2len j + 1 in
        let '(besti, bestj, bestsize) := best in
        inner_loop j2len i blo bhi js' ((j, k) :: newj2len)
                   (if bestsize <? k then (i + 1 - k, j + 1 - k, k) else best)
  end.

(** The extension loops: at most [n] steps each. *)
Fixpoint extend_left (a b : str) (alo blo : nat) (n : nat) (best : nat * nat * nat) : nat * nat * nat :=
  match n with
  | O => best
  | S n' =>
      let '(besti, bestj, bestsize) := best in
      if (alo <? besti) && (blo <? bestj) && (at_ a (besti - 1) =? at_ b (bestj - 1))%Z
      then extend_left a b alo blo n' (besti - 1, bestj - 1, bestsize + 1)
      else best
  end.

Fixpoint extend_right (a b : str) (ahi bhi : nat) (n : nat) (best : nat * nat * nat) : nat * nat * nat :=
  match n with
  | O => best
  | S n' =>
      let '(besti, bestj, bestsize) := best in
      if (besti + bestsize <? ahi) && (bestj + bestsize <? bhi)
         && (at_ a (besti + bestsize) =? at_ b (bestj + bestsize))%Z
      then extend_right a b ahi bhi n' (besti, bestj, bestsize + 1)
      else best
  end.

(** [find_longest_match(alo, ahi, blo, bhi)]. *)
Definition find_longest_match (a b : str) (alo ahi blo bhi : nat) : nat * nat * nat :=
  let '(_, best) :=
    fold_left (fun '(j2len, best) i =>
                 inner_loop j2len i blo bhi (b2j b (at_ a i)) [] best)
              (seq alo (ahi - alo)) ([], (alo, blo, 0)) in
  let best := extend_left a b alo blo (ahi - alo) best in
  extend_right a b ahi bhi (ahi - alo) best.

(** [get_matching_blocks]: the work queue is a Python list used as a
    stack ([pop()] takes the last element, [append] puts at the end); here
    the top of the stack is the head.  Each iteration removes a range or
    replaces it by two smaller ones, so [2 * len(a) + 1] iterations are
    enough ([mb_loop_enough]). *)
Fixpoint mb_loop (fuel : nat) (a b : str) (queue : list (nat * nat * nat * nat))
    (blocks : list (nat * nat * nat)) : list (nat * nat * nat) :=
  match fuel with
  | O => blocks
  | S f =>
      match queue with
      | [] => blocks
      | (alo, ahi, blo, bhi) :: rest =>
          let '(i, j, k) := find_longest_match a b alo ahi blo bhi in
          if k =? 0 then mb_loop f a b rest blocks
          else mb_loop f a b
                 ((if (i + k <? ahi) && (j + k <? bhi) then [(i + k, ahi, j + k, bhi)] else []) ++
                  (if (alo <? i) && (blo <? j) then [(alo, i, blo, j)] else []) ++ rest)
                 (blocks ++ [(i, j, k)])
      end
  end.

(** The order of Python tuples. *)
Definition triple_ltb (x y : nat * nat * nat) : bool :=
  let '(i1, j1, k1) := x in let '(i2, j2, k2) := y in
  (i1 <? i2) || ((i1 =? i2) && ((j1 <? j2) || ((j1 =? j2) && (k1 <? k2)))).

Fixpoint insert_triple (x : nat * nat * nat) (l : list (nat * nat * nat)) : list (nat * nat * nat) :=
  match l with
  | [] => [x]
  | y :: l' => if triple_ltb y x then y :: insert_triple x l' else x :: l
  end.

(** [matching_blocks.sort()]. *)
Definition sort_triples (l : list (nat * nat * nat)) : list (nat * nat * nat) :=
  fold_left (fun acc x => insert_triple x acc) l [].

(** The loop that merges adjacent blocks. *)
Definition collapse (blocks : list (nat * nat * nat)) : list (nat * nat * nat) :=
  let '(i1, j1, k1, acc) :=
    fold_left (fun '(i1, j1, k1, acc) '(i2, j2, k2) =>
                 if (i1 + k1 =? i2) && (j1 + k1 =? j2) then (i1, j1, k1 + k2, acc)
                 else (i2, j2, k2, if k1 =? 0 then acc else acc ++ [(i1, j1, k1)]))
              blocks (0, 0, 0, []) in
  if k1 =? 0 then acc else acc ++ [(i1, j1, k1)].

Definition get_matching_blocks (a b : str) : list (nat * nat * nat) :=
  let la := length a in
  let lb := length b in
  collapse (sort_triples (mb_loop (2 * la + 1) a b [(0, la, 0, lb)] [])) ++ [(la, lb, 0)].

Inductive optag : Type := Replace | Delete | Insert | Equal.

Definition opcode := (optag * nat * nat * nat * nat)%type.

(** [get_opcodes]. *)
Definition get_opcodes (a b : str) : list opcode :=
  let '(_, _, answer) :=
    fold_left (fun '(i, j, answer) '(ai, bj, size) =>
                 let tagged :=
                   if (i <? ai) && (j <? bj) then [(Replace, i, ai, j, bj)]
                   else if i <? ai then [(Delete, i, ai, j, bj)]
                   else if j <? bj then [(Insert, i, ai, j, bj)]
                   else [] in
                 let i' := ai + size in
                 let j' := bj + size in
                 (i', j', answer ++ tagged ++ (if size =? 0 then [] else [(Equal, ai, i', bj, j')])))
              (get_matching_blocks a b) (0, 0, []) in
  answer.

(** ** [Differ] *)

Definition tag_eq : char := 32%Z.     (** [' '] *)
Definition tag_del : char := 45%Z.    (** ['-'] *)
Definition tag_ins : char := 43%Z.    (** ['+'] *)

(** [_dump(tag, x, lo, hi)]: the lines ['%s %s' % (tag, x[i])]. *)
Definition dump (tag : char) (x : str) (lo hi : nat) : list str :=
  map (fun i => [tag; 32%Z; at_ x i]) (seq lo (hi - lo)).

(** [_plain_replace]: the shorter block first. *)
Definition plain_replace (a b : str) (alo ahi blo bhi : nat) : list str :=
  if bhi - blo <? ahi - alo then dump tag_ins b blo bhi ++ dump tag_del a alo ahi
  else dump tag_del a alo ahi ++ dump tag_ins b blo bhi.

(** The first pair of equal characters in the order of the loops of
    [_fancy_replace]: [j] outer, [i] inner. *)
Definition first_equal_pair (a b : str) (alo ahi blo bhi : nat) : option (nat * nat) :=
  let pairs := flat_map (fun j => map (fun i => (i, j)) (seq alo (ahi - alo))) (seq blo (bhi - blo)) in
  List.find (fun '(i, j) => at_ a i =? at_ b j)%Z pairs.

(** [_fancy_helper], given the function it calls for a replaced range. *)
Definition fancy_helper (rep : nat -> nat -> nat -> nat -> list str) (a b : str)
    (alo ahi blo bhi : nat) : list str :=
  if alo <? ahi then
    if blo <? bhi then rep alo ahi blo bhi else dump tag_del a alo ahi
  else if blo <? bhi then dump tag_ins b blo bhi else [].

(** [_fancy_replace] on characters: [n] bounds the length of the range
    of [a]; each recursive call is on a shorter range. *)
Fixpoint fancy_replace (n : nat) (a b : str) (alo ahi blo bhi : nat) : list str :=
  match n with
  | O => []
  | S n' =>
      match first_equal_pair a b alo ahi blo bhi with
      | None => plain_replace a b alo ahi blo bhi
      | Some (ei, ej) =>
          fancy_helper (fancy_replace n' a b) a b alo ei blo ej ++
          [[tag_eq; 32%Z; at_ a ei]] ++
          fancy_helper (fancy_replace n' a b) a b (S ei) ahi (S ej) bhi
      end
  end.

(** The body of the loop of [Differ.compare]: the lines of one opcode. *)
Definition render_op (a b : str) (op : opcode) : list str :=
  let '(tag, alo, ahi, blo, bhi) := op in
  match tag with
  | Replace => fancy_replace (ahi - alo) a b alo ahi blo bhi
  | Delete => dump tag_del a alo ahi
  | Insert => dump tag_ins b blo bhi
  | Equal => dump tag_eq a alo ahi
  end.

(** [Differ().compare(a, b)], i.e. [difflib.ndiff(a, b)] on strings. *)
Definition ndiff (a b : str) : list str := flat_map (render_op a b) (get_opcodes a b).

(** ** What the theorems are stated with *)

(** [x[lo:hi]] for [hi <= len(x)]. *)
Definition slice (x : str) (lo hi : nat) : str := map (at_ x) (seq lo (hi - lo)).

(** [a[i:i+k] == b[j:j+k]]. *)
Definition match_at (a b : str) (i j k : nat) : Prop := forall d, d < k -> at_ a (i + d) = at_ b (j + d).

(** The characters of [a] an [ndiff] line stands for ([' '] and ['-']
    lines), and those of [b] ([' '] and ['+'] lines). *)
Definition a_side (l : str) : str :=
  match l with [t; _; c] => if (t =? tag_eq)%Z || (t =? tag_del)%Z then [c] else [] | _ => [] end.
Definition b_side (l : str) : str :=
  match l with [t; _; c] => if (t =? tag_eq)%Z || (t =? tag_ins)%Z then [c] else [] | _ => [] end.

(** A result of [find_longest_match] inside the range it was asked for. *)
Definition block_in (a b : str) (alo ahi blo bhi : nat) (m : nat * nat * nat) : Prop :=
  let '(i, j, k) := m in alo <= i /\ i + k <= ahi /\ blo <= j /\ j + k <= bhi /\ match_at a b i j k.

(** A row of [j2len] after the rows of [a] below [top]: each entry
    [(j, len)] is a common suffix of [a[:top]] and [b[:j+1]] inside the
    range. *)
Definition row_ok (a b : str) (alo blo bhi top : nat) (row : list (nat * nat)) : Prop :=
  forall j len, In (j, len) row ->
    1 <= len /\ alo + len <= top /\ blo + len <= j + 1 /\ j < bhi /\
    match_at a b (top - len) (j + 1 - len) len.

(** The ranges of the work queue and the blocks, as rectangles
    [(alo, ahi, blo, bhi)] of [a] x [b]. *)
Definition rect := (nat * nat * nat * nat)%type.

Definition block_rect (m : nat * nat * nat) : rect := let '(i, j, k) := m in (i, i + k, j, j + k).

(** [x] lies before [y] in both texts. *)
Definition before (x y : rect) : Prop :=
  let '(_, xahi, _, xbhi) := x in let '(yalo, _, yblo, _) := y in xahi <= yalo /\ xbhi <= yblo.

Definition sub_rect (x y : rect) : Prop :=
  let '(xalo, xahi, xblo, xbhi) := x in let '(yalo, yahi, yblo, ybhi) := y in
  yalo <= xalo /\ xahi <= yahi /\ yblo <= xblo /\ xbhi <= ybhi.

Definition nonempty (x : rect) : Prop := let '(alo, ahi, _, _) := x in alo < ahi.

Definition range_ok (la lb : nat) (r : rect) : Prop :=
  let '(alo, ahi, blo, bhi) := r in alo <= ahi <= la /\ blo <= bhi <= lb.

(** The invariant of [get_matching_blocks]' loop: the pending ranges and
    the blocks found are pairwise ordered, and the blocks are matches. *)
Definition mb_inv (a b : str) (la lb : nat) (queue : list rect) (blocks : list (nat * nat * nat)) : Prop :=
  (forall r, In r queue -> range_ok la lb r) /\
  (forall m, In m blocks -> block_in a b 0 la 0 lb m /\ 0 < snd m) /\
  NoDup (queue ++ map block_rect blocks) /\
  (forall x y, In x (queue ++ map block_rect blocks) -> In y (queue ++ map block_rect blocks) ->
               x <> y -> before x y \/ before y x).

(** [l] is a chain of matching blocks starting at [(i, j)]: each block
    starts after the end of the one before and ends inside the texts. *)
Inductive chain (a b : str) (la lb : nat) : nat -> nat -> list (nat * nat * nat) -> Prop :=
| chain_nil i j : i <= la -> j <= lb -> chain a b la lb i j []
| chain_cons i j ai bj k rest :
    i <= ai -> j <= bj -> match_at a b ai bj k -> chain a b la lb (ai + k) (bj + k) rest ->
    chain a b la lb i j ((ai, bj, k) :: rest).

(** The measure of the work queue: each iteration decreases it. *)
Definition queue_measure (queue : list rect) : nat :=
  list_sum (map (fun '(alo, ahi, _, _) => 2 * (ahi - alo) + 1) queue).

Definition triple_leb (x y : nat * nat * nat) : Prop := triple_ltb y x = false.

(** The merge loop of adjacent blocks, with its running block as
    parameters and without its accumulator. *)
Fixpoint collapse_from (i1 j1 k1 : nat) (l : list (nat * nat * nat)) : list (nat * nat * nat) :=
  match l with
  | [] => if k1 =? 0 then [] else [(i1, j1, k1)]
  | (i2, j2, k2) :: l' =>
      if (i1 + k1 =? i2) && (j1 + k1 =? j2) then collapse_from i1 j1 (k1 + k2) l'
      else (if k1 =? 0 then [] else [(i1, j1, k1)]) ++ collapse_from i2 j2 k2 l'
  end.

(** The opcodes [get_opcodes] emits for a list of blocks, starting at
    [(i, j)], without its accumulator. *)
Fixpoint ops_from (i j : nat) (bl : list (nat * nat * nat)) : list opcode :=
  match bl with
  | [] => []
  | (ai, bj, size) :: rest =>
      (if (i <? ai) && (j <? bj) then [(Replace, i, ai, j, bj)]
       else if i <? ai then [(Delete, i, ai, j, bj)]
       else if j <? bj then [(Insert, i, ai, j, bj)]
       else []) ++
      (if size =? 0 then [] else [(Equal, ai, ai + size, bj, bj + size)]) ++
      ops_from (ai + size) (bj + size) rest
  end.

(** The lines [ls] stand for [a[alo:ahi]] on the side of [a] and for
    [b[blo:bhi]] on the side of [b]. *)
Definition sides_ok (a b : str) (alo ahi blo bhi : nat) (ls : list str) : Prop :=
  flat_map a_side ls = slice a alo ahi /\ flat_map b_side ls = slice b blo bhi.

(** The point a chain of blocks ends at. *)
Fixpoint chain_end (i j : nat) (bl : list (nat * nat * nat)) : nat * nat :=
  match bl with [] => (i, j) | (ai, bj, k) :: rest => chain_end (ai + k) (bj + k) rest end.

(** An [ndiff] line on characters: one of the tags ['  '], ['- '], ['+ ']
    and a character (a ['? '] guide line is only written for two similar
    lines, and two different characters have ratio 0). *)
Definition line_shape (l : str) : Prop :=
  exists t c, In t [tag_eq; tag_del; tag_ins] /\ l = [t; 32%Z; c].

(** The number of lines of an alignment that are not [' '] lines. *)
Definition edits (L : list str) : nat := length (filter (fun l => negb (hd 0%Z l =? 32)%Z) L).

(** ** [find_longest_match] returns a match inside its range *)

Lemma b2j_spec (b : str) (c : char) (j : nat) : In j (b2j b c) -> at_ b j = c /\ j < length b.
Proof.
  unfold b2j. destruct (_ && _); [intros []|]. intros H. apply filter_In in H as [H1 H2].
  apply in_seq in H1. apply Z.eqb_eq in H2. split; [exact H2 | lia].
Qed.

Lemma match_at_snoc (a b : str) (i j k : nat) :
  match_at a b i j k -> at_ a (i + k) = at_ b (j + k) -> match_at a b i j (S k).
Proof. intros H E d Hd. destruct (Nat.eq_dec d k) as [->|Hne]; [exact E | apply H; lia]. Qed.

Lemma match_at_cons (a b : str) (i j k : nat) :
  match_at a b (S i) (S j) k -> at_ a i = at_ b j -> match_at a b i j (S k).
Proof.
  intros H E [|d] Hd; [rewrite !Nat.add_0_r; exact E|].
  replace (i + S d) with (S i + d) by lia. replace (j + S d) with (S j + d) by lia. apply H. lia.
Qed.

Lemma j2len_get_spec (a b : str) (alo blo bhi i : nat) (row : list (nat * nat)) (j : nat) :
  row_ok a b alo blo bhi i row -> j2len_get row j = 0 \/
  exists len, j2len_get row j = len /\ 1 <= len /\ alo + len <= i /\ blo + len <= j /\
              match_at a b (i - len) (j - len) len.
Proof.
  intros Hr. unfold j2len_get. destruct j as [|j']; [left; reflexivity|].
  destruct (List.find (fun p => fst p =? j') row) as [[j'' len]|] eqn:F; [|left; reflexivity].
  right. exists len. apply find_some in F as [Hin Heq]. apply Nat.eqb_eq in Heq. simpl in Heq. subst j''.
  destruct (Hr j' len Hin) as [H1 [H2 [H3 [H4 H5]]]]. repeat split; try lia.
  replace (S j' - len) with (j' + 1 - len) by lia. exact H5.
Qed.

Lemma inner_loop_ok (a b : str) (alo ahi blo bhi i : nat) (row : list (nat * nat)) :
  alo <= i < ahi -> row_ok a b alo blo bhi i row ->
  forall js newrow best, row_ok a b alo blo bhi (S i) newrow -> block_in a b alo ahi blo bhi best ->
  (forall j, In j js -> at_ b j = at_ a i) ->
  row_ok a b alo blo bhi (S i) (fst (inner_loop row i blo bhi js newrow best)) /\
  block_in a b alo ahi blo bhi (snd (inner_loop row i blo bhi js newrow best)).
Proof.
  intros Hi Hrow. induction js as [|j js IH]; intros newrow best Hnew Hbest Hjs; [split; assumption|].
  cbn [inner_loop]. destruct (Nat.ltb_spec j blo); [apply IH; auto; intros; apply Hjs; right; auto|].
  destruct (Nat.leb_spec bhi j); [split; assumption|].
  assert (Hj : at_ b j = at_ a i) by (apply Hjs; left; reflexivity).
  assert (Hk : let k := j2len_get row j + 1 in
               1 <= k /\ alo + k <= S i /\ blo + k <= j + 1 /\ match_at a b (S i - k) (j + 1 - k) k).
  { destruct (j2len_get_spec a b alo blo bhi i row j Hrow) as [->|[len [-> [H1 [H2 [H3 H4]]]]]].
    - simpl. repeat split; try lia. intros [|d] Hd; [|lia]. rewrite !Nat.add_0_r.
      replace (i - 0) with i by lia. replace (j + 1 - 1) with j by lia. symmetry. exact Hj.
    - repeat split; try lia. replace (S i - (len + 1)) with (i - len) by lia.
      replace (j + 1 - (len + 1)) with (j - len) by lia. rewrite Nat.add_1_r.
      apply match_at_snoc; [exact H4|]. replace (i - len + len) with i by lia.
      replace (j - len + len) with j by lia. symmetry. exact Hj. }
  destruct best as [[bi bj] bk]. cbv zeta in Hk. destruct Hk as [K1 [K2 [K3 K4]]].
  apply IH; auto; [| |intros; apply Hjs; right; auto].
  - intros j' len' [E|Hin]; [injection E as <- <-; repeat split; auto; lia | apply Hnew, Hin].
  - destruct (Nat.ltb_spec bk (j2len_get row j + 1)); [|exact Hbest].
    unfold block_in. replace (i + 1 - (j2len_get row j + 1)) with (S i - (j2len_get row j + 1)) by lia.
    repeat split; try lia. exact K4.
Qed.

Lemma extend_left_ok (a b : str) (alo ahi blo bhi : nat) : forall n best,
  block_in a b alo ahi blo bhi best -> block_in a b alo ahi blo bhi (extend_left a b alo blo n best).
Proof.
  induction n as [|n IH]; intros [[bi bj] bk] H; [exact H|]. cbn [extend_left].
  destruct (Nat.ltb_spec alo bi); [|exact H]. destruct (Nat.ltb_spec blo bj); [|exact H].
  destruct (at_ a (bi - 1) =? at_ b (bj - 1))%Z eqn:E; [|exact H]. apply Z.eqb_eq in E.
  apply IH. destruct H as [B1 [B2 [B3 [B4 B5]]]]. repeat split; try lia.
  rewrite Nat.add_1_r. apply match_at_cons; [|exact E]. replace (S (bi - 1)) with bi by lia.
  replace (S (bj - 1)) with bj by lia. exact B5.
Qed.

Lemma extend_right_ok (a b : str) (alo ahi blo bhi : nat) : forall n best,
  block_in a b alo ahi blo bhi best -> block_in a b alo ahi blo bhi (extend_right a b ahi bhi n best).
Proof.
  induction n as [|n IH]; intros [[bi bj] bk] H; [exact H|]. cbn [extend_right].
  destruct (Nat.ltb_spec (bi + bk) ahi); [|exact H]. destruct (Nat.ltb_spec (bj + bk) bhi); [|exact H].
  destruct (at_ a (bi + bk) =? at_ b (bj + bk))%Z eqn:E; [|exact H]. apply Z.eqb_eq in E.
  apply IH. destruct H as [B1 [B2 [B3 [B4 B5]]]]. repeat split; try lia.
  rewrite Nat.add_1_r. apply match_at_snoc; assumption.
Qed.

Lemma flm_rows (a b : str) (alo ahi blo bhi : nat) : alo <= ahi -> blo <= bhi ->
  forall k, k <= ahi - alo ->
  row_ok a b alo blo bhi (alo + k)
    (fst (fold_left (fun '(j2len, best) i => inner_loop j2len i blo bhi (b2j b (at_ a i)) [] best)
                    (seq alo k) ([], (alo, blo, 0)))) /\
  block_in a b alo ahi blo bhi
    (snd (fold_left (fun '(j2len, best) i => inner_loop j2len i blo bhi (b2j b (at_ a i)) [] best)
                    (seq alo k) ([], (alo, blo, 0)))).
Proof.
  intros Ha Hb. induction k as [|k IH]; intros Hk.
  - split; [intros j len []|]. repeat split; try lia. intros d Hd. lia.
  - rewrite seq_S, fold_left_app. cbn [fold_left].
    destruct (fold_left _ (seq alo k) _) as [row best] eqn:F. destruct (IH ltac:(lia)) as [Hr Hbest].
    cbn [fst snd] in Hr, Hbest. rewrite Nat.add_succ_r.
    apply inner_loop_ok; auto; [lia | intros j len [] |].
    intros j Hj. apply b2j_spec in Hj as [Hj _]. exact Hj.
Qed.

(** [find_longest_match] returns a matching block inside the range. *)
Lemma find_longest_match_ok (a b : str) (alo ahi blo bhi : nat) :
  alo <= ahi -> blo <= bhi -> block_in a b alo ahi blo bhi (find_longest_match a b alo ahi blo bhi).
Proof.
  intros Ha Hb. unfold find_longest_match.
  destruct (flm_rows a b alo ahi blo bhi Ha Hb (ahi - alo) (le_n _)) as [_ H].
  destruct (fold_left _ (seq alo (ahi - alo)) _) as [row best]. cbn [snd] in H.
  apply extend_right_ok, extend_left_ok, H.
Qed.

(** ** The work queue of [get_matching_blocks] *)

Lemma before_sub_left (x y s : rect) : before x y -> sub_rect s y -> before x s.
Proof. destruct x as [[[? ?] ?] ?], y as [[[? ?] ?] ?], s as [[[? ?] ?] ?]. simpl. lia. Qed.

Lemma before_sub_right (x y s : rect) : before y x -> sub_rect s y -> before s x.
Proof. destruct x as [[[? ?] ?] ?], y as [[[? ?] ?] ?], s as [[[? ?] ?] ?]. simpl. lia. Qed.

Lemma nonempty_not_before_self (s : rect) : nonempty s -> ~ before s s.
Proof. destruct s as [[[? ?] ?] ?]. simpl. lia. Qed.

(** Replacing a range by sub-rectangles that are nonempty and ordered
    keeps the items distinct and pairwise ordered. *)
Lemma replace_ordered (R : rect) (old new : list rect) :
  NoDup (R :: old) -> (forall x y, In x (R :: old) -> In y (R :: old) -> x <> y -> before x y \/ before y x) ->
  (forall s, In s new -> sub_rect s R /\ nonempty s) -> NoDup new ->
  (forall x y, In x new -> In y new -> x <> y -> before x y \/ before y x) ->
  NoDup (new ++ old) /\ (forall x y, In x (new ++ old) -> In y (new ++ old) -> x <> y -> before x y \/ before y x).
Proof.
  intros Hnd Hord Hsub Hndn Hordn.
  assert (Hout : forall s z, In s new -> In z old -> before z s \/ before s z).
  { intros s z Hs Hz. apply NoDup_cons_iff in Hnd as [HR _].
    assert (z <> R) by (intros ->; contradiction).
    destruct (Hsub s Hs) as [Hsr _].
    destruct (Hord z R (or_intror Hz) (or_introl eq_refl) H) as [B|B];
      [left; eapply before_sub_left; eauto | right; eapply before_sub_right; eauto]. }
  split.
  - apply NoDup_app; [exact Hndn | apply NoDup_cons_iff in Hnd; tauto |].
    intros s Hs Hz. destruct (Hsub s Hs) as [_ Hne].
    destruct (Hout s s Hs Hz); eapply nonempty_not_before_self; eauto.
  - intros x y Hx Hy Hxy. apply in_app_iff in Hx, Hy.
    destruct Hx as [Hx|Hx], Hy as [Hy|Hy].
    + apply Hordn; auto.
    + destruct (Hout x y Hx Hy); auto.
    + destruct (Hout y x Hy Hx); auto.
    + apply Hord; auto; right; auto.
Qed.

Lemma block_in_sub (a b : str) (alo ahi blo bhi i j k : nat) :
  block_in a b alo ahi blo bhi (i, j, k) -> sub_rect (block_rect (i, j, k)) (alo, ahi, blo, bhi).
Proof. unfold block_in. simpl. lia. Qed.

Lemma block_in_widen (a b : str) (alo ahi blo bhi la lb i j k : nat) :
  range_ok la lb (alo, ahi, blo, bhi) -> block_in a b alo ahi blo bhi (i, j, k) -> block_in a b 0 la 0 lb (i, j, k).
Proof. unfold range_ok, block_in. intros H [H1 [H2 [H3 [H4 H5]]]]. repeat split; try lia. exact H5. Qed.

Lemma pieces_ordered (alo ahi blo bhi i j k : nat) (l : list rect) :
  alo <= i -> i + k <= ahi -> blo <= j -> j + k <= bhi -> 0 < k ->
  l = (if (i + k <? ahi) && (j + k <? bhi) then [(i + k, ahi, j + k, bhi)] else []) ++
      (if (alo <? i) && (blo <? j) then [(alo, i, blo, j)] else []) ++ [block_rect (i, j, k)] ->
  (forall s, In s l -> sub_rect s (alo, ahi, blo, bhi) /\ nonempty s) /\ NoDup l /\
  (forall x y, In x l -> In y l -> x <> y -> before x y \/ before y x).
Proof.
  intros H1 H2 H3 H4 H5 ->.
  destruct (Nat.ltb_spec (i + k) ahi), (Nat.ltb_spec (j + k) bhi), (Nat.ltb_spec alo i), (Nat.ltb_spec blo j);
    cbn [andb app block_rect];
    (split; [intros s Hs; repeat destruct Hs as [<-|Hs]; try contradiction; simpl; lia|]);
    (split; [repeat constructor; simpl; intros Hin; repeat destruct Hin as [Hin|Hin];
             try injection Hin; try contradiction; lia|]);
    intros x y Hx Hy Hxy; repeat destruct Hx as [<-|Hx]; try contradiction;
    repeat destruct Hy as [<-|Hy]; try contradiction; simpl; try lia; congruence.
Qed.

Lemma mb_step_inv (a b : str) (la lb alo ahi blo bhi i j k : nat) (rest : list rect)
    (blocks : list (nat * nat * nat)) :
  mb_inv a b la lb ((alo, ahi, blo, bhi) :: rest) blocks ->
  find_longest_match a b alo ahi blo bhi = (i, j, k) ->
  mb_inv a b la lb rest blocks /\
  (k <> 0 -> mb_inv a b la lb
               ((if (i + k <? ahi) && (j + k <? bhi) then [(i + k, ahi, j + k, bhi)] else []) ++
                (if (alo <? i) && (blo <? j) then [(alo, i, blo, j)] else []) ++ rest)
               (blocks ++ [(i, j, k)])).
Proof.
  intros [Hq [Hb [Hnd Hord]]] E.
  assert (HR : range_ok la lb (alo, ahi, blo, bhi)) by (apply Hq; left; reflexivity).
  split.
  - split; [intros r Hr; apply Hq; right; exact Hr|]. split; [exact Hb|].
    split; [apply NoDup_cons_iff in Hnd; tauto|].
    intros x y Hx Hy. apply Hord; right; assumption.
  - intros Hk. pose proof (find_longest_match_ok a b alo ahi blo bhi) as Hfl.
    rewrite E in Hfl. assert (Hfl' : block_in a b alo ahi blo bhi (i, j, k)) by (unfold range_ok in HR; apply Hfl; lia).
    clear Hfl. pose proof Hfl' as Hb'. unfold block_in in Hb'. destruct Hb' as [F1 [F2 [F3 [F4 F5]]]].
    set (X := (if (i + k <? ahi) && (j + k <? bhi) then [(i + k, ahi, j + k, bhi)] else []) ++
              (if (alo <? i) && (blo <? j) then [(alo, i, blo, j)] else [])).
    destruct (pieces_ordered alo ahi blo bhi i j k (X ++ [block_rect (i, j, k)]) F1 F2 F3 F4 ltac:(lia))
      as [Hsub [Hndn Hordn]]; [unfold X; rewrite <- app_assoc; reflexivity|].
    cbn [app] in Hnd, Hord.
    destruct (replace_ordered _ (rest ++ map block_rect blocks) _ Hnd Hord Hsub Hndn Hordn) as [Nd Od].
    assert (P : Permutation ((X ++ [block_rect (i, j, k)]) ++ rest ++ map block_rect blocks)
                            ((X ++ rest) ++ map block_rect (blocks ++ [(i, j, k)]))).
    { rewrite map_app, <- !app_assoc. apply Permutation_app_head.
      change (map block_rect [(i, j, k)]) with [block_rect (i, j, k)].
      rewrite (app_assoc rest). apply Permutation_cons_append. }
    rewrite app_assoc. fold X. split; [|split; [|split]].
    + intros r Hr. apply in_app_iff in Hr as [Hr|Hr]; [|apply Hq; right; exact Hr].
      unfold X, range_ok in *. apply in_app_iff in Hr. destruct (Nat.ltb_spec (i + k) ahi), (Nat.ltb_spec (j + k) bhi),
        (Nat.ltb_spec alo i), (Nat.ltb_spec blo j); cbn [andb app In] in Hr;
        repeat destruct Hr as [Hr|Hr]; try contradiction; subst r; lia.
    + intros m Hm. apply in_app_iff in Hm as [Hm|[<-|[]]]; [apply Hb, Hm|].
      split; [eapply block_in_widen; eauto | simpl; lia].
    + exact (Permutation_NoDup P Nd).
    + intros x y Hx Hy.
      apply Od; apply (Permutation_in _ (Permutation_sym P)); assumption.
Qed.

Lemma mb_loop_inv (a b : str) (la lb : nat) : forall fuel queue blocks,
  mb_inv a b la lb queue blocks -> exists queue', mb_inv a b la lb queue' (mb_loop fuel a b queue blocks).
Proof.
  induction fuel as [|f IH]; intros queue blocks H; [exists queue; exact H|].
  destruct queue as [|[[[alo ahi] blo] bhi] rest]; [exists []; exact H|]. cbn [mb_loop].
  destruct (find_longest_match a b alo ahi blo bhi) as [[i j] k] eqn:E.
  destruct (mb_step_inv a b la lb alo ahi blo bhi i j k rest blocks H E) as [H1 H2].
  destruct (Nat.eqb_spec k 0); [apply IH, H1 | apply IH, H2; assumption].
Qed.

Lemma queue_measure_cons (r : rect) (q : list rect) :
  queue_measure (r :: q) = (let '(alo, ahi, _, _) := r in 2 * (ahi - alo) + 1) + queue_measure q.
Proof. reflexivity. Qed.

Lemma queue_measure_app (q1 q2 : list rect) : queue_measure (q1 ++ q2) = queue_measure q1 + queue_measure q2.
Proof. unfold queue_measure. rewrite map_app, list_sum_app. reflexivity. Qed.

(** [2 * len(a) + 1] iterations empty the queue: the measure decreases
    at each iteration. *)
Lemma mb_loop_step_measure (a b : str) (la lb alo ahi blo bhi i j k : nat) (rest : list rect) :
  range_ok la lb (alo, ahi, blo, bhi) -> find_longest_match a b alo ahi blo bhi = (i, j, k) -> k <> 0 ->
  queue_measure ((if (i + k <? ahi) && (j + k <? bhi) then [(i + k, ahi, j + k, bhi)] else []) ++
                 (if (alo <? i) && (blo <? j) then [(alo, i, blo, j)] else []) ++ rest) <
  queue_measure ((alo, ahi, blo, bhi) :: rest).
Proof.
  intros HR E Hk. pose proof (find_longest_match_ok a b alo ahi blo bhi) as Hfl. rewrite E in Hfl.
  unfold range_ok in HR. destruct (Hfl ltac:(lia) ltac:(lia)) as [F1 [F2 [F3 [F4 _]]]].
  rewrite !queue_measure_app, queue_measure_cons.
  destruct (Nat.ltb_spec (i + k) ahi), (Nat.ltb_spec (j + k) bhi), (Nat.ltb_spec alo i),
    (Nat.ltb_spec blo j); cbn [andb]; repeat rewrite queue_measure_cons;
    try change (queue_measure []) with 0; lia.
Qed.

Lemma mb_loop_range (la lb : nat) (queue : list rect) (r : rect) (rest : list rect) :
  (forall r, In r queue -> range_ok la lb r) -> queue = r :: rest -> range_ok la lb r.
Proof. intros H ->. apply H. left. reflexivity. Qed.

Lemma new_ranges_ok (a b : str) (la lb alo ahi blo bhi i j k : nat) (rest : list rect) :
  range_ok la lb (alo, ahi, blo, bhi) -> find_longest_match a b alo ahi blo bhi = (i, j, k) ->
  (forall r, In r rest -> range_ok la lb r) ->
  forall r, In r ((if (i + k <? ahi) && (j + k <? bhi) then [(i + k, ahi, j + k, bhi)] else []) ++
                  (if (alo <? i) && (blo <? j) then [(alo, i, blo, j)] else []) ++ rest) ->
  range_ok la lb r.
Proof.
  intros HR E Hrest r Hr. pose proof (find_longest_match_ok a b alo ahi blo bhi) as Hfl.
  rewrite E in Hfl. unfold range_ok in HR. destruct (Hfl ltac:(lia) ltac:(lia)) as [F1 [F2 [F3 [F4 _]]]].
  rewrite app_assoc in Hr. apply in_app_iff in Hr as [Hr|Hr]; [|apply Hrest, Hr].
  apply in_app_iff in Hr. unfold range_ok.
  destruct (Nat.ltb_spec (i + k) ahi), (Nat.ltb_spec (j + k) bhi), (Nat.ltb_spec alo i),
    (Nat.ltb_spec blo j); cbn [andb In] in Hr; repeat destruct Hr as [Hr|Hr]; try contradiction;
    subst r; lia.
Qed.

Lemma queue_measure_nil (q : list rect) : queue_measure q = 0 -> q = [].
Proof. destruct q as [|[[[? ?] ?] ?] q]; [reflexivity|]. rewrite queue_measure_cons. lia. Qed.

(** Fuel beyond the measure of the queue changes nothing: the loop has
    run to its end. *)
Lemma mb_loop_fuel (a b : str) (la lb : nat) : forall fuel m queue blocks,
  (forall r, In r queue -> range_ok la lb r) -> queue_measure queue <= fuel ->
  mb_loop (fuel + m) a b queue blocks = mb_loop fuel a b queue blocks.
Proof.
  induction fuel as [|f IH]; intros m queue blocks Hq Hm.
  - assert (queue = []) as -> by (apply queue_measure_nil; lia). destruct m; reflexivity.
  - destruct queue as [|[[[alo ahi] blo] bhi] rest]; [reflexivity|].
    rewrite Nat.add_succ_l. cbn [mb_loop].
    assert (HR : range_ok la lb (alo, ahi, blo, bhi)) by (apply Hq; left; reflexivity).
    destruct (find_longest_match a b alo ahi blo bhi) as [[i j] k] eqn:E.
    rewrite queue_measure_cons in Hm. destruct (Nat.eqb_spec k 0).
    + apply IH; [intros r Hr; apply Hq; right; exact Hr | lia].
    + apply IH; [eapply new_ranges_ok; eauto; intros r Hr; apply Hq; right; exact Hr|].
      pose proof (mb_loop_step_measure a b la lb alo ahi blo bhi i j k rest HR E n) as D.
      rewrite queue_measure_cons in D. lia.
Qed.

(** ** The sort of the blocks *)

Lemma triple_ltb_spec (i1 j1 k1 i2 j2 k2 : nat) :
  triple_ltb (i1, j1, k1) (i2, j2, k2) = true <-> i1 < i2 \/ (i1 = i2 /\ (j1 < j2 \/ (j1 = j2 /\ k1 < k2))).
Proof.
  unfold triple_ltb. rewrite orb_true_iff, andb_true_iff, orb_true_iff, andb_true_iff, !Nat.ltb_lt, !Nat.eqb_eq.
  reflexivity.
Qed.

(** Turns the comparisons of triples into arithmetic for [lia]. *)
Ltac triple_lia :=
  repeat match goal with
         | H : triple_ltb (_, _, _) (_, _, _) = true |- _ => apply triple_ltb_spec in H
         | H : triple_ltb (_, _, _) (_, _, _) = false |- _ => apply not_true_iff_false in H; rewrite triple_ltb_spec in H
         | |- triple_ltb (_, _, _) (_, _, _) = false => apply not_true_iff_false; rewrite triple_ltb_spec
         end; lia.

Lemma triple_ltb_asym (x y : nat * nat * nat) : triple_ltb x y = true -> triple_ltb y x = false.
Proof. destruct x as [[i1 j1] k1], y as [[i2 j2] k2]. intros H. triple_lia. Qed.

Lemma triple_leb_trans (x y z : nat * nat * nat) : triple_leb x y -> triple_leb y z -> triple_leb x z.
Proof. destruct x as [[i1 j1] k1], y as [[i2 j2] k2], z as [[i3 j3] k3]. unfold triple_leb. intros H1 H2. triple_lia. Qed.

Lemma insert_triple_hdrel (a x : nat * nat * nat) (l : list (nat * nat * nat)) :
  HdRel triple_leb a l -> triple_leb a x -> HdRel triple_leb a (insert_triple x l).
Proof.
  intros Hl Hx. destruct l as [|y l]; simpl; [constructor; exact Hx|].
  destruct (triple_ltb y x); constructor; [inversion Hl; assumption | exact Hx].
Qed.

Lemma insert_triple_sorted (x : nat * nat * nat) (l : list (nat * nat * nat)) :
  Sorted triple_leb l -> Sorted triple_leb (insert_triple x l).
Proof.
  induction l as [|y l IH]; intros Hs; simpl; [repeat constructor|].
  destruct (triple_ltb y x) eqn:E.
  - inversion Hs; subst. constructor; [apply IH; assumption|].
    apply insert_triple_hdrel; [assumption | apply triple_ltb_asym, E].
  - constructor; [exact Hs | constructor; exact E].
Qed.

Lemma insert_triple_perm (x : nat * nat * nat) (l : list (nat * nat * nat)) :
  Permutation (x :: l) (insert_triple x l).
Proof.
  induction l as [|y l IH]; simpl; [reflexivity|]. destruct (triple_ltb y x); [|reflexivity].
  rewrite perm_swap. constructor. exact IH.
Qed.

Lemma sort_triples_spec (l : list (nat * nat * nat)) :
  Sorted triple_leb (sort_triples l) /\ Permutation l (sort_triples l).
Proof.
  unfold sort_triples. assert (G : forall acc, Sorted triple_leb acc ->
    Sorted triple_leb (fold_left (fun acc x => insert_triple x acc) l acc) /\
    Permutation (acc ++ l) (fold_left (fun acc x => insert_triple x acc) l acc)).
  { induction l as [|x l IH]; intros acc Hs; simpl; [rewrite app_nil_r; split; [exact Hs | reflexivity]|].
    destruct (IH (insert_triple x acc) (insert_triple_sorted x acc Hs)) as [S P].
    split; [exact S|]. rewrite <- P. rewrite <- insert_triple_perm. apply Permutation_sym, Permutation_middle. }
  exact (G [] (Sorted_nil _)).
Qed.

(** ** The blocks form a chain *)

Lemma chain_weaken (a b : str) (la lb : nat) (i j i' j' : nat) (l : list (nat * nat * nat)) :
  chain a b la lb i j l -> i' <= i -> j' <= j -> chain a b la lb i' j' l.
Proof. intros H ? ?. inversion H; subst; constructor; try assumption; lia. Qed.

Lemma chain_snoc (a b : str) (la lb : nat) (i j : nat) (l : list (nat * nat * nat)) :
  chain a b la lb i j l -> chain a b la lb i j (l ++ [(la, lb, 0)]).
Proof.
  induction 1 as [i j Hi Hj|i j ai bj k rest H1 H2 H3 _ IH]; simpl.
  - constructor; try assumption; [intros d Hd; lia | constructor; lia].
  - constructor; assumption.
Qed.

Lemma block_rect_inj (x y : nat * nat * nat) : block_rect x = block_rect y -> x = y.
Proof. destruct x as [[i1 j1] k1], y as [[i2 j2] k2]. simpl. intros E. injection E. intros. f_equal; [f_equal|]; lia. Qed.

(** Blocks in the order of Python tuples that are pairwise [before] one
    another or the other way follow one another. *)
Lemma sorted_ordered_pairs (l : list (nat * nat * nat)) :
  StronglySorted triple_leb l -> NoDup (map block_rect l) -> (forall m, In m l -> 0 < snd m) ->
  (forall x y, In x l -> In y l -> x <> y -> before (block_rect x) (block_rect y) \/ before (block_rect y) (block_rect x)) ->
  ForallOrdPairs (fun x y => before (block_rect x) (block_rect y)) l.
Proof.
  induction 1 as [|x l Hs IH Hf]; intros Hnd Hk Hord; constructor.
  - apply Forall_forall. intros y Hy. rewrite Forall_forall in Hf. specialize (Hf y Hy).
    assert (Hxy : x <> y) by (intros ->; apply NoDup_cons_iff in Hnd as [Hn _]; apply Hn, in_map, Hy).
    destruct (Hord x y (or_introl eq_refl) (or_intror Hy) Hxy) as [B|B]; [exact B|].
    exfalso. specialize (Hk y (or_intror Hy)). revert Hf B Hk. unfold triple_leb.
    destruct x as [[i1 j1] k1], y as [[i2 j2] k2]. cbn [block_rect before snd]. intros. triple_lia.
  - apply IH; [apply NoDup_cons_iff in Hnd; tauto | intros m Hm; apply Hk; right; exact Hm |].
    intros x' y' Hx Hy. apply Hord; right; assumption.
Qed.

Lemma ordered_chain (a b : str) (la lb : nat) : forall (l : list (nat * nat * nat)) i j,
  (forall m, In m l -> block_in a b 0 la 0 lb m) ->
  (forall m, In m l -> i <= fst (fst m) /\ j <= snd (fst m)) ->
  ForallOrdPairs (fun x y => before (block_rect x) (block_rect y)) l -> i <= la -> j <= lb ->
  chain a b la lb i j l.
Proof.
  induction l as [|[[ai bj] k] l IH]; intros i j Hin Hge Hord Hi Hj; [constructor; assumption|].
  inversion Hord as [|x l' Hf Hord']; subst. rewrite Forall_forall in Hf.
  destruct (Hin _ (or_introl eq_refl)) as [_ [B2 [_ [B4 B5]]]]. destruct (Hge _ (or_introl eq_refl)) as [G1 G2].
  constructor; try assumption. apply IH; try lia.
  - intros m Hm. apply Hin. right. exact Hm.
  - intros [[mi mj] mk] Hm. specialize (Hf _ Hm). simpl in Hf |- *. lia.
  - exact Hord'.
Qed.

Lemma mb_inv_init (a b : str) : mb_inv a b (length a) (length b) [(0, length a, 0, length b)] [].
Proof.
  split; [intros r [<-|[]]; simpl; lia|]. split; [intros m []|]. split; [repeat constructor; intros []|].
  intros x y [<-|[]] [<-|[]] H. congruence.
Qed.

(** The blocks [get_matching_blocks] sorts, once sorted, form a chain
    through both texts. *)
Lemma sorted_blocks_chain (a b : str) (fuel : nat) :
  chain a b (length a) (length b) 0 0
        (sort_triples (mb_loop fuel a b [(0, length a, 0, length b)] [])).
Proof.
  destruct (mb_loop_inv a b _ _ fuel _ _ (mb_inv_init a b)) as [q [_ [Hb [Hnd Hord]]]].
  set (bl := mb_loop fuel a b _ _) in *. destruct (sort_triples_spec bl) as [S P].
  assert (Hin : forall m, In m (sort_triples bl) -> In m bl) by (intros m; apply Permutation_in, Permutation_sym, P).
  apply ordered_chain; try lia.
  - intros m Hm. apply Hb, Hin, Hm.
  - apply sorted_ordered_pairs.
    + apply Sorted_StronglySorted; [intros x y z; apply triple_leb_trans | exact S].
    + apply (Permutation_NoDup (Permutation_map block_rect P)). apply NoDup_app_remove_l in Hnd. exact Hnd.
    + intros m Hm. apply Hb, Hin, Hm.
    + intros x y Hx Hy Hxy.
      apply Hord; [apply in_or_app; right; apply in_map, Hin; assumption..|].
      intros E. apply Hxy, block_rect_inj, E.
Qed.

Lemma collapse_fold (l : list (nat * nat * nat)) : forall i1 j1 k1 acc,
  (let '(i1, j1, k1, acc) :=
     fold_left (fun '(i1, j1, k1, acc) '(i2, j2, k2) =>
                  if (i1 + k1 =? i2) && (j1 + k1 =? j2) then (i1, j1, k1 + k2, acc)
                  else (i2, j2, k2, if k1 =? 0 then acc else acc ++ [(i1, j1, k1)]))
               l (i1, j1, k1, acc) in
   if k1 =? 0 then acc else acc ++ [(i1, j1, k1)]) = acc ++ collapse_from i1 j1 k1 l.
Proof.
  induction l as [|[[i2 j2] k2] l IH]; intros i1 j1 k1 acc; simpl.
  - destruct (k1 =? 0); [rewrite app_nil_r|]; reflexivity.
  - destruct ((i1 + k1 =? i2) && (j1 + k1 =? j2)); rewrite IH; [reflexivity|].
    destruct (k1 =? 0); [reflexivity | rewrite <- app_assoc; reflexivity].
Qed.

Lemma collapse_chain (a b : str) (la lb : nat) : forall l i j i1 j1 k1,
  chain a b la lb i j ((i1, j1, k1) :: l) -> chain a b la lb i j (collapse_from i1 j1 k1 l).
Proof.
  induction l as [|[[i2 j2] k2] l IH]; intros i j i1 j1 k1 H; inversion H as [|? ? ? ? ? ? H1 H2 H3 H4]; subst; simpl.
  - inversion H4; subst. destruct (k1 =? 0); [constructor; lia | exact H].
  - inversion H4 as [|? ? ? ? ? ? G1 G2 G3 G4]; subst.
    destruct (Nat.eqb_spec (i1 + k1) i2), (Nat.eqb_spec (j1 + k1) j2); cbn [andb].
    2-4: destruct (Nat.eqb_spec k1 0); cbn [app];
         [apply IH; apply (chain_weaken _ _ _ _ (i1 + k1) (j1 + k1)); [exact H4 | lia | lia]
         | constructor; try assumption; apply IH, H4].
    apply IH. constructor; try assumption.
    + intros d Hd. destruct (Nat.ltb_spec d k1); [apply H3; lia|].
      replace (i1 + d) with (i2 + (d - k1)) by lia. replace (j1 + d) with (j2 + (d - k1)) by lia. apply G3. lia.
    + replace (i1 + (k1 + k2)) with (i2 + k2) by lia. replace (j1 + (k1 + k2)) with (j2 + k2) by lia. exact G4.
Qed.

Lemma matching_blocks_chain (a b : str) :
  chain a b (length a) (length b) 0 0 (get_matching_blocks a b).
Proof.
  unfold get_matching_blocks, collapse. rewrite collapse_fold. apply chain_snoc. cbn [app].
  apply collapse_chain. constructor; try lia; [intros d Hd; lia|]. apply sorted_blocks_chain.
Qed.

(** ** The opcodes tile both texts *)

Lemma opcodes_fold (bl : list (nat * nat * nat)) : forall i j answer,
  (let '(_, _, answer) :=
     fold_left (fun '(i, j, answer) '(ai, bj, size) =>
                  let tagged :=
                    if (i <? ai) && (j <? bj) then [(Replace, i, ai, j, bj)]
                    else if i <? ai then [(Delete, i, ai, j, bj)]
                    else if j <? bj then [(Insert, i, ai, j, bj)]
                    else [] in
                  let i' := ai + size in
                  let j' := bj + size in
                  (i', j', answer ++ tagged ++ (if size =? 0 then [] else [(Equal, ai, i', bj, j')])))
               bl (i, j, answer) in answer) = answer ++ ops_from i j bl.
Proof.
  induction bl as [|[[ai bj] size] bl IH]; intros i j answer; simpl; [rewrite app_nil_r; reflexivity|].
  rewrite IH, <- !app_assoc. reflexivity.
Qed.

Lemma slice_app (x : str) (lo mid hi : nat) : lo <= mid <= hi -> slice x lo mid ++ slice x mid hi = slice x lo hi.
Proof.
  intros H. unfold slice. rewrite <- map_app. f_equal.
  replace (hi - lo) with ((mid - lo) + (hi - mid)) by lia. rewrite seq_app. f_equal. f_equal. lia.
Qed.

Lemma slice_empty (x : str) (lo : nat) : slice x lo lo = [].
Proof. unfold slice. rewrite Nat.sub_diag. reflexivity. Qed.

Lemma slice_one (x : str) (lo : nat) : slice x lo (S lo) = [at_ x lo].
Proof. unfold slice. replace (S lo - lo) with 1 by lia. reflexivity. Qed.

Lemma slice_all (x : str) : slice x 0 (length x) = x.
Proof.
  unfold slice, at_. rewrite Nat.sub_0_r. induction x as [|c x IH]; [reflexivity|].
  cbn [length seq map nth]. f_equal. rewrite <- seq_shift, map_map. exact IH.
Qed.

Lemma map_seq_offset (f : nat -> char) (lo : nat) : forall k m,
  map f (seq (lo + m) k) = map (fun d => f (lo + d)) (seq m k).
Proof. induction k as [|k IH]; intros m; [reflexivity|]. cbn [seq map]. rewrite <- IH. do 3 f_equal. lia. Qed.

Lemma slice_match (a b : str) (i j k : nat) : match_at a b i j k -> slice a i (i + k) = slice b j (j + k).
Proof.
  intros H. unfold slice. replace (i + k - i) with k by lia. replace (j + k - j) with k by lia.
  rewrite <- (Nat.add_0_r i), <- (Nat.add_0_r j), !map_seq_offset.
  apply map_ext_in. intros d Hd. apply in_seq in Hd. apply H. lia.
Qed.

(** ** Each opcode's lines stand for its two ranges *)

Lemma dump_sides (t : char) (x : str) (lo hi : nat) :
  flat_map a_side (dump t x lo hi) = (if (t =? tag_eq)%Z || (t =? tag_del)%Z then slice x lo hi else []) /\
  flat_map b_side (dump t x lo hi) = (if (t =? tag_eq)%Z || (t =? tag_ins)%Z then slice x lo hi else []).
Proof.
  unfold dump, slice. induction (seq lo (hi - lo)) as [|i l [IH1 IH2]]; cbn [map flat_map].
  - destruct ((t =? tag_eq)%Z || (t =? tag_del)%Z), ((t =? tag_eq)%Z || (t =? tag_ins)%Z); split; reflexivity.
  - rewrite IH1, IH2. unfold a_side, b_side.
    destruct ((t =? tag_eq)%Z || (t =? tag_del)%Z), ((t =? tag_eq)%Z || (t =? tag_ins)%Z); split; reflexivity.
Qed.

Lemma dump_del_ok (a b : str) (alo ahi blo : nat) : sides_ok a b alo ahi blo blo (dump tag_del a alo ahi).
Proof. destruct (dump_sides tag_del a alo ahi) as [H1 H2]. split; [exact H1 | rewrite H2, slice_empty; reflexivity]. Qed.

Lemma dump_ins_ok (a b : str) (alo blo bhi : nat) : sides_ok a b alo alo blo bhi (dump tag_ins b blo bhi).
Proof. destruct (dump_sides tag_ins b blo bhi) as [H1 H2]. split; [rewrite H1, slice_empty; reflexivity | exact H2]. Qed.

Lemma dump_eq_ok (a b : str) (alo blo k : nat) :
  match_at a b alo blo k -> sides_ok a b alo (alo + k) blo (blo + k) (dump tag_eq a alo (alo + k)).
Proof.
  intros H. destruct (dump_sides tag_eq a alo (alo + k)) as [H1 H2].
  split; [exact H1 | rewrite H2; apply slice_match, H].
Qed.

Lemma sides_ok_nil (a b : str) (i j : nat) : sides_ok a b i i j j [].
Proof. split; symmetry; apply slice_empty. Qed.

Lemma sides_ok_app (a b : str) (alo mid ahi blo mid' bhi : nat) (l1 l2 : list str) :
  alo <= mid <= ahi -> blo <= mid' <= bhi ->
  sides_ok a b alo mid blo mid' l1 -> sides_ok a b mid ahi mid' bhi l2 -> sides_ok a b alo ahi blo bhi (l1 ++ l2).
Proof.
  intros Ha Hb [A1 B1] [A2 B2]. unfold sides_ok. rewrite !flat_map_app, A1, B1, A2, B2.
  split; apply slice_app; assumption.
Qed.

Lemma plain_replace_ok (a b : str) (alo ahi blo bhi : nat) :
  alo <= ahi -> blo <= bhi -> sides_ok a b alo ahi blo bhi (plain_replace a b alo ahi blo bhi).
Proof.
  intros Ha Hb. unfold plain_replace. destruct (bhi - blo <? ahi - alo).
  - apply (sides_ok_app _ _ _ alo _ _ bhi); try lia; [apply dump_ins_ok | apply dump_del_ok].
  - apply (sides_ok_app _ _ _ ahi _ _ blo); try lia; [apply dump_del_ok | apply dump_ins_ok].
Qed.

Lemma first_equal_pair_spec (a b : str) (alo ahi blo bhi ei ej : nat) :
  first_equal_pair a b alo ahi blo bhi = Some (ei, ej) ->
  alo <= ei < ahi /\ blo <= ej < bhi /\ at_ a ei = at_ b ej.
Proof.
  unfold first_equal_pair. intros E. apply List.find_some in E as [Hin Heq].
  apply in_flat_map in Hin as [j [Hj Hin]]. apply in_map_iff in Hin as [i [Ei Hi]].
  injection Ei as -> ->. apply in_seq in Hi, Hj. apply Z.eqb_eq in Heq. repeat split; try lia; exact Heq.
Qed.

Lemma fancy_helper_ok (rep : nat -> nat -> nat -> nat -> list str) (a b : str) (alo ahi blo bhi : nat) :
  (alo < ahi -> blo < bhi -> sides_ok a b alo ahi blo bhi (rep alo ahi blo bhi)) ->
  alo <= ahi -> blo <= bhi -> sides_ok a b alo ahi blo bhi (fancy_helper rep a b alo ahi blo bhi).
Proof.
  intros Hrep Ha Hb. unfold fancy_helper.
  destruct (Nat.ltb_spec alo ahi), (Nat.ltb_spec blo bhi); auto.
  - replace bhi with blo by lia. apply dump_del_ok.
  - replace ahi with alo by lia. apply dump_ins_ok.
  - replace ahi with alo by lia. replace bhi with blo by lia. apply sides_ok_nil.
Qed.

Lemma fancy_replace_ok (a b : str) : forall n alo ahi blo bhi,
  alo < ahi -> ahi - alo <= n -> blo <= bhi -> sides_ok a b alo ahi blo bhi (fancy_replace n a b alo ahi blo bhi).
Proof.
  induction n as [|n IH]; intros alo ahi blo bhi Ha Hn Hb; [lia|]. cbn [fancy_replace].
  destruct (first_equal_pair a b alo ahi blo bhi) as [[ei ej]|] eqn:E; [|apply plain_replace_ok; lia].
  destruct (first_equal_pair_spec _ _ _ _ _ _ _ _ E) as [Hi [Hj Heq]].
  apply (sides_ok_app _ _ _ ei _ _ ej); try lia.
  { apply fancy_helper_ok; try lia. intros. apply IH; lia. }
  apply (sides_ok_app _ _ _ (S ei) _ _ (S ej)); try lia.
  - unfold sides_ok. rewrite !slice_one, <- Heq. split; reflexivity.
  - apply fancy_helper_ok; try lia. intros. apply IH; lia.
Qed.

Lemma chain_end_ge (a b : str) (la lb : nat) (i j : nat) (bl : list (nat * nat * nat)) :
  chain a b la lb i j bl -> i <= fst (chain_end i j bl) /\ j <= snd (chain_end i j bl).
Proof. induction 1; simpl; lia. Qed.

Lemma chain_end_snoc (x y : nat) (bl : list (nat * nat * nat)) : forall i j,
  chain_end i j (bl ++ [(x, y, 0)]) = (x, y).
Proof. induction bl as [|[[ai bj] k] bl IH]; intros i j; simpl; [f_equal; lia | apply IH]. Qed.

Lemma tagged_ok (a b : str) (i j ai bj : nat) : i <= ai -> j <= bj ->
  sides_ok a b i ai j bj
    (flat_map (render_op a b)
       (if (i <? ai) && (j <? bj) then [(Replace, i, ai, j, bj)]
        else if i <? ai then [(Delete, i, ai, j, bj)]
        else if j <? bj then [(Insert, i, ai, j, bj)]
        else [])).
Proof.
  intros Hi Hj. destruct (Nat.ltb_spec i ai), (Nat.ltb_spec j bj); cbn [andb flat_map render_op]; rewrite ?app_nil_r.
  - apply fancy_replace_ok; lia.
  - replace bj with j by lia. apply dump_del_ok.
  - replace ai with i by lia. apply dump_ins_ok.
  - replace ai with i by lia. replace bj with j by lia. apply sides_ok_nil.
Qed.

Lemma ops_from_ok (a b : str) (la lb : nat) (i j : nat) (bl : list (nat * nat * nat)) :
  chain a b la lb i j bl ->
  sides_ok a b i (fst (chain_end i j bl)) j (snd (chain_end i j bl)) (flat_map (render_op a b) (ops_from i j bl)).
Proof.
  induction 1 as [i j|i j ai bj k rest H1 H2 H3 H4 IH]; [apply sides_ok_nil|].
  destruct (chain_end_ge _ _ _ _ _ _ _ H4) as [E1 E2]. cbn [ops_from chain_end]. rewrite !flat_map_app.
  apply (sides_ok_app _ _ _ ai _ _ bj); try lia; [apply tagged_ok; assumption|].
  apply (sides_ok_app _ _ _ (ai + k) _ _ (bj + k)); try lia; [|exact IH].
  destruct (Nat.eqb_spec k 0) as [->|_]; cbn [flat_map render_op].
  - rewrite !Nat.add_0_r. apply sides_ok_nil.
  - rewrite app_nil_r. apply dump_eq_ok, H3.
Qed.

Lemma dump_shape (t : char) (x : str) (lo hi : nat) :
  In t [tag_eq; tag_del; tag_ins] -> Forall line_shape (dump t x lo hi).
Proof.
  intros Ht. apply Forall_forall. intros l Hl. apply in_map_iff in Hl as [i [<- _]].
  eexists _, _. split; [exact Ht | reflexivity].
Qed.

Lemma tag_eq_in : In tag_eq [tag_eq; tag_del; tag_ins].
Proof. left. reflexivity. Qed.
Lemma tag_del_in : In tag_del [tag_eq; tag_del; tag_ins].
Proof. right. left. reflexivity. Qed.
Lemma tag_ins_in : In tag_ins [tag_eq; tag_del; tag_ins].
Proof. right. right. left. reflexivity. Qed.

Lemma fancy_replace_shape (a b : str) : forall n alo ahi blo bhi,
  Forall line_shape (fancy_replace n a b alo ahi blo bhi).
Proof.
  assert (Hh : forall rep alo ahi blo bhi, (forall alo ahi blo bhi, Forall line_shape (rep alo ahi blo bhi)) ->
            Forall line_shape (fancy_helper rep a b alo ahi blo bhi)).
  { intros rep alo ahi blo bhi Hr. unfold fancy_helper.
    destruct (alo <? ahi), (blo <? bhi); auto using dump_shape, tag_del_in, tag_ins_in. }
  induction n as [|n IH]; intros alo ahi blo bhi; [constructor|]. cbn [fancy_replace].
  destruct (first_equal_pair a b alo ahi blo bhi) as [[ei ej]|].
  - apply Forall_app; split; [auto|]. apply Forall_app; split; [|auto].
    apply Forall_cons; [eexists _, _; split; [apply tag_eq_in | reflexivity] | apply Forall_nil].
  - unfold plain_replace. destruct (_ <? _); apply Forall_app; split; apply dump_shape; auto using tag_del_in, tag_ins_in.
Qed.

Lemma ndiff_shape (a b : str) : Forall line_shape (ndiff a b).
Proof.
  unfold ndiff. apply Forall_forall. intros l Hl. apply in_flat_map in Hl as [[[[[tag alo] ahi] blo] bhi] [_ Hl]].
  revert l Hl. apply Forall_forall. destruct tag; cbn [render_op]; auto using dump_shape, fancy_replace_shape, tag_eq_in, tag_del_in, tag_ins_in.
Qed.

Lemma matching_blocks_end (a b : str) : chain_end 0 0 (get_matching_blocks a b) = (length a, length b).
Proof. apply chain_end_snoc. Qed.

(** ** What [ndiff] promises *)

Lemma ndiff_sides (a b : str) : flat_map a_side (ndiff a b) = a /\ flat_map b_side (ndiff a b) = b.
Proof.
  unfold ndiff, get_opcodes. rewrite opcodes_fold. cbn [app].
  destruct (ops_from_ok _ _ _ _ 0 0 _ (matching_blocks_chain a b)) as [A B].
  rewrite matching_blocks_end in A, B. cbn [fst snd] in A, B. rewrite A, B, !slice_all. split; reflexivity.
Qed.

(** The work queue of [get_matching_blocks] is emptied within the
    [2 * len(a) + 1] iterations the model allows: more iterations give
    the same blocks, so the bounded loop is Python's [while queue]. *)
Theorem matching_blocks_fuel (a b : str) (m : nat) :
  mb_loop (2 * length a + 1 + m) a b [(0, length a, 0, length b)] [] =
  mb_loop (2 * length a + 1) a b [(0, length a, 0, length b)] [].
Proof.
  apply (mb_loop_fuel a b (length a) (length b)); [intros r [<-|[]]; simpl; lia|].
  rewrite queue_measure_cons. change (queue_measure []) with 0. lia.
Qed.
