(* ===== verification/Report.v ===== *)
(** * The diff reporter: [print_typo_compare] (lines 525-569)

    For each typo record the reporter writes the index, the time range,
    and the two texts aligned by [difflib.ndiff] ([Diff.v]): the original
    with its deleted characters marked 【c】, the correction with its
    inserted characters marked 【c】, split at the line feeds and paired by
    [zip], the original padded by [f'{a:{offset}}'] with
    [offset = 40 - get_line_width(a)] (10 when that is not positive).
    An empty list ends the program by [sys.exit()].

    The file the reporter writes is modelled as the text it holds when the
    function ends: the blocks written so far and the exception that ended
    the loop, if any.  pysubs2's [ms_to_timestamp] is a library function
    the script only calls; it is a variable of the section. *)

From Stdlib Require Import String.
From Stdlib Require Import List ZArith Lia Bool.
Import ListNotations.
From S2P Require Import Prelude PyStr Width Cue Normalizer Overlap PostSort Pipeline Diff.
Open Scope sub_scope.

Definition lbr : char := 12304%Z.   (** 【 *)
Definition rbr : char := 12305%Z.   (** 】 *)

(** ['\\N'], the break marker of the cue texts. *)
Definition esc_N : str := u "\N".

(** The edit script of line 540: [difflib.ndiff] on the two texts with
    their ['\\N'] markers turned into line feeds. *)
Definition ndiff_texts (original new : str) : list str :=
  ndiff (replace esc_N newline original) (replace esc_N newline new).

(** The body of the loop of lines 540-548: [s[0]] and [s[-1]] raise
    IndexError on an empty line. *)
Definition mark_line (acc : str * str) (s : str) : result (str * str) :=
  let '(original_text, new_text) := acc in
  c0 <- of_option (nth_error s 0) IndexError ;;
  if (c0 =? 32)%Z then Ok (original_text ++ skipn 2 s, new_text ++ skipn 2 s)
  else if (c0 =? 45)%Z then
    (c <- of_option (last_error s) IndexError ;; Ok (original_text ++ [lbr; c; rbr], new_text))
  else if (c0 =? 43)%Z then
    (c <- of_option (last_error s) IndexError ;; Ok (original_text, new_text ++ [lbr; c; rbr]))
  else Ok (original_text, new_text).

Fixpoint mark_lines (acc : str * str) (lines : list str) : result (str * str) :=
  match lines with
  | [] => Ok acc
  | s :: rest => acc' <- mark_line acc s ;; mark_lines acc' rest
  end.

Section Layout.
Context `{UnicodeDB}.

(** Lines 554-556. *)
Definition offset_of (a : str) : nat :=
  let o := (40 - Z.of_nat (get_line_width a))%Z in
  if (o <=? 0)%Z then 10 else Z.to_nat o.

(** [f'{a:{n}}'] for a string: left-aligned in a field of [n] code points. *)
Definition pad (n : nat) (a : str) : str := a ++ repeat 32%Z (n - length a).

Definition arrow : str := [9%Z] ++ u "---->" ++ [9%Z].       (** ['\t---->\t'] *)
Definition continued : str := [9%Z] ++ u "     " ++ [9%Z].   (** ['\t     \t'] *)

(** Lines 558-567: the arrow on the first line, the blank marker on the
    next ones when the original has more than one line. *)
Definition format_pair (multi : bool) (i : nat) (a b : str) : str :=
  pad (offset_of a) a ++ [32%Z] ++ (if multi && negb (i =? 0) then continued else arrow) ++ b ++ newline.

(** [for i, (a, b) in enumerate(zip(original, new))]. *)
Fixpoint format_pairs (multi : bool) (i : nat) (pairs : list (str * str)) : str :=
  match pairs with
  | [] => []
  | (a, b) :: rest => format_pair multi i a b ++ format_pairs multi (S i) rest
  end.

Variable ms_to_timestamp : Z -> str.

(** One record, lines 532-569: what it writes, and the exception that
    stops it. *)
Definition compare_block (t : typo) : str * option py_error :=
  match t_index t with
  | None => ([], Some KeyError)
  | Some index =>
      let header := py_str_nat index ++ newline ++ ms_to_timestamp (t_start t) ++ u " --> " ++
                    ms_to_timestamp (t_end t) ++ newline in
      match mark_lines ([], []) (ndiff_texts (original_text t) (new_text t)) with
      | Err e => (header, Some e)
      | Ok (o, n) =>
          let original := split newline o in
          let new := split newline n in
          (header ++ format_pairs (1 <? length original) 0 (combine original new) ++ newline, None)
      end
  end.

Fixpoint write_blocks (typos : list typo) : str * option py_error :=
  match typos with
  | [] => ([], None)
  | t :: rest =>
      let '(w, e) := compare_block t in
      match e with
      | Some _ => (w, e)
      | None => let '(w', e') := write_blocks rest in (w ++ w', e')
      end
  end.

Inductive report_outcome : Type :=
| SysExit                                           (** [sys.exit()] on an empty list *)
| Report (contents : str) (raised : option py_error).

Definition print_typo_compare (typos : list typo) : report_outcome :=
  match typos with
  | [] => SysExit
  | _ => let '(w, e) := write_blocks typos in Report w e
  end.

(** [print_overlap] (lines 508-518) and [print_overlength] (520-523):
    [sys.exit()] on an empty list; otherwise nothing, since their
    writing code is commented out.  No code calls them. *)
Definition print_overlap (overlap_list : list nat) : report_outcome :=
  match overlap_list with [] => SysExit | _ => Report [] None end.

Definition print_overlength (overlength_list : list nat) : report_outcome :=
  match overlength_list with [] => SysExit | _ => Report [] None end.

(** One entry of the overlap report (lines 452-457): the index as the
    loop counted it, from 0. *)
Definition overlap_entry (subs : list cue) (index : nat) : result str :=
  c <- of_option (nth_error subs index) IndexError ;;
  Ok (py_str_nat index ++ newline ++ ms_to_timestamp (start c) ++ u " --> " ++ ms_to_timestamp (end_ c) ++
      newline ++ replace esc_N newline (text c) ++ newline ++ newline).

Fixpoint overlap_entries (subs : list cue) (indices : list nat) : result str :=
  match indices with
  | [] => Ok []
  | i :: rest => e <- overlap_entry subs i ;; w <- overlap_entries subs rest ;; Ok (e ++ w)
  end.

(** Lines 449-457: the overlap report, written when [overlap_num > 0]. *)
Definition overlap_report (subs : list cue) (overlap_num : nat) (overlap_list : list nat) : result (option str) :=
  if 0 <? overlap_num then (w <- overlap_entries subs overlap_list ;; Ok (Some w)) else Ok None.

End Layout.

(** ** What the theorems are stated with *)

(** What one [ndiff] line adds to the original ([del] = ['-']) or to the
    correction ([del] = ['+']). *)
Definition piece (del : char) (l : str) : str :=
  match l with
  | [t; _; c] => if (t =? 32)%Z then [c] else if (t =? del)%Z then [lbr; c; rbr] else []
  | _ => []
  end.

(** Removing the marks 【c】. *)
Fixpoint unmark (s : str) : str :=
  match s with
  | [] => []
  | x :: t =>
      match t with
      | c :: y :: rest => if (x =? lbr)%Z && (y =? rbr)%Z then c :: unmark rest else x :: unmark t
      | _ => x :: unmark t
      end
  end.

(** ** The marked texts *)

Lemma mark_lines_pieces (lines : list str) : Forall line_shape lines -> forall o n,
  mark_lines (o, n) lines = Ok (o ++ flat_map (piece 45%Z) lines, n ++ flat_map (piece 43%Z) lines).
Proof.
  induction 1 as [|l lines [t [c [_ ->]]] _ IH]; intros o n; [rewrite !app_nil_r; reflexivity|].
  cbn [mark_lines mark_line nth_error of_option bind last_error flat_map piece skipn].
  destruct (Z.eqb_spec t 32) as [->|]; [|destruct (Z.eqb_spec t 45) as [->|]; [|destruct (Z.eqb_spec t 43) as [->|]]];
    cbn [last_error last rev app bind of_option Z.eqb Pos.eqb]; rewrite IH, <- ?app_assoc; reflexivity.
Qed.

Lemma unmark_cons (c : char) (s : str) : c <> lbr -> unmark (c :: s) = c :: unmark s.
Proof.
  intros Hc. destruct s as [|c' [|y rest]]; [reflexivity..|]. cbn [unmark].
  destruct (Z.eqb_spec c lbr); [contradiction | reflexivity].
Qed.

Lemma unmark_pieces (del : char) (sd : str -> str) (lines : list str) :
  (forall t c, sd [t; 32%Z; c] = if (t =? 32)%Z || (t =? del)%Z then [c] else []) ->
  Forall line_shape lines -> (forall c, In c (flat_map sd lines) -> c <> lbr) ->
  unmark (flat_map (piece del) lines) = flat_map sd lines.
Proof.
  intros Hsd. induction 1 as [|l lines [t [c [_ ->]]] _ IH]; intros Hc; [reflexivity|].
  cbn [flat_map piece] in Hc |- *. rewrite Hsd in Hc |- *.
  assert (IH' : unmark (flat_map (piece del) lines) = flat_map sd lines)
    by (apply IH; intros c' Hc'; apply Hc, in_or_app; right; exact Hc').
  destruct (Z.eqb_spec t 32); [|destruct (Z.eqb_spec t del)]; cbn [orb app] in Hc |- *.
  - rewrite unmark_cons, IH'; [reflexivity|]. apply Hc. left. reflexivity.
  - cbn [unmark]. rewrite !Z.eqb_refl. cbn [andb]. rewrite IH'. reflexivity.
  - exact IH'.
Qed.

(** A mark 【c】 holds a line feed exactly when [c] is one. *)
Lemma count_pieces (del : char) (sd : str -> str) (lines : list str) :
  (forall t c, sd [t; 32%Z; c] = if (t =? 32)%Z || (t =? del)%Z then [c] else []) ->
  Forall line_shape lines ->
  count_occ Z.eq_dec (flat_map (piece del) lines) 10%Z = count_occ Z.eq_dec (flat_map sd lines) 10%Z.
Proof.
  intros Hsd. induction 1 as [|l lines [t [c [_ ->]]] _ IH]; [reflexivity|].
  change (flat_map (piece del) ([t; 32%Z; c] :: lines)) with (piece del [t; 32%Z; c] ++ flat_map (piece del) lines).
  change (flat_map sd ([t; 32%Z; c] :: lines)) with (sd [t; 32%Z; c] ++ flat_map sd lines).
  rewrite Hsd, !count_occ_app. change (@count_occ char) with (@count_occ Z). rewrite IH. cbn [piece].
  destruct (Z.eqb_spec t 32); [|destruct (Z.eqb_spec t del)]; cbn [orb]; [reflexivity| |reflexivity].
  change [lbr; c; rbr] with ([lbr] ++ [c] ++ [rbr]). rewrite !count_occ_app. change (@count_occ char) with (@count_occ Z).
  replace (count_occ Z.eq_dec [lbr] 10%Z) with 0 by reflexivity.
  replace (count_occ Z.eq_dec [rbr] 10%Z) with 0 by reflexivity. lia.
Qed.

Lemma no_mark_replace (s : str) : ~ In lbr s -> In lbr (replace esc_N newline s) -> False.
Proof.
  intros Hs H. apply replace_chars in H as [H|H]; [exact (Hs H) | | discriminate].
  destruct H as [H|[]]. discriminate.
Qed.

(** ** The layout of a line *)

(** ** A record's block is written whole *)

Lemma compare_block_ok `{UnicodeDB} (ts : Z -> str) (t : typo) (n : nat) :
  t_index t = Some n -> exists w, compare_block ts t = (w, None).
Proof.
  intros E. unfold compare_block. rewrite E, mark_lines_pieces by apply ndiff_shape.
  eexists. reflexivity.
Qed.

Lemma write_blocks_ok `{UnicodeDB} (ts : Z -> str) (typos : list typo) :
  (forall t, In t typos -> exists n, t_index t = Some n) -> exists w, write_blocks ts typos = (w, None).
Proof.
  induction typos as [|t rest IH]; intros Hi; [eexists; reflexivity|]. cbn [write_blocks].
  destruct (Hi t (or_introl eq_refl)) as [n En]. destruct (compare_block_ok ts t n En) as [w ->].
  destruct IH as [w' ->]; [intros t' Ht'; apply Hi; right; exact Ht'|]. eexists. reflexivity.
Qed.

Lemma overlap_entries_ok `{UnicodeDB} (ts : Z -> str) (subs : list cue) (l : list nat) :
  (forall i, In i l -> i < length subs) -> exists w, overlap_entries ts subs l = Ok w.
Proof.
  induction l as [|i l IH]; intros Hl; [eexists; reflexivity|]. cbn [overlap_entries].
  destruct (nth_error subs i) as [c|] eqn:Ec; [|apply nth_error_None in Ec; specialize (Hl i (or_introl eq_refl)); lia].
  unfold overlap_entry. rewrite Ec. cbn [of_option bind].
  destruct IH as [w ->]; [intros j Hj; apply Hl; right; exact Hj|]. eexists. reflexivity.
Qed.

Section ReportProps.
Context `{Dictionary} `{UnicodeDB}.

(** The overlap report of a pipeline run never raises: the flagged
    indices are positions of the returned track. *)
Lemma overlap_report_ok (ts : Z -> str) (subs : list cue) (st : post_state) :
  translate_core subs = Ok st ->
  exists r, overlap_report ts (ps_subs st) (ps_overlap_num st) (ps_overlap_list st) = Ok r.
Proof.
  intros E. destruct (translate_core_steps _ _ E) as [l1 [typos [l2 [_ [_ E3]]]]].
  rewrite post_sort_result in E3. injection E3 as <-. cbn [ps_subs ps_overlap_num ps_overlap_list].
  unfold overlap_report. destruct (0 <? _); [|eexists; reflexivity].
  destruct (overlap_entries_ok ts (map (fun c => with_text c (post_text c)) (sort_cues l2))
                               (overlap_list (sort_cues l2))) as [w ->]; [|eexists; reflexivity].
  intros i Hi. apply overlap_list_in in Hi as [j [prev [c [_ [_ [Ec _]]]]]].
  rewrite length_map. apply nth_error_Some. congruence.
Qed.

(** C21. Whatever the track, when the pipeline runs through and has
    typo records, [print_typo_compare] writes its report to the end
    without raising: every record has its [index] (line 532 raises no
    [KeyError]) and every [ndiff] line has a first and a last character
    (lines 542-548 raise no [IndexError]). *)
Theorem report_written (ts : Z -> str) (subs : list cue) (st : post_state) :
  translate_core subs = Ok st -> ps_typos st <> [] ->
  exists w, print_typo_compare ts (ps_typos st) = Report w None.
Proof.
  intros E Hne. unfold print_typo_compare. destruct (ps_typos st) as [|t rest] eqn:Et; [congruence|].
  rewrite <- Et. destruct (write_blocks_ok ts (ps_typos st)) as [w ->].
  - apply (translate_typos_indexed subs st E).
  - eexists. reflexivity.
Qed.

End ReportProps.

(** C23. The two texts of a report block, with the marks 【c】 removed,
    are the original and the corrected text, when neither holds a 【:
    the lines of [ndiff] are turned into marks without loss. *)
Theorem report_marks_roundtrip (original new : str) :
  ~ In lbr original -> ~ In lbr new ->
  exists o n, mark_lines ([], []) (ndiff_texts original new) = Ok (o, n) /\
              unmark o = replace esc_N newline original /\ unmark n = replace esc_N newline new.
Proof.
  intros Ha Hb. unfold ndiff_texts. rewrite mark_lines_pieces by apply ndiff_shape. cbn [app].
  destruct (ndiff_sides (replace esc_N newline original) (replace esc_N newline new)) as [A B].
  eexists _, _. split; [reflexivity|]. split.
  - rewrite (unmark_pieces 45%Z a_side); [exact A | reflexivity | apply ndiff_shape |].
    rewrite A. intros c Hc ->. apply no_mark_replace in Hc; assumption.
  - rewrite (unmark_pieces 43%Z b_side); [exact B | reflexivity | apply ndiff_shape |].
    rewrite B. intros c Hc ->. apply no_mark_replace in Hc; assumption.
Qed.

(** C24. The padding [f'{a:{offset}}'] counts code points while
    [offset] is computed from the display width: a line [a] narrower
    than 40 columns is padded to display width [40 - len(a)], not to
    the fixed column 40 the spec asks for, so lines of the same width
    but different lengths (你好 and abcd) end at different columns. *)
Theorem report_column (a : str) :
  get_line_width a < 40 -> length a <= 40 - get_line_width a ->
  @get_line_width ucd_sample (pad (offset_of a) a) = 40 - length a.
Proof.
  intros Hw Hl. unfold pad. rewrite width_app, width_spaces. unfold offset_of.
  destruct (Z.leb_spec (40 - Z.of_nat (get_line_width a)) 0); [lia|]. lia.
Qed.

(** C25. [zip] stops at the shorter list: a report block writes one row
    per line of the shorter of the two marked texts, one more than the
    fewer line feeds of the original and the correction (['\N'] read as
    a line feed).  When a correction deletes a line break, the last line
    of the original, with the marks of what was deleted, is never
    written. *)
Theorem report_zip_drops_line `{UnicodeDB} (ts : Z -> str) (t : typo) (index : nat) :
  t_index t = Some index ->
  exists o n,
    compare_block ts t =
      ((py_str_nat index ++ newline ++ ts (t_start t) ++ u " --> " ++ ts (t_end t) ++ newline) ++
       format_pairs (1 <? length (split newline o)) 0 (combine (split newline o) (split newline n)) ++ newline,
       None) /\
    length (combine (split newline o) (split newline n)) =
      S (Nat.min (count_occ Z.eq_dec (replace esc_N newline (original_text t)) 10%Z)
                 (count_occ Z.eq_dec (replace esc_N newline (new_text t)) 10%Z)).
Proof.
  intros Hi. unfold compare_block. rewrite Hi. unfold ndiff_texts.
  rewrite mark_lines_pieces by apply ndiff_shape. cbn [app].
  eexists _, _. split; [reflexivity|].
  rewrite length_combine. unfold newline. rewrite !split_single_count.
  rewrite (count_pieces 45%Z a_side), (count_pieces 43%Z b_side) by (reflexivity || apply ndiff_shape).
  destruct (ndiff_sides (replace esc_N [10%Z] (original_text t)) (replace esc_N [10%Z] (new_text t))) as [A B].
  rewrite A, B. lia.
Qed.

(** ** Witnesses *)

Lemma report_written_witness :
  @translate_core typo_sample ucd_sample sample_track = Ok sample_result /\ ps_typos sample_result <> [] /\
  exists w, @print_typo_compare ucd_sample (fun _ => []) (ps_typos sample_result) = Report w None.
Proof.
  split; [apply sample_track_result|]. split; [discriminate|].
  apply (@report_written typo_sample ucd_sample (fun _ => []) sample_track sample_result);
    [apply sample_track_result | discriminate].
Defined.

Lemma report_marks_roundtrip_witness :
  ~ In lbr (u "哈哈哈") /\ ~ In lbr (u "哈！哈哈") /\
  exists o n, mark_lines ([], []) (ndiff_texts (u "哈哈哈") (u "哈！哈哈")) = Ok (o, n) /\
              unmark o = replace esc_N newline (u "哈哈哈") /\ unmark n = replace esc_N newline (u "哈！哈哈").
Proof.
  assert (N1 : ~ In lbr (u "哈哈哈")) by (vm_compute; intros H; repeat destruct H as [H|H]; discriminate H || exact H).
  assert (N2 : ~ In lbr (u "哈！哈哈")) by (vm_compute; intros H; repeat destruct H as [H|H]; discriminate H || exact H).
  split; [exact N1|]. split; [exact N2|]. apply (report_marks_roundtrip _ _ N1 N2).
Defined.

Lemma report_column_witness :
  get_line_width (u "你好") < 40 /\ length (u "你好") <= 40 - get_line_width (u "你好") /\
  @get_line_width ucd_sample (pad (offset_of (u "你好")) (u "你好")) = 38.
Proof.
  assert (W : get_line_width (u "你好") = 4) by (vm_compute; reflexivity).
  split; [rewrite W; lia|]. split; [rewrite W; vm_compute; lia|].
  apply (report_column (u "你好")); rewrite W; [lia | vm_compute; lia].
Defined.

Lemma report_zip_drops_line_witness :
  exists o n,
    @compare_block ucd_sample (fun _ => []) (mk_typo 0 1000 (u "A\NB") (u "A") (Some 1)) =
      ((py_str_nat 1 ++ newline ++ [] ++ u " --> " ++ [] ++ newline) ++
       format_pairs (1 <? length (split newline o)) 0 (combine (split newline o) (split newline n)) ++ newline,
       None) /\
    length (combine (split newline o) (split newline n)) = 1.
Proof.
  destruct (@report_zip_drops_line ucd_sample (fun _ => []) (mk_typo 0 1000 (u "A\NB") (u "A") (Some 1)) 1 eq_refl)
    as [o [n [E L]]].
  exists o, n. split; [exact E|]. rewrite L. vm_compute. reflexivity.
Defined.
