(* ===== verification/Walk.v ===== *)
(** * The command line: [main], [walk_dir], [handle_subtitle]

    [main] (lines 813-871) dispatches on the path it is given: a
    directory is walked ([walk_dir], lines 775-786), an archive is
    extracted by [unar] and its output walked or handled, a subtitle
    file is handled ([handle_subtitle], lines 789-811).  A run is
    modelled as the list of operations it starts ([action]) and the way
    it ends ([outcome]): normally, by [sys.exit()], or by an exception.

    The file system and the outside programs are variables of the
    section: whether a path exists or is a directory, the listing of a
    directory, the track [pysubs2.load] reads from a file, the [<dia>] entries
    BeautifulSoup finds in an XML file, the output of
    [unar], Python's [float()] on the [--shift] argument, and pysubs2's
    [ms_to_timestamp], and chardet's guess of the encoding.  The
    re-encoding [convert_utf8] performs and OpenCC rewrite the file in
    place; only the codec [convert_utf8] chooses, and its
    [AttributeError] when chardet finds none, are modelled. *)

From Stdlib Require Import String.
From Stdlib Require Import List ZArith Lia Bool.
Import ListNotations.
From S2P Require Import Prelude PyStr Regex Width Cue Normalizer PostSort Pipeline Xml Files Report.
Open Scope sub_scope.

(** [str.lower()] on the ASCII names of codecs. *)
Definition ascii_lower (s : str) : str :=
  map (fun c => if ((65 <=? c) && (c <=? 90))%Z then (c + 32)%Z else c) s.

(** The value of an option declared with [nargs='?', const=True]:
    absent ([None]), given alone ([True]) or given a value. *)
Inductive optarg : Type := Flag | Value (s : str).

Record args : Type := mk_args {
  a_translate : option optarg;
  a_convert : option optarg;
  a_format : option optarg;
  a_shift : option str;
  a_merge : option str;
  a_zip : option str
}.

(** Python's truth value of the argument. *)
Definition truthy (o : option optarg) : bool :=
  match o with Some Flag => true | Some (Value s) => negb (str_eqb s []) | None => false end.

Definition truthy_str (o : option str) : bool :=
  match o with Some s => negb (str_eqb s []) | None => false end.

Definition SUBTITLE_FORMAT : list str := [u ".srt"; u ".ass"; u ".ssa"; u ".vtt"; u ".xml"].
Definition ARCHIVE_FORMAT : list str := [u ".7z,"; u ".gz"; u ".rar"; u ".tar"; u ".zip"].

Definition in_strs (s : str) (l : list str) : bool := existsb (str_eqb s) l.

(** [os.path.join(top, f)]. *)
Definition join_path (top f : str) : str :=
  match f with
  | c :: _ => if (c =? slash)%Z then f
              else match last_error top with
                   | None => f
                   | Some d => if (d =? slash)%Z then top ++ f else top ++ [slash] ++ f
                   end
  | [] => match last_error top with
          | Some d => if (d =? slash)%Z then top else top ++ [slash]
          | None => []
          end
  end.

(** The operations a run starts. *)
Inductive action : Type :=
| AFormat (f : str)
| AConvert (f : str)
| AShift (f : str)
| AMerge (f g : str)
| ATranslate (f : str) (simplified : bool)
| AArchive (command : str).

Inductive outcome : Type :=
| Completed
| Exited                    (** [sys.exit()] *)
| Raised (e : py_error).

(** [archive_subtitle] (lines 756-772): [next(...)] raises
    [StopIteration] for a platform id not in the list. *)
Definition platforms : list (str * str) :=
  [(u "nf", u "Netflix"); (u "kktv", u "KKTV"); (u "linetv", u "LineTV"); (u "friday", u "friDay")].

Definition archive_subtitle (path platform : str) : result str :=
  name <- of_option (option_map snd (List.find (fun p => str_eqb (fst p) platform) platforms)) StopIteration ;;
  let escaped := replace [32%Z] (u "\ ") path in
  let zipname := escaped ++ u ".WEB-DL." ++ name ++ u ".zh-Hant.zip " in
  Ok (u "python3 -m zipfile -c " ++ zipname ++ escaped ++ u "/*.srt").

(** [r'Successfully extracted to "(.+?)"']. *)
Definition unar_re : regex :=
  seqs [L "Successfully extracted to "; Chr 34%Z; Group 1 (plus false (Dot false)); Chr 34%Z].

(** A sample run: a directory [d] holding [a.srt], whose one cue needs
    no correction, and [b.srt], whose cue has the typo the sample
    dictionary corrects; no option is given, so the files are
    translated. *)
Definition demo_is_dir (p : str) : bool := str_eqb p (u "d").
Definition demo_listdir (p : str) : list str := [u "a.srt"; u "b.srt"].
Definition demo_load (f : str) : list cue :=
  if str_eqb f (u "d/a.srt") then [mk_cue 1000 2000 (u "你好")] else [mk_cue 1000 2000 (u "在這里")].
Definition no_options : args := mk_args None None None None None None.
Definition utf8_detect (f : str) : option str := Some (u "utf-8").

Section Run.
Context `{Dictionary} `{UnicodeDB}.
Variable exists_file : str -> bool.
Variable is_dir : str -> bool.
Variable listdir : str -> list str.
Variable load : str -> list cue.
Variable read_xml : str -> list dia.
Variable unar_output : str -> str.
Variable float_ok : str -> bool.
Variable ms_to_timestamp : Z -> str.
(** [chardet.detect(data)['encoding']]. *)
Variable detect : str -> option str.

(** Lines 83-89 of [convert_utf8]: the codec the file is re-read with,
    or [None] when it is UTF-8 already.  [None.lower()] raises
    [AttributeError] outside the [try]'s handlers; a [UnicodeDecodeError]
    of the re-reading is caught and printed, so it ends nothing. *)
Definition codec_plan (from_codec : option str) : result (option str) :=
  match from_codec with
  | None => Err AttributeError
  | Some c =>
      if str_eqb (ascii_lower c) (u "utf-8") then Ok None
      else if str_eqb c (u "BIG5") || str_eqb c (u "GB2312") || str_eqb c (u "GB2312") then Ok (Some (u "CP950"))
      else Ok (Some c)
  end.

(** [translate_subtitle] on the converted file (lines 144-469): loading
    a file that is not there raises [FileNotFoundError] (the [.xml]
    converter writes none); then the output name, the pipeline, the
    overlap report, and [print_typo_compare], whose [sys.exit()] on an
    empty list ends the run.  [exists_file] tells whether a path exists
    when the script looks at it: the original before its conversion,
    the converted name after it. *)
Definition translate_outcome (file_name : str) : outcome :=
  if negb (exists_file file_name) then Raised FileNotFoundError else
  match output_name file_name with
  | Err e => Raised e
  | Ok _ =>
      match translate_core (load file_name) with
      | Err e => Raised e
      | Ok st =>
          match overlap_report ms_to_timestamp (ps_subs st) (ps_overlap_num st) (ps_overlap_list st) with
          | Err e => Raised e
          | Ok _ =>
              match print_typo_compare ms_to_timestamp (ps_typos st) with
              | SysExit => Exited
              | Report _ None => Completed
              | Report _ (Some e) => Raised e
              end
          end
      end
  end.

(** Lines 789-811. *)
Definition handle_subtitle (a : args) (subtitle : str) : list action * outcome :=
  if negb (exists_file subtitle) then ([], Exited)
  else match codec_plan (detect subtitle) with Err e => ([], Raised e) | Ok _ =>
  if truthy (a_format a) then ([AFormat subtitle], Completed)
  else if truthy (a_convert a) then
    match convert_subtitle read_xml subtitle with
    | Ok _ => ([AConvert subtitle], Completed)
    | Err e => ([], Raised e)
    end
  else if truthy_str (a_shift a) then
    if float_ok (match a_shift a with Some s => s | None => [] end) then ([AShift subtitle], Completed)
    else ([], Raised ValueError)
  else if truthy_str (a_merge a) then
    let second := match a_merge a with Some s => s | None => [] end in
    if str_eqb (suffix second) (u ".srt") then
      match merge_events (load subtitle) (load second) with
      | Ok _ => ([AMerge subtitle second], Completed)
      | Err e => ([], Raised e)
      end
    else ([], Completed)
  else
    let simplified := match a_translate a with Some (Value s) => str_eqb s (u "s") | _ => false end in
    match convert_subtitle read_xml subtitle with
    | Err e => ([], Raised e)
    | Ok (n, _) => ([ATranslate n simplified], translate_outcome n)
    end
  end.

(** The loop of [walk_dir] over the listing; an outcome other than
    [Completed] ends the program, so the loop stops there. *)
Fixpoint walk_files (a : args) (top : str) (listing : list str) : list action * outcome :=
  match listing with
  | [] => ([], Completed)
  | f :: rest =>
      let pathname := join_path top f in
      if in_strs (suffix pathname) SUBTITLE_FORMAT then
        let '(acts, o) := handle_subtitle a pathname in
        match o with
        | Completed => let '(acts', o') := walk_files a top rest in (acts ++ acts', o')
        | _ => (acts, o)
        end
      else walk_files a top rest
  end.

(** Lines 775-786. *)
Definition walk_dir (a : args) (top : str) : list action * outcome :=
  let '(acts, o) := walk_files a top (listdir top) in
  match o with
  | Completed =>
      if truthy_str (a_zip a) then
        match archive_subtitle top (match a_zip a with Some z => z | None => [] end) with
        | Ok cmd => (acts ++ [AArchive cmd], Completed)
        | Err e => (acts, Raised e)
        end
      else (acts, Completed)
  | _ => (acts, o)
  end.

(** Lines 852-870. *)
Definition main (a : args) (path : str) : list action * outcome :=
  if is_dir path then walk_dir a path
  else if in_strs (suffix path) ARCHIVE_FORMAT then
    match search unar_re (unar_output path) with
    | Some (_, _, cs) =>
        let output_path := group_text cs 1 in
        if is_dir output_path then walk_dir a output_path else handle_subtitle a output_path
    | None => ([], Completed)
    end
  else if in_strs (suffix path) SUBTITLE_FORMAT then handle_subtitle a path
  else ([], Completed).

(** The operations the walk starts for the entries of [l], when none
    of them ends the run. *)
Definition handled (a : args) (top : str) (l : list str) : list action :=
  flat_map (fun f => if in_strs (suffix (join_path top f)) SUBTITLE_FORMAT
                     then fst (handle_subtitle a (join_path top f)) else []) l.

(** Every subtitle entry of [l] is handled to its end. *)
Definition all_complete (a : args) (top : str) (l : list str) : Prop :=
  forall f, In f l -> in_strs (suffix (join_path top f)) SUBTITLE_FORMAT = true ->
            snd (handle_subtitle a (join_path top f)) = Completed.

Lemma walk_files_complete (a : args) (top : str) (l : list str) :
  all_complete a top l -> walk_files a top l = (handled a top l, Completed).
Proof.
  induction l as [|f l IH]; intros Hc; [reflexivity|]. cbn [walk_files handled flat_map].
  assert (Hl : all_complete a top l) by (intros g Hg; apply Hc; right; exact Hg).
  destruct (in_strs (suffix (join_path top f)) SUBTITLE_FORMAT) eqn:Es; [|exact (IH Hl)].
  specialize (Hc f (or_introl eq_refl) Es).
  destruct (handle_subtitle a (join_path top f)) as [acts o]. cbn [snd fst] in Hc |- *. subst o.
  rewrite (IH Hl). reflexivity.
Qed.

Lemma walk_files_stop (a : args) (top : str) (pre post : list str) (f : str) :
  all_complete a top pre -> in_strs (suffix (join_path top f)) SUBTITLE_FORMAT = true ->
  snd (handle_subtitle a (join_path top f)) <> Completed ->
  walk_files a top (pre ++ f :: post) = (handled a top pre ++ fst (handle_subtitle a (join_path top f)),
                                          snd (handle_subtitle a (join_path top f))).
Proof.
  induction pre as [|g pre IH]; intros Hc Hs Ho.
  - cbn [app walk_files handled flat_map]. rewrite Hs.
    destruct (handle_subtitle a (join_path top f)) as [acts o]. cbn [snd fst] in Ho |- *.
    destruct o; [contradiction | reflexivity | reflexivity].
  - assert (Hl : all_complete a top pre) by (intros h Hh; apply Hc; right; exact Hh).
    cbn [app walk_files handled flat_map].
    destruct (in_strs (suffix (join_path top g)) SUBTITLE_FORMAT) eqn:Eg; [|exact (IH Hl Hs Ho)].
    pose proof (Hc g (or_introl eq_refl) Eg) as Hg.
    destruct (handle_subtitle a (join_path top g)) as [acts o]. cbn [snd fst] in Hg |- *. subst o.
    rewrite (IH Hl Hs Ho), app_assoc. reflexivity.
Qed.

(** ** The walk *)

(** C26. The walk stops at the first subtitle file whose default
    translation finds no typo: [print_typo_compare] calls [sys.exit()] on
    an empty list (line 528), so the files listed after it are never
    handled and the archive is not made.  The files before it are
    handled in order, and the walk's operations end with the
    translation of that file. *)
Theorem walk_stops_at_exit (a : args) (top : str) (pre post : list str) (f n : str) (ops : list fs_op)
    (plan : option str) (st : post_state) (names : str * str) :
  listdir top = pre ++ f :: post -> all_complete a top pre ->
  in_strs (suffix (join_path top f)) SUBTITLE_FORMAT = true ->
  exists_file (join_path top f) = true -> codec_plan (detect (join_path top f)) = Ok plan ->
  truthy (a_format a) = false -> truthy (a_convert a) = false ->
  truthy_str (a_shift a) = false -> truthy_str (a_merge a) = false ->
  convert_subtitle read_xml (join_path top f) = Ok (n, ops) ->
  exists_file n = true -> output_name n = Ok names -> translate_core (load n) = Ok st -> ps_typos st = [] ->
  exists simplified, walk_dir a top = (handled a top pre ++ [ATranslate n simplified], Exited).
Proof.
  intros El Hc Hsub Hp Hcp Hf Hv Hs Hm Hconv Hn En Et Ep.
  assert (Hx : translate_outcome n = Exited).
  { unfold translate_outcome. rewrite Hn, En, Et.
    destruct (overlap_report_ok ms_to_timestamp (load n) st Et) as [r ->].
    unfold print_typo_compare. rewrite Ep. reflexivity. }
  assert (Hh : handle_subtitle a (join_path top f) =
               ([ATranslate n (match a_translate a with Some (Value s) => str_eqb s (u "s") | _ => false end)], Exited))
    by (unfold handle_subtitle; rewrite Hp, Hcp, Hf, Hv, Hs, Hm, Hconv, Hx; reflexivity).
  eexists. unfold walk_dir. rewrite El, (walk_files_stop a top pre post f Hc Hsub) by (rewrite Hh; discriminate).
  rewrite Hh. reflexivity.
Qed.

End Run.

(** ** Witnesses *)

Lemma walk_stops_at_exit_witness :
  exists simplified,
  @walk_dir typo_sample ucd_sample (fun _ => true) demo_listdir demo_load (fun _ => []) (fun _ => true) (fun _ => []) utf8_detect
            no_options (u "d") = ([] ++ [ATranslate (u "d/a.srt") simplified], Exited).
Proof.
  destruct (@translate_core typo_sample ucd_sample (demo_load (u "d/a.srt"))) as [st|e] eqn:Et;
    [|vm_compute in Et; discriminate].
  assert (Ep : ps_typos st = []) by (vm_compute in Et; injection Et as <-; reflexivity).
  apply (@walk_stops_at_exit typo_sample ucd_sample (fun _ => true) demo_listdir demo_load (fun _ => []) (fun _ => true) (fun _ => []) utf8_detect
           no_options (u "d") [] [u "b.srt"] (u "a.srt") (u "d/a.srt") [] None st (u "d/", u "a.zh.srt")).
  - reflexivity.
  - intros f [].
  - vm_compute. reflexivity.
  - reflexivity.
  - vm_compute. reflexivity.
  - reflexivity.
  - reflexivity.
  - reflexivity.
  - reflexivity.
  - vm_compute. reflexivity.
  - reflexivity.
  - vm_compute. reflexivity.
  - exact Et.
  - exact Ep.
Defined.
